(** * dysl.h: allocator indirection, object tracking lists, symbol table

    A shallow embedding of the implementation section of [dysl.h] and of
    its command-line driver, and the properties of its memory-management
    core.

    Conventions of the embedding.
    - Pointers are [option]s: [None] is the C [NULL].  A block handed out by
      the allocator is named by its address ([addr]).
    - [size_t] is a 64-bit unsigned integer (LP64) and [dy_hash_t] a 32-bit
      one; both are embedded in [N] with the wrap-around written where the
      source computes.
    - The memory is typed: an address is viewed through the struct the
      source casts it to ([struct dy_object] for tracked objects,
      [struct dy_symbol] for symbols).  An access through [NULL] or through
      an address that holds no such struct is a [Fault].
    - Functions that mutate what their pointer arguments point to take the
      state explicitly and return the new one. *)

From Stdlib Require Import NArith Lia.
From Stdlib.Strings Require Import Byte.
From Stdlib Require Strings.String Strings.Ascii.
From stdpp Require Import base option list gmap.

Open Scope N_scope.

(** ** Faults and the result monad *)

Inductive fault : Set :=
| NullDeref      (* access through NULL *)
| InvalidPtr     (* access through an address that holds no object *)
| DivByZero      (* [x % 0] *)
| OutOfBounds    (* index past the end of a block *)
| OutOfFuel.     (* a loop ran longer than its bound *)

Inductive res (A : Type) : Type :=
| Ok (x : A)
| Fault (f : fault).
Arguments Ok {A} x.
Arguments Fault {A} f.

#[global] Instance res_ret : MRet res := fun _ x => Ok x.
#[global] Instance res_bind : MBind res := fun _ _ f m =>
  match m with
  | Ok x => f x
  | Fault e => Fault e
  end.

(** ** Basic C types *)

Definition addr := N.
Definition size_t_modulus : N := 2 ^ 64.
Definition hash_modulus : N := 2 ^ 32.
Definition sizeof_ptr : N := 8.

Definition dy_tag := N.
Definition dy_hash_t := N.

(** ** The allocator capability

    [dysl_allocator_fn] is the reallocate-style entry point.  What lives
    behind [user_data] is the allocator's own state [UD]; the function is
    given that state and returns the new one.  [alloc_state] pairs it with
    the record of the calls made so far, which is only used to state what
    has been requested and released. *)

Record alloc_call := AllocCall {
  call_ptr : option addr;
  call_old_size : N;
  call_new_size : N;
  call_result : option addr
}.

Section Allocator.
Context {UD : Type}.

Definition dysl_allocator_fn : Type :=
  UD → option addr → N → N → option addr * UD.

Record dysl_allocator := { fn : dysl_allocator_fn }.

Record alloc_state := AllocState {
  user_data : UD;
  calls : list alloc_call
}.

Definition call_allocator (allocator : dysl_allocator)
    (ptr : option addr) (old_size new_size : N) (al : alloc_state)
    : option addr * alloc_state :=
  let '(r, ud') := fn allocator (user_data al) ptr old_size new_size in
  (r, {| user_data := ud';
         calls := calls al ++ [AllocCall ptr old_size new_size r] |}).

Definition dAlloc_alloc (allocator : dysl_allocator) (size : N)
    (al : alloc_state) : option addr * alloc_state :=
  call_allocator allocator None 0 size al.

Definition dAlloc_free (allocator : dysl_allocator) (ptr : option addr)
    (al : alloc_state) : option addr * alloc_state :=
  call_allocator allocator ptr 0 0 al.

Definition dAlloc_realloc (allocator : dysl_allocator) (ptr : option addr)
    (old_size new_size : N) (al : alloc_state)
    : option addr * alloc_state :=
  call_allocator allocator ptr old_size new_size al.
End Allocator.
Arguments dysl_allocator_fn : clear implicits.
Arguments dysl_allocator : clear implicits.
Arguments alloc_state : clear implicits.

(** Blocks obtained by a successful call and not handed back since by a
    call with [new_size = 0], latest first.  [live] are the blocks
    outstanding before the calls [cs]. *)
Fixpoint outstanding (cs : list alloc_call) (live : list addr) : list addr :=
  match cs with
  | [] => live
  | c :: cs' =>
      let live1 :=
        match call_ptr c with
        | Some p =>
            if call_new_size c =? 0 then filter (λ q, q ≠ p) live
            else match call_result c with
                 | Some r => r :: filter (λ q, q ≠ p) live
                 | None => live
                 end
        | None =>
            match call_result c with
            | Some r => r :: live
            | None => live
            end
        end in
      outstanding cs' live1
  end.

(** ** Tracked objects and the two sentinel lists *)

(** A [struct dy_object*] that is not [NULL] points either to one of the two
    sentinels embedded in [struct dy_gc] or to a heap block. *)
Inductive objref : Set :=
| RootSentinel
| GenSentinel
| HeapObj (a : addr).

#[global] Instance objref_eq_dec : EqDecision objref.
Proof. solve_decision. Defined.

Definition objptr := option objref.

Record dy_object := DyObject {
  tag : dy_tag;
  previous : objptr;
  next : objptr
}.

Section Tracking.
Context {UD : Type}.

Record dy_gc := DyGc {
  allocator : dysl_allocator UD;
  root : dy_object;
  gen : dy_object
}.

(** The part of the memory the list operations read and write: one
    [struct dy_gc] and the object memory.  [heap] gives, for every address
    of object memory, the header read there; this includes the blocks the
    allocator has not handed out yet, whose content is arbitrary.  An
    address outside [heap] is not a valid object pointer. *)
Record gc_store := GcStore {
  gc : dy_gc;
  heap : gmap addr dy_object
}.

Definition load (s : gc_store) (p : objptr) : res dy_object :=
  match p with
  | None => Fault NullDeref
  | Some RootSentinel => Ok (root (gc s))
  | Some GenSentinel => Ok (gen (gc s))
  | Some (HeapObj a) =>
      match heap s !! a with
      | Some o => Ok o
      | None => Fault InvalidPtr
      end
  end.

Definition store (s : gc_store) (p : objptr) (o : dy_object) : res gc_store :=
  match p with
  | None => Fault NullDeref
  | Some RootSentinel =>
      Ok (GcStore (DyGc (allocator (gc s)) o (gen (gc s))) (heap s))
  | Some GenSentinel =>
      Ok (GcStore (DyGc (allocator (gc s)) (root (gc s)) o) (heap s))
  | Some (HeapObj a) =>
      match heap s !! a with
      | Some _ => Ok (GcStore (gc s) (<[a := o]> (heap s)))
      | None => Fault InvalidPtr
      end
  end.

Definition get_next (s : gc_store) (p : objptr) : res objptr :=
  o ← load s p; Ok (next o).
Definition get_previous (s : gc_store) (p : objptr) : res objptr :=
  o ← load s p; Ok (previous o).
Definition get_tag (s : gc_store) (p : objptr) : res dy_tag :=
  o ← load s p; Ok (tag o).

Definition set_next (p v : objptr) (s : gc_store) : res gc_store :=
  o ← load s p; store s p (DyObject (tag o) (previous o) v).
Definition set_previous (p v : objptr) (s : gc_store) : res gc_store :=
  o ← load s p; store s p (DyObject (tag o) v (next o)).
Definition set_tag (p : objptr) (t : dy_tag) (s : gc_store) : res gc_store :=
  o ← load s p; store s p (DyObject t (previous o) (next o)).

(** [obj->previous = obj->next = obj;] *)
Definition dObj_close (obj : objptr) (s : gc_store) : res gc_store :=
  s1 ← set_next obj obj s;
  set_previous obj obj s1.

(** [obj->previous->next = obj->next; obj->next->previous = obj->previous;
    dObj_close(obj);] *)
Definition dObj_unlink (obj : objptr) (s : gc_store) : res gc_store :=
  p ← get_previous s obj;
  n ← get_next s obj;
  s1 ← set_next p n s;
  n' ← get_next s1 obj;
  p' ← get_previous s1 obj;
  s2 ← set_previous n' p' s1;
  dObj_close obj s2.

(** [obj->next = list->next; obj->previous = list;
    list->next->previous = obj; list->next = obj;] *)
Definition dObj_link (obj list : objptr) (s : gc_store) : res gc_store :=
  ln ← get_next s list;
  s1 ← set_next obj ln s;
  s2 ← set_previous obj list s1;
  ln' ← get_next s2 list;
  s3 ← set_previous ln' obj s2;
  set_next list obj s3.

(** [gc->allocator = allocator; dObj_close(&gc->root); dObj_close(&gc->gen);] *)
Definition dGC_init (al : dysl_allocator UD) (s : gc_store) : res gc_store :=
  let s0 := GcStore (DyGc al (root (gc s)) (gen (gc s))) (heap s) in
  s1 ← dObj_close (Some RootSentinel) s0;
  dObj_close (Some GenSentinel) s1.

Definition dGC_track (obj : objptr) (s : gc_store) : res gc_store :=
  dObj_link obj (Some GenSentinel) s.

Definition dGC_root (obj : objptr) (s : gc_store) : res gc_store :=
  dObj_link obj (Some RootSentinel) s.

Definition dGC_unroot (obj : objptr) (s : gc_store) : res gc_store :=
  dObj_unlink obj s.

(** [dGC_create]: the block returned by the allocator is viewed as an
    object header; its [previous] and [next] fields are whatever the
    memory held there. *)
Definition dGC_create (size : N) (t : dy_tag) (s : gc_store)
    (al : alloc_state UD) : res (option addr * gc_store * alloc_state UD) :=
  let '(p, al1) := dAlloc_alloc (allocator (gc s)) size al in
  match p with
  | None => Ok (None, s, al1)
  | Some a =>
      let obj := Some (HeapObj a) in
      s1 ← set_tag obj t s;
      s2 ← dGC_track obj s1;
      Ok (Some a, s2, al1)
  end.

(** The variant the comment in [dGC_create] speaks of: the object is
    closed before it is linked. *)
Definition dGC_create_closed (size : N) (t : dy_tag) (s : gc_store)
    (al : alloc_state UD) : res (option addr * gc_store * alloc_state UD) :=
  let '(p, al1) := dAlloc_alloc (allocator (gc s)) size al in
  match p with
  | None => Ok (None, s, al1)
  | Some a =>
      let obj := Some (HeapObj a) in
      s1 ← set_tag obj t s;
      s2 ← dObj_close obj s1;
      s3 ← dGC_track obj s2;
      Ok (Some a, s3, al1)
  end.

(** Walking a list from its sentinel along [next] until the sentinel is
    met again. *)
Fixpoint walk (fuel : nat) (s : gc_store) (head : objref) (cur : objptr)
    : res (list objref) :=
  match fuel with
  | O => Fault OutOfFuel
  | S f =>
      match cur with
      | None => Fault NullDeref
      | Some x =>
          if decide (x = head) then Ok []
          else n ← get_next s cur; l ← walk f s head n; Ok (x :: l)
      end
  end.

Definition traverse (fuel : nat) (s : gc_store) (head : objref)
    : res (list objref) :=
  n ← get_next s (Some head); walk fuel s head n.
End Tracking.
Arguments dy_gc : clear implicits.
Arguments gc_store : clear implicits.

(** ** Utilities *)

(** FNV-1a over the bytes of the slice, in 32-bit arithmetic. *)
Definition dHash_fnv1a (key : list byte) : dy_hash_t :=
  fold_left
    (λ hash b, (N.lxor hash (Byte.to_N b) * 16777619) mod hash_modulus)
    key 2166136261.

Definition dHash_slice (key : list byte) : dy_hash_t := dHash_fnv1a key.

(** The comparison loop of [dSlice_equals], from index [i], [todo]
    iterations left.  [pa] and [pb] are the bytes stored at the two
    pointers. *)
Fixpoint dSlice_loop (pa pb : list byte) (i todo : nat) : res bool :=
  match todo with
  | O => Ok true
  | S k =>
      match pa !! i, pb !! i with
      | Some x, Some y =>
          if Byte.eqb x y then dSlice_loop pa pb (S i) k else Ok false
      | _, _ => Fault OutOfBounds
      end
  end.

Definition dSlice_equals (a : list byte) (a_length : N)
    (b : list byte) (b_length : N) : res bool :=
  if negb (a_length =? b_length) then Ok false
  else dSlice_loop a b 0 (N.to_nat a_length).

(** ** The symbol table *)

Record dy_symbol := DySymbol {
  header : dy_object;
  next_in_table : option addr;
  sym_length : N;
  sym_hash : dy_hash_t;
  sym_name : list byte
}.

Definition DYSL_SYMBOLS_INITIAL_CAPACITY : N := 64.

(** [(size_t)(capacity * DYSL_SYMBOLS_LOAD_FACTOR)] with the factor 0.75.
    The product is computed in [double]; for capacities below [2^51] it is
    exact, so the truncation is the integer quotient of [3 * capacity] by
    [4]. *)
Definition load_factor_threshold (capacity : N) : N := 3 * capacity / 4.

(** [new_capacity * DYSL_SYMBOLS_LOAD_FACTOR < desired_count], compared in
    [double]: exact in the same range. *)
Definition below_load_factor (new_capacity desired_count : N) : bool :=
  3 * new_capacity <? 4 * desired_count.

(** The array of chain heads: its address and its entries. *)
Record bucket_array := BucketArray {
  array_base : addr;
  array_slots : list (option addr)
}.

Record dy_symbols := DySymbols {
  buckets : option bucket_array;
  count : N;
  capacity : N
}.

(** The memory the table operations work on: the table and the symbol
    objects that have been created. *)
Record sym_store := SymStore {
  symbols : dy_symbols;
  symheap : gmap addr dy_symbol
}.

(** A [struct dy_symbol**]: the address of a bucket entry or of the
    [next_in_table] field of a symbol. *)
Inductive slot : Set :=
| BucketSlot (i : N)
| NextSlot (a : addr).

#[global] Instance slot_eq_dec : EqDecision slot.
Proof. solve_decision. Defined.

Definition read_array (b : option bucket_array) (i : N) : res (option addr) :=
  match b with
  | None => Fault NullDeref
  | Some arr =>
      match array_slots arr !! N.to_nat i with
      | Some p => Ok p
      | None => Fault OutOfBounds
      end
  end.

Definition write_array (b : option bucket_array) (i : N) (v : option addr)
    : res (option bucket_array) :=
  match b with
  | None => Fault NullDeref
  | Some arr =>
      if (N.to_nat i <? length (array_slots arr))%nat
      then Ok (Some (BucketArray (array_base arr)
                       (<[N.to_nat i := v]> (array_slots arr))))
      else Fault OutOfBounds
  end.

Definition load_sym (h : gmap addr dy_symbol) (a : addr) : res dy_symbol :=
  match h !! a with
  | Some sym => Ok sym
  | None => Fault InvalidPtr
  end.

Definition set_next_in_table (sym : dy_symbol) (v : option addr) : dy_symbol :=
  DySymbol (header sym) v (sym_length sym) (sym_hash sym) (sym_name sym).

Definition read_slot (s : sym_store) (sl : slot) : res (option addr) :=
  match sl with
  | BucketSlot i => read_array (buckets (symbols s)) i
  | NextSlot a => sym ← load_sym (symheap s) a; Ok (next_in_table sym)
  end.

Definition write_slot (s : sym_store) (sl : slot) (v : option addr)
    : res sym_store :=
  match sl with
  | BucketSlot i =>
      b ← write_array (buckets (symbols s)) i v;
      Ok (SymStore (DySymbols b (count (symbols s)) (capacity (symbols s)))
            (symheap s))
  | NextSlot a =>
      sym ← load_sym (symheap s) a;
      Ok (SymStore (symbols s) (<[a := set_next_in_table sym v]> (symheap s)))
  end.

(** [for (i = 0; i < n; i++) buckets[i] = NULL;] *)
Fixpoint null_fill (todo : nat) (i : N) (b : option bucket_array)
    : res (option bucket_array) :=
  match todo with
  | O => Ok b
  | S k => b' ← write_array b i None; null_fill k (i + 1) b'
  end.

(** The walk of [dSymbols_lookup] along one chain. *)
Fixpoint lookup_loop (fuel : nat) (s : sym_store)
    (name : list byte) (length : N) (hash : dy_hash_t) (sl : slot)
    : res (slot * bool) :=
  match fuel with
  | O => Fault OutOfFuel
  | S f =>
      p ← read_slot s sl;
      match p with
      | None => Ok (sl, false)
      | Some a =>
          sym ← load_sym (symheap s) a;
          same ← (if (sym_hash sym =? hash) && (sym_length sym =? length)
                  then dSlice_equals (sym_name sym) (sym_length sym) name length
                  else Ok false);
          if same : bool then Ok (sl, true)
          else lookup_loop f s name length hash (NextSlot a)
      end
  end.

(** A chain of a table whose symbols are all in [symheap s] has at most
    [size (symheap s)] symbols, so the walk needs no more steps than that
    plus one. *)
Definition chain_fuel (h : gmap addr dy_symbol) : nat := S (size h).

Definition dSymbols_lookup (s : sym_store)
    (name : list byte) (length : N) (hash : dy_hash_t) : res (slot * bool) :=
  if capacity (symbols s) =? 0 then Fault DivByZero
  else
    let index := hash mod capacity (symbols s) in
    lookup_loop (chain_fuel (symheap s)) s name length hash (BucketSlot index).

Definition dSymbols_should_grow (symbols : dy_symbols) (desired_count : N)
    : bool :=
  let grow_threshold := load_factor_threshold (capacity symbols) in
  grow_threshold <? desired_count.

(** [while (new_capacity * LOAD_FACTOR < desired_count) new_capacity *= 2;]
    After 64 doublings a [size_t] is 0 and stays 0, so a loop that has not
    stopped by then never stops. *)
Fixpoint grow_loop (fuel : nat) (new_capacity desired_count : N) : res N :=
  match fuel with
  | O => Fault OutOfFuel
  | S f =>
      if below_load_factor new_capacity desired_count
      then grow_loop f ((new_capacity * 2) mod size_t_modulus) desired_count
      else Ok new_capacity
  end.

(** [while (new_capacity > INITIAL && desired_count < new_capacity / 4)
      new_capacity /= 2;] *)
Fixpoint shrink_loop (fuel : nat) (new_capacity desired_count : N) : res N :=
  match fuel with
  | O => Fault OutOfFuel
  | S f =>
      if (DYSL_SYMBOLS_INITIAL_CAPACITY <? new_capacity)
         && (desired_count <? new_capacity / 4)
      then shrink_loop f (new_capacity / 2) desired_count
      else Ok new_capacity
  end.

Definition dU_max (a b : N) : N := if b <? a then a else b.
Definition dU_min (a b : N) : N := if a <? b then a else b.

Section SymbolTable.
Context {UD : Type}.
(** The indeterminate content of a freshly allocated array of pointers. *)
Variable junk : nat → option addr.

Definition fresh_array (base : addr) (bytes : N) : bucket_array :=
  BucketArray base (junk <$> seq 0 (N.to_nat (bytes / sizeof_ptr))).

Definition dSymbols_init (symbols : dy_symbols) (initial_capacity : N)
    (allocator : dysl_allocator UD) (al : alloc_state UD)
    : res (dy_symbols * alloc_state UD) :=
  let bytes := (sizeof_ptr * initial_capacity) mod size_t_modulus in
  let '(p, al1) := dAlloc_alloc allocator bytes al in
  let b := (λ base, fresh_array base bytes) <$> p in
  b' ← null_fill (N.to_nat initial_capacity) 0 b;
  Ok (DySymbols b' 0 initial_capacity, al1).

Definition dSymbols_destroy (symbols : dy_symbols)
    (allocator : dysl_allocator UD) (al : alloc_state UD)
    : dy_symbols * alloc_state UD :=
  let '(_, al1) :=
    dAlloc_free allocator (array_base <$> buckets symbols) al in
  (DySymbols None 0 0, al1).

(** The inner loop of the rehash: the chain starting at [sym] is pushed,
    symbol by symbol, on the front of the chains of the new array. *)
Fixpoint rehash_chain (fuel : nat) (new_capacity : N) (sym : option addr)
    (new_buckets : option bucket_array) (h : gmap addr dy_symbol)
    : res (option bucket_array * gmap addr dy_symbol) :=
  match fuel with
  | O => Fault OutOfFuel
  | S f =>
      match sym with
      | None => Ok (new_buckets, h)
      | Some a =>
          s ← load_sym h a;
          let next_sym := next_in_table s in
          if new_capacity =? 0 then Fault DivByZero
          else
            let new_index := sym_hash s mod new_capacity in
            first ← read_array new_buckets new_index;
            let h1 := <[a := set_next_in_table s first]> h in
            new_buckets1 ← write_array new_buckets new_index (Some a);
            rehash_chain f new_capacity next_sym new_buckets1 h1
      end
  end.

(** The outer loop: buckets [i], [i+1], ... of the old array, [todo] of
    them. *)
Fixpoint rehash_buckets (todo : nat) (i : N) (old_buckets : option bucket_array)
    (new_capacity : N) (new_buckets : option bucket_array)
    (h : gmap addr dy_symbol)
    : res (option bucket_array * gmap addr dy_symbol) :=
  match todo with
  | O => Ok (new_buckets, h)
  | S k =>
      sym ← read_array old_buckets i;
      '(new_buckets1, h1) ←
        rehash_chain (chain_fuel h) new_capacity sym new_buckets h;
      rehash_buckets k (i + 1) old_buckets new_capacity new_buckets1 h1
  end.

Definition dSymbols_resize (s : sym_store) (new_capacity : N)
    (allocator : dysl_allocator UD) (al : alloc_state UD)
    : res (sym_store * alloc_state UD) :=
  let bytes := (sizeof_ptr * new_capacity) mod size_t_modulus in
  let '(p, al1) := dAlloc_alloc allocator bytes al in
  match p with
  | None =>
      (* Allocation failed, overflow the symbol table until next resize. *)
      Ok (s, al1)
  | Some base =>
      new_buckets ←
        null_fill (N.to_nat new_capacity) 0 (Some (fresh_array base bytes));
      '(new_buckets1, h1) ←
        rehash_buckets (N.to_nat (capacity (symbols s))) 0
          (buckets (symbols s)) new_capacity new_buckets (symheap s);
      let '(_, al2) :=
        dAlloc_free allocator (array_base <$> buckets (symbols s)) al1 in
      Ok (SymStore (DySymbols new_buckets1 (count (symbols s)) new_capacity) h1,
          al2)
  end.

Definition dSymbols_ensure_capacity (s : sym_store) (desired_count : N)
    (allocator : dysl_allocator UD) (al : alloc_state UD)
    : res (sym_store * alloc_state UD) :=
  let capacity := capacity (symbols s) in
  let grow_threshold := load_factor_threshold capacity in
  let shrink_threshold := capacity / 4 in
  new_capacity ←
    (if grow_threshold <? desired_count then
       grow_loop 65 capacity desired_count
     else if (desired_count <? shrink_threshold)
             && (DYSL_SYMBOLS_INITIAL_CAPACITY <? capacity) then
       shrink_loop 65
         (dU_max (capacity / 2) DYSL_SYMBOLS_INITIAL_CAPACITY) desired_count
     else Ok capacity);
  dSymbols_resize s new_capacity allocator al.

Definition set_count (s : sym_store) (c : N) : sym_store :=
  SymStore (DySymbols (buckets (symbols s)) c (capacity (symbols s)))
    (symheap s).

Definition dSymbols_intern (s : sym_store)
    (name : list byte) (length : N) (hash : dy_hash_t)
    (allocator : dysl_allocator UD) (al : alloc_state UD)
    : res (slot * sym_store * alloc_state UD) :=
  '(sl, found) ← dSymbols_lookup s name length hash;
  if found : bool then Ok (sl, s, al)
  else
    let new_count := (count (symbols s) + 1) mod size_t_modulus in
    '(sl1, s1, al1) ←
      (if dSymbols_should_grow (symbols s) new_count then
         '(s1, al1) ← dSymbols_ensure_capacity s new_count allocator al;
         '(sl1, _) ← dSymbols_lookup s1 name length hash;
         Ok (sl1, s1, al1)
       else Ok (sl, s, al));
    Ok (sl1, set_count s1 new_count, al1).

(** *** The caller's half of interning

    [dSymbols_intern] only returns the slot: "the caller is responsible for
    allocating the symbol and placing it in the returned slot".  The
    functions below are that protocol: when the slot is empty a symbol
    object at a new address [a] is initialised with the name, its length
    and hash and an empty [next_in_table], and its address is stored in the
    slot; the identity of the interned symbol is the address the slot then
    holds. *)

Definition place_symbol (a : addr) (hd : dy_object)
    (name : list byte) (length : N) (hash : dy_hash_t)
    (sl : slot) (s : sym_store) : res sym_store :=
  let s1 := SymStore (symbols s)
              (<[a := DySymbol hd None length hash name]> (symheap s)) in
  write_slot s1 sl (Some a).

Definition intern_symbol (hashf : list byte → dy_hash_t)
    (allocator : dysl_allocator UD)
    (a : addr) (hd : dy_object) (name : list byte)
    (s : sym_store) (al : alloc_state UD)
    : res (addr * slot * sym_store * alloc_state UD) :=
  let len := N.of_nat (length name) in
  let hash := hashf name in
  '(sl, s1, al1) ← dSymbols_intern s name len hash allocator al;
  p ← read_slot s1 sl;
  match p with
  | Some existing => Ok (existing, sl, s1, al1)
  | None =>
      s2 ← place_symbol a hd name len hash sl s1;
      Ok (a, sl, s2, al1)
  end.

(** Interning a sequence of names, each with the address and header its
    symbol gets if it is new. *)
Fixpoint intern_all (hashf : list byte → dy_hash_t)
    (allocator : dysl_allocator UD)
    (names : list (addr * dy_object * list byte))
    (s : sym_store) (al : alloc_state UD)
    : res (list addr * sym_store * alloc_state UD) :=
  match names with
  | [] => Ok ([], s, al)
  | (a, hd, name) :: rest =>
      '(id, _, s1, al1) ← intern_symbol hashf allocator a hd name s al;
      '(ids, s2, al2) ← intern_all hashf allocator rest s1 al1;
      Ok (id :: ids, s2, al2)
  end.

(** What a lookup reaches: the symbol in the slot when the flag is set. *)
Definition lookup_symbol (s : sym_store)
    (name : list byte) (length : N) (hash : dy_hash_t) : res (option addr) :=
  '(sl, found) ← dSymbols_lookup s name length hash;
  if found : bool then read_slot s sl else Ok None.
End SymbolTable.

(** ** Global state and interpreter context *)

Definition sizeof_dysl : N := 8.
Definition sizeof_dy_global : N := 96.

Record dysl := Dysl { global : option addr }.

Section Global.
Context {UD : Type}.
Variable junk : nat → option addr.

Record dy_global := DyGlobal {
  global_gc : dy_gc UD;
  global_symbols : dy_symbols;
  main_state : option addr
}.

(** [dGC_init] only touches the [struct dy_gc] it is given, so it is run on
    a store with no heap objects. *)
Definition dGlobal_init (g : dy_global) (allocator : dysl_allocator UD)
    (al : alloc_state UD) : res (dy_global * alloc_state UD) :=
  gs ← dGC_init allocator (GcStore (global_gc g) ∅);
  '(syms, al1) ← dSymbols_init junk (global_symbols g)
                   DYSL_SYMBOLS_INITIAL_CAPACITY allocator al;
  Ok (DyGlobal (gc gs) syms (main_state g), al1).

(** What [dysl_new] returns when it succeeds: the address [D], the content
    of [*D] and the content of [*D->global]. *)
Record dysl_instance := DyslInstance {
  instance_addr : addr;
  instance_state : dysl;
  instance_global : dy_global
}.

(** [junk_global] is the indeterminate content of the block obtained for
    [struct dy_global]. *)
Definition dysl_new (junk_global : dy_global) (allocator : dysl_allocator UD)
    (al : alloc_state UD) : res (option dysl_instance * alloc_state UD) :=
  let '(D, al1) := dAlloc_alloc allocator sizeof_dysl al in
  match D with
  | None => Ok (None, al1)
  | Some d =>
      let '(G, al2) := dAlloc_alloc allocator sizeof_dy_global al1 in
      match G with
      | None =>
          let '(_, al3) := dAlloc_free allocator (Some d) al2 in
          Ok (None, al3)
      | Some g =>
          '(g1, al3) ← dGlobal_init junk_global allocator al2;
          Ok (Some (DyslInstance d (Dysl (Some g))
                      (DyGlobal (global_gc g1) (global_symbols g1) (Some d))),
              al3)
      end
  end.

End Global.
Arguments dy_global : clear implicits.
Arguments dysl_instance : clear implicits.

(** ** A test allocator

    It grants a bounded number of requests, handing out consecutive
    addresses; with a budget of 0 it is the zero-capacity allocator that
    refuses everything.  Its state is the remaining budget and the next
    free address. *)
Definition budget_fn : dysl_allocator_fn (N * N) :=
  λ ud ptr old_size new_size,
    match ptr with
    | None =>
        if (0 <? new_size) && (0 <? fst ud)
        then (Some (snd ud), (fst ud - 1, snd ud + new_size))
        else (None, ud)
    | Some _ => (None, ud)
    end.

Definition budget_allocator : dysl_allocator (N * N) := {| fn := budget_fn |}.

Definition budget_state (budget first : N) : alloc_state (N * N) :=
  AllocState (budget, first) [].

Definition no_junk : nat → option addr := λ _, Some 3735928559.

Definition blank_object : dy_object := DyObject 0 None None.

(** ** Well-formed tracking structures *)

Section TrackingInvariant.
Context {UD : Type}.
Implicit Types s : gc_store UD.

(** [x] points forward to [y] and [y] points back to [x]. *)
Definition linked s (x y : objref) : Prop :=
  get_next s (Some x) = Ok (Some y) ∧ get_previous s (Some y) = Ok (Some x).

(** Every two consecutive nodes of [l] are linked. *)
Fixpoint path s (l : list objref) : Prop :=
  match l with
  | [] => True
  | x :: t =>
      match t with
      | [] => True
      | y :: _ => linked s x y ∧ path s t
      end
  end.

(** The circular list of the sentinel [head] holds the heap objects [l], in
    this order along [next]. *)
Definition dlist s (head : objref) (l : list addr) : Prop :=
  path s (head :: (HeapObj <$> l) ++ [head]).

(** The root set holds [rs], the generation set holds [gs], and no object
    is in both or twice in one. *)
Definition tracking s (rs gs : list addr) : Prop :=
  dlist s RootSentinel rs ∧ dlist s GenSentinel gs ∧ NoDup (rs ++ gs).

(** A closed object: both links point to the object itself. *)
Definition closed s (x : objref) : Prop := linked s x x.

Definition valid s (x : objref) : Prop := ∃ o, load s (Some x) = Ok o.

(** Moving an object from the generation set to the root set, and back:
    it is unlinked from the list it is in, then linked into the other. *)
Definition move_to_root (a : addr) s : res (gc_store UD) :=
  s1 ← dObj_unlink (Some (HeapObj a)) s;
  dGC_root (Some (HeapObj a)) s1.

Definition move_to_gen (a : addr) s : res (gc_store UD) :=
  s1 ← dGC_unroot (Some (HeapObj a)) s;
  dGC_track (Some (HeapObj a)) s1.

Fixpoint move_all (move : addr → gc_store UD → res (gc_store UD))
    (l : list addr) s : res (gc_store UD) :=
  match l with
  | [] => Ok s
  | a :: l' => s1 ← move a s; move_all move l' s1
  end.

(** Headers of the objects in [l], all with the same tag. *)
Definition tags_kept s s' : Prop :=
  ∀ y, get_tag s' (Some y) = get_tag s (Some y).
End TrackingInvariant.

(** ** Sample tracking structures *)

(** Both sets empty; three blocks of object memory at 4096, 4128, 4160. *)
Definition sample_heap : gmap addr dy_object :=
  <[4096 := blank_object]>
    (<[4128 := blank_object]> (<[4160 := blank_object]> ∅)).

Definition sample_store : gc_store (N * N) :=
  GcStore
    (DyGc budget_allocator
       (DyObject 0 (Some RootSentinel) (Some RootSentinel))
       (DyObject 0 (Some GenSentinel) (Some GenSentinel)))
    sample_heap.

(** The object at 4096 is the only one in the generation set. *)
Definition one_tracked : gc_store (N * N) :=
  GcStore
    (DyGc budget_allocator
       (DyObject 0 (Some RootSentinel) (Some RootSentinel))
       (DyObject 0 (Some (HeapObj 4096)) (Some (HeapObj 4096))))
    (<[4096 := DyObject 7 (Some GenSentinel) (Some GenSentinel)]> sample_heap).

(** [one_tracked] after [dGC_root] on the object at 4096. *)
Definition one_rooted_twice : gc_store (N * N) :=
  GcStore
    (DyGc budget_allocator
       (DyObject 0 (Some (HeapObj 4096)) (Some (HeapObj 4096)))
       (DyObject 0 (Some (HeapObj 4096)) (Some (HeapObj 4096))))
    (<[4096 := DyObject 7 (Some RootSentinel) (Some RootSentinel)]> sample_heap).

(** The generation set holds 4160, 4128, 4096 in this order. *)
Definition three_tracked : gc_store (N * N) :=
  GcStore
    (DyGc budget_allocator
       (DyObject 0 (Some RootSentinel) (Some RootSentinel))
       (DyObject 0 (Some (HeapObj 4096)) (Some (HeapObj 4160))))
    (<[4096 := DyObject 7 (Some (HeapObj 4128)) (Some GenSentinel)]>
       (<[4128 := DyObject 7 (Some (HeapObj 4160)) (Some (HeapObj 4096))]>
          (<[4160 := DyObject 7 (Some GenSentinel) (Some (HeapObj 4128))]> ∅))).

(** The root set holds 4128, the generation set 4096. *)
Definition one_rooted : gc_store (N * N) :=
  GcStore
    (DyGc budget_allocator
       (DyObject 0 (Some (HeapObj 4128)) (Some (HeapObj 4128)))
       (DyObject 0 (Some (HeapObj 4096)) (Some (HeapObj 4096))))
    (<[4096 := DyObject 7 (Some GenSentinel) (Some GenSentinel)]>
       (<[4128 := DyObject 7 (Some RootSentinel) (Some RootSentinel)]> ∅)).

(** ** Well-formed symbol tables *)

#[global] Instance byte_eq_dec : EqDecision byte := Byte.byte_eq_dec.

(** What a lookup compares: stored hash, stored length, bytes. *)
Definition sym_key : Type := dy_hash_t * N * list byte.

Definition key_of (h : gmap addr dy_symbol) (a : addr) : option sym_key :=
  (λ sym, (sym_hash sym, sym_length sym, sym_name sym)) <$> h !! a.

(** [p] is the head of the [NULL]-terminated chain of the symbols [l],
    linked through [next_in_table]. *)
Fixpoint chain (h : gmap addr dy_symbol) (p : option addr) (l : list addr)
    : Prop :=
  match l with
  | [] => p = None
  | a :: l' =>
      p = Some a ∧
      ∃ sym, h !! a = Some sym ∧ chain h (next_in_table sym) l'
  end.

(** The test of the lookup loop on the symbol at [a]. *)
Definition matches (h : gmap addr dy_symbol)
    (name : list byte) (length : N) (hash : dy_hash_t) (a : addr) : Prop :=
  key_of h a = Some (hash, length, name).

#[global] Instance matches_dec h name length hash a :
  Decision (matches h name length hash a).
Proof. unfold matches. apply _. Defined.

(** The slot that holds the [k]-th symbol of a chain [l] whose head is in
    [sl]; for [k = length l] the slot that holds the terminating [NULL]. *)
Definition nth_slot (sl : slot) (l : list addr) (k : nat) : slot :=
  match k with
  | O => sl
  | S k' => from_option NextSlot sl (l !! k')
  end.

(** [chains !! i] is the chain of bucket [i].  Every symbol of the table is
    in exactly one chain, once; it is in the chain its hash selects; its
    stored length is the length of its name; no two symbols of the table
    have the same hash and name. *)
Record table_wf (s : sym_store) (chains : list (list addr)) : Prop := {
  wf_capacity : 0 < capacity (symbols s);
  wf_buckets :
    ∃ arr, buckets (symbols s) = Some arr ∧
           Forall2 (chain (symheap s)) (array_slots arr) chains;
  wf_length : length chains = N.to_nat (capacity (symbols s));
  wf_nodup : NoDup (concat chains);
  wf_key : ∀ i l a,
    chains !! i = Some l → a ∈ l →
    ∃ hs nm, key_of (symheap s) a = Some (hs, N.of_nat (length nm), nm) ∧
             N.to_nat (hs mod capacity (symbols s)) = i;
  wf_unique : ∀ a b,
    a ∈ concat chains → b ∈ concat chains →
    key_of (symheap s) a = key_of (symheap s) b → a = b
}.

(** The invariant of a table that is filled through [intern_symbol] with
    the hash function [hashf]: it is well formed, [count] is the number of
    its symbols, every stored hash is the hash of the name, and the
    capacity is in the range where the load-factor products are exact. *)
Record table_inv (hashf : list byte → dy_hash_t)
    (s : sym_store) (chains : list (list addr)) : Prop := {
  inv_wf : table_wf s chains;
  inv_count : count (symbols s) = N.of_nat (length (concat chains));
  inv_hash : ∀ a hs ln nm,
    a ∈ concat chains → key_of (symheap s) a = Some (hs, ln, nm) →
    hs = hashf nm;
  inv_capacity : capacity (symbols s) < 2 ^ 51
}.

(** The names of the symbols of the table. *)
Definition table_names (s : sym_store) (chains : list (list addr))
    : list (list byte) :=
  omap (λ a, sym_name <$> symheap s !! a) (concat chains).

(** [sl] is the slot of the table that holds the symbol [a]. *)
Definition slot_of (s : sym_store) (chains : list (list addr))
    (sl : slot) (a : addr) : Prop :=
  ∃ i l k, i < capacity (symbols s) ∧ chains !! N.to_nat i = Some l ∧
           l !! k = Some a ∧ sl = nth_slot (BucketSlot i) l k.

(** The documented contract for a request of no bytes with no block. *)
Definition refuses_empty_requests {UD} (allocator : dysl_allocator UD) : Prop :=
  ∀ ud old_size, fst (fn allocator ud None old_size 0) = None.

(** The allocator grants every request of [bytes] bytes. *)
Definition grants {UD} (allocator : dysl_allocator UD) (bytes : N) : Prop :=
  ∀ ud, fst (fn allocator ud None 0 bytes) ≠ None.

(** The chains after a rehash, on lists: every symbol of the old chains,
    bucket after bucket and front to back, is put on the front of the new
    chain its hash selects. *)
Definition push_front (idx : addr → nat) (a : addr)
    (chains : list (list addr)) : list (list addr) :=
  <[idx a := a :: default [] (chains !! idx a)]> chains.

Definition push_all (idx : addr → nat) (l : list addr)
    (chains : list (list addr)) : list (list addr) :=
  foldl (λ acc a, push_front idx a acc) chains l.

Definition hash_index (h : gmap addr dy_symbol) (new_capacity : N) (a : addr)
    : nat :=
  from_option (λ sym, N.to_nat (sym_hash sym mod new_capacity)) 0%nat (h !! a).

Definition rehashed (h : gmap addr dy_symbol) (new_capacity : N)
    (chains : list (list addr)) : list (list addr) :=
  push_all (hash_index h new_capacity) (concat chains)
    (replicate (N.to_nat new_capacity) []).

(** No symbol of the table has the name [nm] (with its hash under
    [hashf]). *)
Definition absent (hashf : list byte → dy_hash_t) (s : sym_store)
    (chains : list (list addr)) (nm : list byte) : Prop :=
  ∀ b, b ∈ concat chains →
       key_of (symheap s) b ≠ Some (hashf nm, N.of_nat (length nm), nm).

(** ** Sample tables and a second test allocator *)

(** An allocator that grants every request of at least one byte, handing
    out consecutive addresses; its state is the next free address. *)
Definition bump_fn : dysl_allocator_fn N :=
  λ ud ptr old_size new_size,
    match ptr with
    | None => if 0 <? new_size then (Some ud, ud + new_size) else (None, ud)
    | Some _ => (None, ud)
    end.

Definition bump_allocator : dysl_allocator N := {| fn := bump_fn |}.

(** A table with no symbol: [capacity] empty buckets. *)
Definition empty_table (base : addr) (capacity : N) : sym_store :=
  SymStore
    (DySymbols (Some (BucketArray base (replicate (N.to_nat capacity) None)))
       0 capacity)
    ∅.

(** The 4-byte name that spells [k] in base 256, and [n] such names with
    the addresses their symbols get. *)
Definition four_bytes (k : N) : list byte :=
  [x00; x00; default x00 (Byte.of_N (k / 256));
   default x00 (Byte.of_N (k mod 256))].

Definition sample_entries (n : nat) : list (addr * dy_object * list byte) :=
  (λ k, (65536 + 64 * N.of_nat k, blank_object, four_bytes (N.of_nat k)))
    <$> seq 0 n.

Definition name_foo : list byte := [x66; x6f; x6f].
Definition name_bar : list byte := [x62; x61; x72].

Definition entry_addr (e : addr * dy_object * list byte) : addr := e.1.1.
Definition entry_name (e : addr * dy_object * list byte) : list byte := e.2.

(** Some content for the block of [struct dy_global] before it is
    initialised. *)
Definition sample_global : dy_global (N * N) :=
  DyGlobal (DyGc budget_allocator blank_object blank_object)
    (DySymbols None 7 9) None.

(** The table of capacity 64 whose only symbol is "foo", at address 100. *)
Definition foo_table : sym_store :=
  SymStore
    (DySymbols
       (Some (BucketArray 4096 (<[23%nat := Some 100]> (replicate 64 None))))
       1 64)
    (<[100 := DySymbol blank_object None 3 2851307223 name_foo]> ∅).

(** ** Byte-wise memory utilities *)

(** [p[i]] for a [uint8_t* p]: the byte at address [p + i] of a memory
    given as the bytes at the addresses that may be accessed. *)
Definition load_byte (m : gmap addr byte) (p : option addr) (i : N) : res byte :=
  match p with
  | None => Fault NullDeref
  | Some a =>
      match m !! (a + i) with
      | Some b => Ok b
      | None => Fault InvalidPtr
      end
  end.

Definition store_byte (m : gmap addr byte) (p : option addr) (i : N) (b : byte)
    : res (gmap addr byte) :=
  match p with
  | None => Fault NullDeref
  | Some a =>
      match m !! (a + i) with
      | Some _ => Ok (<[a + i := b]> m)
      | None => Fault InvalidPtr
      end
  end.

(** [for (size_t i = 0; i < size; i++) p[i] = 0;] from index [i], [todo]
    iterations left. *)
Fixpoint dMem_clear_loop (todo : nat) (i : N) (p : option addr)
    (m : gmap addr byte) : res (gmap addr byte) :=
  match todo with
  | O => Ok m
  | S k => m1 ← store_byte m p i x00; dMem_clear_loop k (i + 1) p m1
  end.

Definition dMem_clear (ptr : option addr) (size : N) (m : gmap addr byte)
    : res (gmap addr byte) :=
  dMem_clear_loop (N.to_nat size) 0 ptr m.

(** [for (size_t i = 0; i < size; i++) d[i] = s[i];] *)
Fixpoint dMem_copy_loop (todo : nat) (i : N) (d s : option addr)
    (m : gmap addr byte) : res (gmap addr byte) :=
  match todo with
  | O => Ok m
  | S k =>
      b ← load_byte m s i;
      m1 ← store_byte m d i b;
      dMem_copy_loop k (i + 1) d s m1
  end.

Definition dMem_copy (dest src : option addr) (size : N) (m : gmap addr byte)
    : res (gmap addr byte) :=
  dMem_copy_loop (N.to_nat size) 0 dest src m.

(** The bytes at [a], [a + 1], ..., [a + n - 1] can all be accessed. *)
Definition accessible (m : gmap addr byte) (a : addr) (n : N) : Prop :=
  ∀ i, i < n → is_Some (m !! (a + i)).

(** ** The standard allocator

    [dysl_stdlib_allocator_fn] dispatches to [malloc], [free] and [realloc]
    of the C library.  These are not part of the source: they are
    parameters, acting on the state [Lib] of the library's heap.  The user
    data pointer and the old size are not used. *)
Section StandardAllocator.
Context {Lib : Type}.
Variable malloc : Lib → N → option addr * Lib.
Variable free : Lib → addr → Lib.
Variable realloc : Lib → addr → N → option addr * Lib.

Definition dysl_stdlib_allocator_fn : dysl_allocator_fn Lib :=
  λ h ptr _os ns,
    match ptr, 0 <? ns with
    | None, true => malloc h ns               (* allocate new block *)
    | Some p, false => (None, free h p)       (* free block *)
    | Some p, true => realloc h p ns          (* resize block *)
    | None, false => (None, h)                (* invalid case *)
    end.

Definition dysl_standard_allocator : dysl_allocator Lib :=
  {| fn := dysl_stdlib_allocator_fn |}.
End StandardAllocator.

(** ** Destruction of the interpreter context *)

Section Destroy.
Context {UD : Type}.

(** The blocks of [struct dysl] and of [struct dy_global] that are alive. *)
Record dysl_memory := DyslMemory {
  states : gmap addr dysl;
  globals : gmap addr (dy_global UD)
}.

(** [state->global] *)
Definition load_state (m : dysl_memory) (state : option addr) : res dysl :=
  match state with
  | None => Fault NullDeref
  | Some d =>
      match states m !! d with
      | Some st => Ok st
      | None => Fault InvalidPtr
      end
  end.

(** [*allocator] for [allocator = &G->gc.allocator]: the allocator is the
    first member of the block of [G] and is read from that block. *)
Definition load_allocator (m : dysl_memory) (G : option addr)
    : res (dysl_allocator UD) :=
  match G with
  | None => Fault NullDeref
  | Some g =>
      match globals m !! g with
      | Some gl => Ok (allocator (global_gc gl))
      | None => Fault InvalidPtr
      end
  end.

(** A block handed back to the allocator is not alive any more. *)
Definition release (ptr : option addr) (m : dysl_memory) : dysl_memory :=
  match ptr with
  | None => m
  | Some p => DyslMemory (delete p (states m)) (delete p (globals m))
  end.

(** [dAlloc_free(allocator, ptr)] where [allocator] points into the block
    of [G]: [allocator->fn] and [allocator->user_data] are read, then the
    function is called. *)
Definition dAlloc_free_at (G ptr : option addr) (m : dysl_memory)
    (al : alloc_state UD) : res (dysl_memory * alloc_state UD) :=
  allocator ← load_allocator m G;
  let '(_, al1) := dAlloc_free allocator ptr al in
  Ok (release ptr m, al1).

(** [allocator = &state->global->gc.allocator;
     dAlloc_free(allocator, state->global); dAlloc_free(allocator, state);] *)
Definition dysl_destroy (state : option addr) (m : dysl_memory)
    (al : alloc_state UD) : res (dysl_memory * alloc_state UD) :=
  st ← load_state m state;
  let allocator := global st in
  st1 ← load_state m state;
  '(m1, al1) ← dAlloc_free_at allocator (global st1) m al;
  dAlloc_free_at allocator state m1 al1.

(** The memory right after a successful [dysl_new]. *)
Definition instance_memory (D : dysl_instance UD) : dysl_memory :=
  DyslMemory {[instance_addr D := instance_state D]}
    (match global (instance_state D) with
     | Some g => {[g := instance_global D]}
     | None => ∅
     end).
End Destroy.
Arguments dysl_memory : clear implicits.

(** ** The command-line driver *)

(** How one turn of the argument loop ends. *)
Inductive control (A : Type) : Type :=
| Return (x : A)
| Break
| Continue.
Arguments Return {A} x.
Arguments Break {A}.
Arguments Continue {A}.

Section CommandLine.
Import Stdlib.Strings.Ascii Stdlib.Strings.String.
Local Open Scope string_scope.
Context {Lib : Type}.
Variable malloc : Lib → N → option addr * Lib.
Variable free : Lib → addr → Lib.
Variable realloc : Lib → addr → N → option addr * Lib.
(** The indeterminate content of the blocks [dysl_new] obtains. *)
Variable junk : nat → option addr.
Variable junk_global : dy_global Lib.

Definition newline : string := String (Ascii.ascii_of_nat 10) EmptyString.

Definition DYSL_VERSION_STRING : string := "0.1.0".

(** The text written by each [printf], in order.  [program_name] is
    [argv[0]], which is [NULL] when [argc] is 0. *)
Definition usage (program_name : option string) : res (list string) :=
  match program_name with
  | None => Fault NullDeref
  | Some name =>
      Ok ["Usage: " ++ name ++ " [options] [script]" ++ newline;
          "Options:" ++ newline;
          "  -h, --help      Show this help message and exit" ++ newline;
          "  -v, --version   Show version information and exit" ++ newline]
  end.

Definition version : list string :=
  ["dysl version " ++ DYSL_VERSION_STRING ++ newline].

(** [arg[0] == '-'] *)
Definition starts_with_dash (arg : string) : bool :=
  match arg with
  | String c _ => Ascii.eqb c "-"%char
  | EmptyString => false
  end.

Definition main_loop_body (program_name : option string) (arg : string)
    : res (control (list string * N)) :=
  if (arg =? "-h") || (arg =? "--help") then
    out ← usage program_name; Ok (Return (out, 0%N))
  else if (arg =? "-v") || (arg =? "--version") then
    Ok (Return (version, 0%N))
  else if starts_with_dash arg then
    out ← usage program_name;
    Ok (Return (("Unknown option: " ++ arg ++ newline) :: out, 1%N))
  else
    (* assume it's the script file *)
    Ok Break.

(** [for (arg_index = 1; arg_index < argc; arg_index++)] over the arguments
    [args] that are left; the result is the value returned from inside the
    loop or the index at which the loop was left. *)
Fixpoint main_loop (program_name : option string) (args : list string)
    (arg_index : nat) : res (list string * N + nat) :=
  match args with
  | [] => Ok (inr arg_index)
  | arg :: args' =>
      c ← main_loop_body program_name arg;
      match c with
      | Return r => Ok (inl r)
      | Break => Ok (inr arg_index)
      | Continue => main_loop program_name args' (S arg_index)
      end
  end.

(** The result of [main]: what was printed, the exit status and the state
    of the C library's heap. *)
Definition main (argv : list string) (h : Lib)
    : res (list string * N * Lib) :=
  let program_name := argv !! 0%nat in
  r ← main_loop program_name (drop 1 argv) 1;
  match r with
  | inl (out, status) => Ok (out, status, h)
  | inr arg_index =>
      (* if a script file is provided, use it *)
      let file_name := argv !! arg_index in
      match file_name with
      | None =>
          out ← usage program_name;
          Ok (("No script file provided." ++ newline) :: out, 1%N, h)
      | Some _ =>
          '(D, al) ← dysl_new junk junk_global
                       (dysl_standard_allocator malloc free realloc)
                       (AllocState h []);
          match D with
          | None =>
              Ok (["Failed to create dysl interpreter." ++ newline], 1%N,
                  user_data al)
          | Some inst =>
              '(_, al1) ← dysl_destroy (Some (instance_addr inst))
                            (instance_memory inst) al;
              Ok ([], 0%N, user_data al1)
          end
      end
  end.
End CommandLine.

(** ** More sample states *)

(** The object at 4096 is in neither set and is closed. *)
Definition one_closed : gc_store (N * N) :=
  GcStore
    (DyGc budget_allocator
       (DyObject 0 (Some RootSentinel) (Some RootSentinel))
       (DyObject 0 (Some GenSentinel) (Some GenSentinel)))
    (<[4096 := DyObject 7 (Some (HeapObj 4096)) (Some (HeapObj 4096))]>
       sample_heap).

(** Eight bytes, 1 to 8, at the addresses 100 to 107. *)
Definition sample_bytes : gmap addr byte :=
  list_to_map [(100, x01); (101, x02); (102, x03); (103, x04);
               (104, x05); (105, x06); (106, x07); (107, x08)].


(** A C library that has no memory to give. *)
Definition no_malloc : unit → N → option addr * unit := λ h _, (None, h).
Definition no_free : unit → addr → unit := λ h _, h.
Definition no_realloc : unit → addr → N → option addr * unit :=
  λ h _ _, (None, h).
Definition unit_global : dy_global unit :=
  DyGlobal
    (DyGc (dysl_standard_allocator no_malloc no_free no_realloc)
       blank_object blank_object)
    (DySymbols None 0 0) None.

(** ** Auxiliary notions used in the proofs *)

Section Frames.
Context {UD : Type}.
Implicit Types s : gc_store UD.

(** [s'] agrees with [s] on the [next] field outside [N], on the
    [previous] field outside [P], on every tag and on the allocator. *)
Record same_but s s' (N P : objref → Prop) : Prop := {
  sb_next y : ¬ N y → get_next s' (Some y) = get_next s (Some y);
  sb_previous y : ¬ P y → get_previous s' (Some y) = get_previous s (Some y);
  sb_tag y : get_tag s' (Some y) = get_tag s (Some y);
  sb_allocator : allocator (gc s') = allocator (gc s)
}.
End Frames.

Definition is_sentinel (h : objref) : Prop := ∀ a, h ≠ HeapObj a.

(** [idx a] is the bucket the stored hash of [a] selects in an array of
    [new_capacity] entries. *)
Definition indexed (new_capacity : N) (idx : addr → nat)
    (h : gmap addr dy_symbol) (a : addr) : Prop :=
  ∃ sym, h !! a = Some sym ∧ idx a = N.to_nat (sym_hash sym mod new_capacity).

(** * Properties *)

#[local] Set Warnings "-clear-no-such-hyp".

Lemma res_bind_Ok {A B} (f : A → res B) (m : res A) (y : B) :
  m ≫= f = Ok y ↔ ∃ x, m = Ok x ∧ f x = Ok y.
Proof.
  destruct m as [x|e]; simpl.
  - split; [eauto | intros (? & [= <-] & ?); done].
  - split; [done | intros (? & ? & ?); done].
Qed.

Section TrackingFacts.
Context {UD : Type}.
Implicit Types s : gc_store UD.
Implicit Types x y z : objref.

(** *** Reading after writing *)

Lemma load_store s x o s' y :
  store s (Some x) o = Ok s' →
  load s' (Some y) = if decide (y = x) then Ok o else load s (Some y).
Proof.
  destruct x as [| |a]; simpl.
  - intros [= <-]. by destruct y.
  - intros [= <-]. by destruct y.
  - destruct (heap s !! a) eqn:Ha; [|done]. intros [= <-].
    destruct y as [| |b]; [done..|]. simpl.
    case_decide as Hb.
    + injection Hb as ->. by rewrite lookup_insert_eq.
    + rewrite lookup_insert_ne; [done | congruence].
Qed.

Lemma store_valid s x o o' :
  load s (Some x) = Ok o → ∃ s', store s (Some x) o' = Ok s'.
Proof.
  destruct x as [| |a]; simpl; eauto.
  destruct (heap s !! a); [eauto | done].
Qed.

Lemma store_allocator s p o s' :
  store s p o = Ok s' → allocator (gc s') = allocator (gc s).
Proof.
  destruct p as [[| |a]|]; simpl; try (by intros [= <-]).
  destruct (heap s !! a); [by intros [= <-] | done].
Qed.

Lemma valid_get_tag s x : valid s x ↔ ∃ t, get_tag s (Some x) = Ok t.
Proof.
  unfold valid, get_tag. split.
  - intros [o ->]. simpl. eauto.
  - intros [t Ht]. destruct (load s (Some x)); [eauto | done].
Qed.

Lemma get_next_valid s x v : get_next s (Some x) = Ok v → valid s x.
Proof. unfold get_next, valid. destruct (load s (Some x)); [eauto | done]. Qed.

Lemma get_previous_valid s x v : get_previous s (Some x) = Ok v → valid s x.
Proof. unfold get_previous, valid. destruct (load s (Some x)); [eauto | done]. Qed.

Lemma set_next_Ok s x v :
  valid s x →
  ∃ s', set_next (Some x) v s = Ok s' ∧
        get_next s' (Some x) = Ok v ∧
        same_but s s' (λ y, y = x) (λ _, False).
Proof.
  intros [o Ho]. unfold set_next. rewrite Ho. simpl.
  destruct (store_valid s x o (DyObject (tag o) (previous o) v) Ho) as [s' Hs'].
  exists s'. split; [done|].
  pose proof (load_store _ _ _ _ x Hs') as Hx. rewrite decide_True in Hx by done.
  split; [by unfold get_next; rewrite Hx|].
  split.
  - intros y Hy. unfold get_next.
    rewrite (load_store _ _ _ _ y Hs'), decide_False by done. done.
  - intros y _. unfold get_previous. rewrite (load_store _ _ _ _ y Hs').
    case_decide as E; [subst; by rewrite Ho | done].
  - intros y. unfold get_tag. rewrite (load_store _ _ _ _ y Hs').
    case_decide as E; [subst; by rewrite Ho | done].
  - by eapply store_allocator.
Qed.

Lemma set_previous_Ok s x v :
  valid s x →
  ∃ s', set_previous (Some x) v s = Ok s' ∧
        get_previous s' (Some x) = Ok v ∧
        same_but s s' (λ _, False) (λ y, y = x).
Proof.
  intros [o Ho]. unfold set_previous. rewrite Ho. simpl.
  destruct (store_valid s x o (DyObject (tag o) v (next o)) Ho) as [s' Hs'].
  exists s'. split; [done|].
  pose proof (load_store _ _ _ _ x Hs') as Hx. rewrite decide_True in Hx by done.
  split; [by unfold get_previous; rewrite Hx|].
  split.
  - intros y _. unfold get_next. rewrite (load_store _ _ _ _ y Hs').
    case_decide as E; [subst; by rewrite Ho | done].
  - intros y Hy. unfold get_previous.
    rewrite (load_store _ _ _ _ y Hs'), decide_False by done. done.
  - intros y. unfold get_tag. rewrite (load_store _ _ _ _ y Hs').
    case_decide as E; [subst; by rewrite Ho | done].
  - by eapply store_allocator.
Qed.

Lemma set_tag_Ok s x t :
  valid s x →
  ∃ s', set_tag (Some x) t s = Ok s' ∧
        get_tag s' (Some x) = Ok t ∧
        (∀ y, get_next s' (Some y) = get_next s (Some y)) ∧
        (∀ y, get_previous s' (Some y) = get_previous s (Some y)) ∧
        (∀ y, y ≠ x → get_tag s' (Some y) = get_tag s (Some y)) ∧
        allocator (gc s') = allocator (gc s).
Proof.
  intros [o Ho]. unfold set_tag. rewrite Ho. simpl.
  destruct (store_valid s x o (DyObject t (previous o) (next o)) Ho) as [s' Hs'].
  exists s'. split; [done|].
  pose proof (load_store _ _ _ _ x Hs') as Hx. rewrite decide_True in Hx by done.
  split; [by unfold get_tag; rewrite Hx|].
  repeat split.
  - intros y. unfold get_next. rewrite (load_store _ _ _ _ y Hs').
    case_decide as E; [subst; by rewrite Ho | done].
  - intros y. unfold get_previous. rewrite (load_store _ _ _ _ y Hs').
    case_decide as E; [subst; by rewrite Ho | done].
  - intros y Hy. unfold get_tag.
    rewrite (load_store _ _ _ _ y Hs'), decide_False by done. done.
  - by eapply store_allocator.
Qed.

Lemma same_but_valid s s' N P y : same_but s s' N P → valid s' y ↔ valid s y.
Proof. intros H. rewrite !valid_get_tag. by rewrite (sb_tag _ _ _ _ H). Qed.

Lemma same_but_trans s1 s2 s3 (N1 P1 N2 P2 N P : objref → Prop) :
  same_but s1 s2 N1 P1 → same_but s2 s3 N2 P2 →
  (∀ y, N1 y ∨ N2 y → N y) → (∀ y, P1 y ∨ P2 y → P y) →
  same_but s1 s3 N P.
Proof.
  intros H1 H2 HN HP. split.
  - intros y Hy. rewrite (sb_next _ _ _ _ H2), (sb_next _ _ _ _ H1); eauto.
  - intros y Hy. rewrite (sb_previous _ _ _ _ H2), (sb_previous _ _ _ _ H1); eauto.
  - intros y. by rewrite (sb_tag _ _ _ _ H2), (sb_tag _ _ _ _ H1).
  - by rewrite (sb_allocator _ _ _ _ H2), (sb_allocator _ _ _ _ H1).
Qed.

Local Ltac sb_side := simpl; intuition congruence.

(** *** The three list primitives, field by field *)

Lemma dObj_close_Ok s x :
  valid s x →
  ∃ s', dObj_close (Some x) s = Ok s' ∧
        closed s' x ∧
        same_but s s' (λ y, y = x) (λ y, y = x).
Proof.
  intros Hx. unfold dObj_close.
  destruct (set_next_Ok s x (Some x) Hx) as (s1 & -> & Hn1 & F1). simpl.
  assert (valid s1 x) as Hx1 by by apply (same_but_valid _ _ _ _ _ F1).
  destruct (set_previous_Ok s1 x (Some x) Hx1) as (s2 & -> & Hp2 & F2).
  exists s2. split; [done|]. split.
  - split; [|done]. rewrite (sb_next _ _ _ _ F2); sb_side.
  - eapply same_but_trans; [exact F1|exact F2| |]; sb_side.
Qed.

Lemma dObj_link_Ok s obj lst n :
  obj ≠ lst → obj ≠ n → valid s obj →
  get_next s (Some lst) = Ok (Some n) → valid s n →
  ∃ s', dObj_link (Some obj) (Some lst) s = Ok s' ∧
        linked s' lst obj ∧ linked s' obj n ∧
        same_but s s' (λ y, y = lst ∨ y = obj) (λ y, y = n ∨ y = obj).
Proof.
  intros Hol Hon Hobj Hln Hn. unfold dObj_link. rewrite Hln. simpl.
  destruct (set_next_Ok s obj (Some n) Hobj) as (s1 & -> & Hn1 & F1). simpl.
  assert (valid s1 obj) as Hobj1 by by apply (same_but_valid _ _ _ _ _ F1).
  destruct (set_previous_Ok s1 obj (Some lst) Hobj1) as (s2 & -> & Hp2 & F2).
  simpl.
  assert (get_next s2 (Some lst) = Ok (Some n)) as ->.
  { rewrite (sb_next _ _ _ _ F2), (sb_next _ _ _ _ F1); sb_side. }
  simpl.
  assert (valid s2 n) as Hn2.
  { by apply (same_but_valid _ _ _ _ _ F2), (same_but_valid _ _ _ _ _ F1). }
  destruct (set_previous_Ok s2 n (Some obj) Hn2) as (s3 & -> & Hp3 & F3).
  simpl.
  assert (valid s3 lst) as Hl3.
  { apply (same_but_valid _ _ _ _ _ F3), (same_but_valid _ _ _ _ _ F2),
      (same_but_valid _ _ _ _ _ F1). by eapply get_next_valid. }
  destruct (set_next_Ok s3 lst (Some obj) Hl3) as (s4 & -> & Hn4 & F4).
  exists s4. split; [done|]. split; [|split].
  - split; [done|].
    rewrite (sb_previous _ _ _ _ F4), (sb_previous _ _ _ _ F3); sb_side.
  - split.
    + rewrite (sb_next _ _ _ _ F4), (sb_next _ _ _ _ F3), (sb_next _ _ _ _ F2);
        sb_side.
    + rewrite (sb_previous _ _ _ _ F4); sb_side.
  - eapply same_but_trans; [|exact F4| |].
    + eapply same_but_trans; [|exact F3| |].
      * eapply same_but_trans; [exact F1|exact F2| |]; intros y Hy; exact Hy.
      * intros y Hy; exact Hy.
      * intros y Hy; exact Hy.
    + sb_side.
    + sb_side.
Qed.

Lemma dObj_unlink_Ok s obj p n :
  p ≠ obj → n ≠ obj →
  get_previous s (Some obj) = Ok (Some p) → get_next s (Some obj) = Ok (Some n) →
  valid s p → valid s n →
  ∃ s', dObj_unlink (Some obj) s = Ok s' ∧
        linked s' p n ∧ closed s' obj ∧
        same_but s s' (λ y, y = p ∨ y = obj) (λ y, y = n ∨ y = obj).
Proof.
  intros Hp Hn Hprev Hnext Hvp Hvn. unfold dObj_unlink.
  rewrite Hprev, Hnext. simpl.
  destruct (set_next_Ok s p (Some n) Hvp) as (s1 & -> & Hn1 & F1). simpl.
  assert (get_next s1 (Some obj) = Ok (Some n)) as ->.
  { rewrite (sb_next _ _ _ _ F1); sb_side. }
  assert (get_previous s1 (Some obj) = Ok (Some p)) as ->.
  { rewrite (sb_previous _ _ _ _ F1); sb_side. }
  simpl.
  assert (valid s1 n) as Hvn1 by by apply (same_but_valid _ _ _ _ _ F1).
  destruct (set_previous_Ok s1 n (Some p) Hvn1) as (s2 & -> & Hp2 & F2). simpl.
  assert (valid s2 obj) as Hvo2.
  { apply (same_but_valid _ _ _ _ _ F2), (same_but_valid _ _ _ _ _ F1).
    by eapply get_next_valid. }
  destruct (dObj_close_Ok s2 obj Hvo2) as (s3 & -> & Hc & F3).
  exists s3. split; [done|]. split; [|split; [done|]].
  - split.
    + rewrite (sb_next _ _ _ _ F3), (sb_next _ _ _ _ F2); sb_side.
    + rewrite (sb_previous _ _ _ _ F3); sb_side.
  - eapply same_but_trans; [|exact F3| |].
    + eapply same_but_trans; [exact F1|exact F2| |]; intros y Hy; exact Hy.
    + sb_side.
    + sb_side.
Qed.

(** *** Paths *)

Lemma path_cons s x y l : path s (x :: y :: l) ↔ linked s x y ∧ path s (y :: l).
Proof. done. Qed.

Lemma path_app s l1 l2 : path s (l1 ++ l2) → path s l1 ∧ path s l2.
Proof.
  induction l1 as [|x l1 IH]; [done|].
  destruct l1 as [|y l1]; simpl.
  - destruct l2; simpl; tauto.
  - intros [Hxy H]. specialize (IH H). simpl in IH. tauto.
Qed.

Lemma path_join s l1 l2 p n :
  last l1 = Some p → head l2 = Some n →
  path s l1 → linked s p n → path s l2 → path s (l1 ++ l2).
Proof.
  intros Hp Hn H1 Hpn H2.
  destruct l2 as [|n' l2]; [done|]. injection Hn as ->.
  induction l1 as [|x l1 IH]; [done|].
  destruct l1 as [|y l1]; simpl in *.
  - injection Hp as ->. done.
  - destruct H1 as [Hxy H1]. split; [done|]. by apply IH.
Qed.

Lemma path_mid s l1 a l2 p n :
  last l1 = Some p → head l2 = Some n →
  path s (l1 ++ a :: l2) → linked s p a ∧ linked s a n.
Proof.
  intros Hp Hn H.
  destruct l2 as [|n' l2]; [done|]. injection Hn as ->.
  induction l1 as [|x l1 IH]; [done|].
  destruct l1 as [|y l1]; simpl in *.
  - injection Hp as ->. tauto.
  - apply IH; tauto.
Qed.

Lemma path_frame s s' l :
  path s l →
  (∀ x, x ∈ removelast l → get_next s' (Some x) = get_next s (Some x)) →
  (∀ y, y ∈ tail l → get_previous s' (Some y) = get_previous s (Some y)) →
  path s' l.
Proof.
  induction l as [|x l IH]; [done|].
  destruct l as [|y l]; [done|].
  intros [[Hn Hp] H] HN HP. split.
  - split.
    + rewrite HN; [done|]. simpl. left.
    + rewrite HP; [done|]. simpl. left.
  - apply IH; [done| |].
    + intros z Hz. apply HN. change (z ∈ x :: removelast (y :: l)). by right.
    + intros z Hz. apply HP. simpl. by right.
Qed.

Lemma last_not_in_removelast {A} (l : list A) (p : A) :
  NoDup l → last l = Some p → p ∉ removelast l.
Proof.
  intros Hnd [l' ->]%last_Some. rewrite removelast_last.
  apply NoDup_app in Hnd as (_ & Hd & _). intros Hin. apply (Hd _ Hin). left.
Qed.

Lemma head_not_in_tail {A} (l : list A) (n : A) :
  NoDup l → head l = Some n → n ∉ tail l.
Proof. destruct l; [done|]. intros Hnd [= ->]. by apply NoDup_cons in Hnd as []. Qed.

Lemma elem_of_removelast {A} (l : list A) (e : A) : e ∈ removelast l → e ∈ l.
Proof.
  destruct l as [|e0 l0]; [done|].
  intros He. rewrite (app_removelast_last e (l := e0 :: l0)) by done.
  apply elem_of_app. by left.
Qed.

Lemma elem_of_tail {A} (l : list A) (e : A) : e ∈ tail l → e ∈ l.
Proof. destruct l; [done|]. simpl. by right. Qed.

(** *** The lists of the two sentinels *)

#[local] Instance HeapObj_inj : Inj (=) (=) HeapObj.
Proof. by intros ?? [=]. Qed.

Lemma sentinel_not_in h (l : list addr) : is_sentinel h → h ∉ HeapObj <$> l.
Proof. intros Hh (a & -> & _)%list_elem_of_fmap. by apply (Hh a). Qed.

Lemma NoDup_heap_objs (l : list addr) : NoDup l → NoDup (HeapObj <$> l).
Proof. apply NoDup_fmap_2, _. Qed.

Lemma elem_of_heap_objs a (l : list addr) : HeapObj a ∈ HeapObj <$> l ↔ a ∈ l.
Proof. apply (list_elem_of_fmap_inj HeapObj). Qed.

Lemma dlist_frame s s' h l (N P : objref → Prop) :
  dlist s h l → same_but s s' N P →
  (∀ y, y = h ∨ y ∈ HeapObj <$> l → ¬ N y ∧ ¬ P y) →
  dlist s' h l.
Proof.
  unfold dlist. intros H F Hd. eapply path_frame; [done| |].
  - intros x Hx%elem_of_removelast. apply (sb_next _ _ _ _ F).
    apply Hd. change (x ∈ (h :: (HeapObj <$> l)) ++ [h]) in Hx.
    set_solver.
  - intros y Hy. simpl in Hy. apply (sb_previous _ _ _ _ F). apply Hd.
    set_solver.
Qed.

Lemma dlist_valid s h l y : dlist s h l → y = h ∨ y ∈ HeapObj <$> l → valid s y.
Proof.
  unfold dlist. intros H Hy.
  assert (y ∈ h :: (HeapObj <$> l)) as Hy' by set_solver.
  apply list_elem_of_split in Hy' as (l1 & l2 & E).
  change (path s ((h :: (HeapObj <$> l)) ++ [h])) in H. rewrite E in H.
  rewrite <- app_assoc in H. simpl in H.
  apply path_app in H as [_ H].
  destruct (l2 ++ [h]) as [|z l3] eqn:E2; [by destruct l2|].
  destruct H as [[H _] _]. by eapply get_next_valid.
Qed.

(** Inserting a new object right after the sentinel. *)
Lemma dlist_link s h l a :
  is_sentinel h → dlist s h l → NoDup l → a ∉ l → valid s (HeapObj a) →
  ∃ s', dObj_link (Some (HeapObj a)) (Some h) s = Ok s' ∧
        dlist s' h (a :: l) ∧
        same_but s s'
          (λ y, y = h ∨ y = HeapObj a ∨ y ∈ HeapObj <$> l)
          (λ y, y = h ∨ y = HeapObj a ∨ y ∈ HeapObj <$> l).
Proof.
  intros Hh Hl Hnd Ha Hva. unfold dlist in Hl.
  assert (h ∉ HeapObj <$> l) as HhL by by apply sentinel_not_in.
  assert (HeapObj a ∉ HeapObj <$> l) as HaL by by rewrite elem_of_heap_objs.
  apply NoDup_heap_objs in Hnd.
  set (L := HeapObj <$> l) in *.
  assert (NoDup (L ++ [h])) as HndY.
  { apply NoDup_app. split; [done|]. split; [|apply NoDup_singleton].
    intros x Hx ->%list_elem_of_singleton. done. }
  destruct (L ++ [h]) as [|n Y'] eqn:EY; [by destruct L|].
  assert (n = h ∨ n ∈ L) as Hn.
  { assert (n ∈ L ++ [h]) as Hin by (rewrite EY; left). set_solver. }
  destruct Hl as [[Hhn Hnh] HY].
  assert (HeapObj a ≠ h) as Hah by (intros E; by apply (Hh a)).
  assert (HeapObj a ≠ n) as Han by (intros <-; destruct Hn; [done|done]).
  destruct (dObj_link_Ok s (HeapObj a) h n Hah Han Hva Hhn
              ltac:(by eapply get_previous_valid)) as (s' & Hs' & L1 & L2 & F).
  exists s'. split; [done|]. split.
  - unfold dlist. rewrite fmap_cons. fold L. simpl. rewrite EY.
    split; [done|]. split; [done|].
    eapply path_frame; [done| |].
    + intros x Hx. apply (sb_next _ _ _ _ F).
      assert (x ∈ L) as HxL.
      { rewrite <- (removelast_last L h). by rewrite EY. }
      intros [->| ->]; done.
    + intros y Hy. apply (sb_previous _ _ _ _ F).
      assert (n ∉ Y') as HnY by by apply NoDup_cons in HndY as [].
      assert (y ∈ L ++ [h]) as Hy' by (rewrite EY; by right).
      intros [->| ->]; [done|]. set_solver.
  - split.
    + intros y Hy. apply (sb_next _ _ _ _ F). tauto.
    + intros y Hy. apply (sb_previous _ _ _ _ F).
      intros [->| ->]; [|tauto]. destruct Hn as [->|?]; tauto.
    + apply (sb_tag _ _ _ _ F).
    + apply (sb_allocator _ _ _ _ F).
Qed.

(** Removing an object from the list it is in. *)
Lemma dlist_unlink s h l1 a l2 :
  is_sentinel h → dlist s h (l1 ++ a :: l2) → NoDup (l1 ++ a :: l2) →
  ∃ s', dObj_unlink (Some (HeapObj a)) s = Ok s' ∧
        dlist s' h (l1 ++ l2) ∧ closed s' (HeapObj a) ∧
        same_but s s'
          (λ y, y = h ∨ y ∈ HeapObj <$> (l1 ++ a :: l2))
          (λ y, y = h ∨ y ∈ HeapObj <$> (l1 ++ a :: l2)).
Proof.
  intros Hh Hl Hnd. unfold dlist in Hl.
  rewrite fmap_app, fmap_cons in Hl.
  set (L1 := HeapObj <$> l1) in *. set (L2 := HeapObj <$> l2) in *.
  set (A := HeapObj a) in *.
  assert (NoDup (L1 ++ A :: L2)) as HndL.
  { unfold L1, L2, A. rewrite <- fmap_cons, <- fmap_app. by apply NoDup_heap_objs. }
  assert (h ∉ L1 ++ A :: L2) as HhL.
  { unfold L1, L2, A. rewrite <- fmap_cons, <- fmap_app. by apply sentinel_not_in. }
  apply NoDup_app in HndL as (Hnd1 & Hd12 & [HA2 Hnd2]%NoDup_cons).
  assert (A ∉ L1) as HA1 by (intros ?; apply (Hd12 A); [done|left]).
  assert (A ≠ h) as HAh by (intros <-; apply HhL; set_solver).
  set (X := h :: L1). set (Y := L2 ++ [h]).
  assert (NoDup X) as HndX.
  { apply NoDup_cons. split; [set_solver | done]. }
  assert (NoDup Y) as HndY.
  { apply NoDup_app. split; [done|]. split; [|apply NoDup_singleton].
    intros x Hx ->%list_elem_of_singleton. set_solver. }
  assert (path s (X ++ A :: Y)) as HP.
  { unfold X, Y. rewrite <- app_assoc in Hl. exact Hl. }
  assert (∃ p, last X = Some p) as [p Hp].
  { destruct (last X) eqn:E; [eauto|]. by apply last_None in E. }
  assert (∃ n, head Y = Some n) as [n Hn].
  { unfold Y. destruct L2; simpl; eauto. }
  assert (p ∈ X) as HpX.
  { apply last_Some in Hp as [? ->]. set_solver. }
  assert (n ∈ Y) as HnY by by apply head_Some_elem_of.
  destruct (path_mid _ _ _ _ _ _ Hp Hn HP) as [[HpA HAp] [HAn HnA]].
  assert (p ≠ A) as HpA' by (intros ->; set_solver).
  assert (n ≠ A) as HnA' by (intros ->; set_solver).
  destruct (dObj_unlink_Ok s A p n HpA' HnA' HAp HAn
              ltac:(by eapply get_next_valid)
              ltac:(by eapply get_previous_valid)) as (s' & Hs' & Lpn & Hc & F).
  exists s'. split; [done|]. split; [|split; [done|]].
  - unfold dlist. rewrite fmap_app. fold L1 L2.
    rewrite <- app_assoc. change (path s' (X ++ Y)).
    apply path_app in HP as [HX HY].
    change (A :: Y) with ([A] ++ Y) in HY. apply path_app in HY as [_ HY].
    eapply path_join; [done..| |done|].
    + eapply path_frame; [done| |].
      * intros x Hx. apply (sb_next _ _ _ _ F).
        intros [->| ->].
        -- exact (last_not_in_removelast X p HndX Hp Hx).
        -- apply elem_of_removelast in Hx. set_solver.
      * intros y Hy. simpl in Hy. apply (sb_previous _ _ _ _ F).
        intros [->| ->]; [|done]. set_solver.
    + eapply path_frame; [done| |].
      * intros x Hx. unfold Y in Hx. rewrite removelast_last in Hx.
        apply (sb_next _ _ _ _ F). intros [->| ->]; [|done]. set_solver.
      * intros y Hy. apply (sb_previous _ _ _ _ F).
        intros [->| ->].
        -- exact (head_not_in_tail Y n HndY Hn Hy).
        -- apply elem_of_tail in Hy. set_solver.
  - rewrite fmap_app, fmap_cons. fold L1 L2 A. split.
    + intros y Hy. apply (sb_next _ _ _ _ F). intros [->| ->]; set_solver.
    + intros y Hy. apply (sb_previous _ _ _ _ F). intros [->| ->]; set_solver.
    + apply (sb_tag _ _ _ _ F).
    + apply (sb_allocator _ _ _ _ F).
Qed.
End TrackingFacts.

Section TrackingSteps.
Context {UD : Type}.
Implicit Types s : gc_store UD.
Implicit Types x y z : objref.

Lemma root_is_sentinel : is_sentinel RootSentinel.
Proof. by intros a. Qed.
Lemma gen_is_sentinel : is_sentinel GenSentinel.
Proof. by intros a. Qed.

Lemma same_but_tags s s' (N P : objref → Prop) : same_but s s' N P → tags_kept s s'.
Proof. intros F y. apply (sb_tag _ _ _ _ F). Qed.

(** Two lists with different sentinels and no common object: linking into
    one, or unlinking from one, leaves the other as it is. *)
Lemma pair_link s h1 l1 h2 l2 a :
  is_sentinel h1 → is_sentinel h2 → h1 ≠ h2 →
  dlist s h1 l1 → dlist s h2 l2 → NoDup (l1 ++ l2) →
  a ∉ l1 ++ l2 → valid s (HeapObj a) →
  ∃ s', dObj_link (Some (HeapObj a)) (Some h1) s = Ok s' ∧
        dlist s' h1 (a :: l1) ∧ dlist s' h2 l2 ∧
        tags_kept s s' ∧ allocator (gc s') = allocator (gc s).
Proof.
  intros Hh1 Hh2 Hne H1 H2 Hnd Ha Hva.
  apply NoDup_app in Hnd as (Hnd1 & Hd & Hnd2).
  destruct (dlist_link s h1 l1 a Hh1 H1 Hnd1 ltac:(set_solver) Hva)
    as (s' & Hs' & H1' & F).
  exists s'. split; [done|]. split; [done|]. split; [|split].
  - eapply dlist_frame; [done..|].
    assert (∀ y, y ∈ HeapObj <$> l2 → y ≠ h1 ∧ y ≠ HeapObj a ∧ y ∉ HeapObj <$> l1)
      as Hl2.
    { intros y (b & -> & Hb)%list_elem_of_fmap. split; [by intros <-; apply (Hh1 b)|].
      split; [intros [= ->]; set_solver|]. rewrite elem_of_heap_objs.
      intros ?. by apply (Hd b). }
    intros y [->|Hy].
    + assert (h2 ∉ HeapObj <$> l1) by by apply sentinel_not_in.
      assert (h2 ≠ HeapObj a) by apply Hh2. intuition congruence.
    + destruct (Hl2 y Hy) as (? & ? & ?). intuition congruence.
  - by eapply same_but_tags.
  - apply (sb_allocator _ _ _ _ F).
Qed.

Lemma pair_unlink s h1 k1 a k2 h2 l2 :
  is_sentinel h1 → is_sentinel h2 → h1 ≠ h2 →
  dlist s h1 (k1 ++ a :: k2) → dlist s h2 l2 → NoDup ((k1 ++ a :: k2) ++ l2) →
  ∃ s', dObj_unlink (Some (HeapObj a)) s = Ok s' ∧
        dlist s' h1 (k1 ++ k2) ∧ dlist s' h2 l2 ∧ closed s' (HeapObj a) ∧
        tags_kept s s' ∧ allocator (gc s') = allocator (gc s).
Proof.
  intros Hh1 Hh2 Hne H1 H2 Hnd.
  apply NoDup_app in Hnd as (Hnd1 & Hd & Hnd2).
  destruct (dlist_unlink s h1 k1 a k2 Hh1 H1 Hnd1) as (s' & Hs' & H1' & Hc & F).
  exists s'. split; [done|]. split; [done|]. split; [|split; [done|split]].
  - eapply dlist_frame; [done..|].
    intros y [->|Hy].
    + assert (h2 ∉ HeapObj <$> k1 ++ a :: k2) by by apply sentinel_not_in.
      intuition congruence.
    + apply list_elem_of_fmap in Hy as (b & -> & Hb).
      assert (HeapObj b ≠ h1) by (intros <-; by apply (Hh1 b)).
      assert (HeapObj b ∉ HeapObj <$> k1 ++ a :: k2).
      { rewrite elem_of_heap_objs. intros ?. by apply (Hd b). }
      intuition congruence.
  - by eapply same_but_tags.
  - apply (sb_allocator _ _ _ _ F).
Qed.

Lemma tracking_sym_NoDup (l1 l2 : list addr) : NoDup (l1 ++ l2) → NoDup (l2 ++ l1).
Proof. intros H. by rewrite (Permutation_app_comm l2 l1). Qed.

Lemma NoDup_app_filter_r (P : addr → Prop) `{!∀ b, Decision (P b)} (l1 l2 : list addr) :
  NoDup (l1 ++ l2) → NoDup (l1 ++ filter P l2).
Proof.
  intros (H1 & Hd & H2)%NoDup_app. apply NoDup_app. split; [done|].
  split; [|by apply NoDup_filter].
  intros b Hb [_ Hb2]%list_elem_of_filter. by apply (Hd b).
Qed.

Lemma NoDup_app_filter_l (P : addr → Prop) `{!∀ b, Decision (P b)} (l1 l2 : list addr) :
  NoDup (l1 ++ l2) → NoDup (filter P l1 ++ l2).
Proof.
  intros (H1 & Hd & H2)%NoDup_app. apply NoDup_app. split; [by apply NoDup_filter|].
  split; [|done].
  intros b [_ Hb]%list_elem_of_filter. by apply (Hd b).
Qed.

Lemma filter_all {A} (P : A → Prop) `{!∀ e, Decision (P e)} (l : list A) :
  (∀ e, e ∈ l → P e) → filter P l = l.
Proof.
  induction l as [|e l IH]; [done|]. intros Hall.
  rewrite filter_cons_True by (apply Hall; left).
  f_equal. apply IH. intros e' He'. apply Hall. by right.
Qed.

Lemma filter_none {A} (P : A → Prop) `{!∀ e, Decision (P e)} (l : list A) :
  (∀ e, e ∈ l → ¬ P e) → filter P l = [].
Proof.
  induction l as [|e l IH]; [done|]. intros Hall.
  rewrite filter_cons_False by (apply Hall; left).
  apply IH. intros e' He'. apply Hall. by right.
Qed.

Lemma filter_ne_split (k1 k2 : list addr) a :
  NoDup (k1 ++ a :: k2) → filter (λ b, b ≠ a) (k1 ++ a :: k2) = k1 ++ k2.
Proof.
  intros (Hnd1 & Hd & [Ha2 Hnd2]%NoDup_cons)%NoDup_app.
  rewrite filter_app, filter_cons_False by (intros ?; done).
  f_equal; apply filter_all; intros b Hb ->.
  - apply (Hd a); [done | left].
  - done.
Qed.

Lemma valid_kept s s' y : tags_kept s s' → valid s y → valid s' y.
Proof. intros Ht. rewrite !valid_get_tag. by rewrite Ht. Qed.

(** *** Steps on a tracking structure *)

Lemma tracking_track s rs gs a :
  tracking s rs gs → a ∉ rs ++ gs → valid s (HeapObj a) →
  ∃ s', dGC_track (Some (HeapObj a)) s = Ok s' ∧ tracking s' rs (a :: gs) ∧
        tags_kept s s' ∧ allocator (gc s') = allocator (gc s).
Proof.
  intros (Hr & Hg & Hnd) Ha Hva.
  destruct (pair_link s GenSentinel gs RootSentinel rs a
              gen_is_sentinel root_is_sentinel ltac:(done) Hg Hr
              (tracking_sym_NoDup _ _ Hnd) ltac:(set_solver) Hva)
    as (s' & Hs' & Hg' & Hr' & Ht & Hal).
  exists s'. split; [done|]. split; [|done].
  split; [done|]. split; [done|].
  apply NoDup_app in Hnd as (? & ? & ?).
  apply NoDup_app. split; [done|]. split; [set_solver|].
  apply NoDup_cons. split; [set_solver | done].
Qed.

Lemma tracking_root s rs gs a :
  tracking s rs gs → a ∉ rs ++ gs → valid s (HeapObj a) →
  ∃ s', dGC_root (Some (HeapObj a)) s = Ok s' ∧ tracking s' (a :: rs) gs ∧
        tags_kept s s' ∧ allocator (gc s') = allocator (gc s).
Proof.
  intros (Hr & Hg & Hnd) Ha Hva.
  destruct (pair_link s RootSentinel rs GenSentinel gs a
              root_is_sentinel gen_is_sentinel ltac:(done) Hr Hg
              Hnd Ha Hva)
    as (s' & Hs' & Hr' & Hg' & Ht & Hal).
  exists s'. split; [done|]. split; [|done].
  split; [done|]. split; [done|].
  simpl. apply NoDup_cons. split; [done | done].
Qed.

Lemma tracking_unlink_gen s rs gs a :
  tracking s rs gs → a ∈ gs →
  ∃ s', dObj_unlink (Some (HeapObj a)) s = Ok s' ∧
        tracking s' rs (filter (λ b, b ≠ a) gs) ∧ closed s' (HeapObj a) ∧
        tags_kept s s' ∧ allocator (gc s') = allocator (gc s).
Proof.
  intros (Hr & Hg & Hnd) (g1 & g2 & ->)%list_elem_of_split.
  destruct (pair_unlink s GenSentinel g1 a g2 RootSentinel rs
              gen_is_sentinel root_is_sentinel ltac:(done) Hg Hr
              (tracking_sym_NoDup _ _ Hnd))
    as (s' & Hs' & Hg' & Hr' & Hc & Ht & Hal).
  assert (NoDup (g1 ++ a :: g2)) as Hndg by by apply NoDup_app in Hnd as (? & ? & ?).
  exists s'. split; [done|]. split; [|done].
  split; [done|]. split; [by rewrite filter_ne_split|].
  by apply NoDup_app_filter_r.
Qed.

Lemma tracking_unlink_root s rs gs a :
  tracking s rs gs → a ∈ rs →
  ∃ s', dObj_unlink (Some (HeapObj a)) s = Ok s' ∧
        tracking s' (filter (λ b, b ≠ a) rs) gs ∧ closed s' (HeapObj a) ∧
        tags_kept s s' ∧ allocator (gc s') = allocator (gc s).
Proof.
  intros (Hr & Hg & Hnd) (r1 & r2 & ->)%list_elem_of_split.
  destruct (pair_unlink s RootSentinel r1 a r2 GenSentinel gs
              root_is_sentinel gen_is_sentinel ltac:(done) Hr Hg Hnd)
    as (s' & Hs' & Hr' & Hg' & Hc & Ht & Hal).
  assert (NoDup (r1 ++ a :: r2)) as Hndr by by apply NoDup_app in Hnd as (? & ? & ?).
  exists s'. split; [done|]. split; [|done].
  split; [by rewrite filter_ne_split|]. split; [done|].
  by apply NoDup_app_filter_l.
Qed.
End TrackingSteps.

Section TrackingMoves.
Context {UD : Type}.
Implicit Types s : gc_store UD.
Implicit Types x y z : objref.

(** *** Traversal reads the list back *)

Lemma walk_path s h (l : list objref) x fuel :
  h ∉ l → path s (x :: l ++ [h]) → (length l < fuel)%nat →
  ∃ n, get_next s (Some x) = Ok n ∧ walk fuel s h n = Ok l.
Proof.
  revert x fuel. induction l as [|y l IH]; intros x fuel Hh Hp Hf.
  - destruct Hp as [[Hn _] _]. exists (Some h). split; [done|].
    destruct fuel; [simpl in Hf; lia|]. simpl. by rewrite decide_True.
  - destruct Hp as [[Hn _] Hp]. exists (Some y). split; [done|].
    destruct fuel as [|fuel]; [simpl in Hf; lia|]. simpl.
    rewrite decide_False by (intros ->; apply Hh; left).
    destruct (IH y fuel) as (n & Hny & Hw); [set_solver | done | simpl in Hf; lia |].
    rewrite Hny. simpl. by rewrite Hw.
Qed.

Lemma dlist_traverse s h l fuel :
  is_sentinel h → dlist s h l → (length l < fuel)%nat →
  traverse fuel s h = Ok (HeapObj <$> l).
Proof.
  intros Hh Hl Hf. unfold traverse.
  destruct (walk_path s h (HeapObj <$> l) h fuel) as (n & -> & Hw);
    [by apply sentinel_not_in | done | by rewrite length_fmap | done].
Qed.

(** *** Initialisation *)

Lemma dGC_init_tracking (al : dysl_allocator UD) s :
  ∃ s', dGC_init al s = Ok s' ∧ tracking s' [] [] ∧ heap s' = heap s ∧
        allocator (gc s') = al.
Proof.
  destruct s as [[al0 [tr pr nr] [tg pg ng]] hp].
  eexists. split; [reflexivity|]. repeat split; constructor.
Qed.

(** *** Moving one object *)

Lemma closed_valid s x : closed s x → valid s x.
Proof. intros [H _]. by eapply get_next_valid. Qed.

Lemma move_to_root_step s rs gs a :
  tracking s rs gs → a ∈ gs →
  ∃ s', move_to_root a s = Ok s' ∧
        tracking s' (a :: rs) (filter (λ b, b ≠ a) gs) ∧ tags_kept s s'.
Proof.
  intros Ht Ha. unfold move_to_root.
  destruct (tracking_unlink_gen s rs gs a Ht Ha) as (s1 & -> & Ht1 & Hc & Hk1 & _).
  simpl.
  assert (NoDup (rs ++ gs)) as Hnd by apply Ht.
  destruct (tracking_root s1 rs (filter (λ b, b ≠ a) gs) a Ht1) as (s2 & -> & Ht2 & Hk2 & _).
  - apply NoDup_app in Hnd as (_ & Hd & _).
    rewrite elem_of_app, list_elem_of_filter. intros [Hr|[? _]]; [|done].
    by apply (Hd a).
  - by apply closed_valid.
  - exists s2. split; [done|]. split; [done|]. intros y. by rewrite Hk2, Hk1.
Qed.

Lemma move_to_gen_step s rs gs a :
  tracking s rs gs → a ∈ rs →
  ∃ s', move_to_gen a s = Ok s' ∧
        tracking s' (filter (λ b, b ≠ a) rs) (a :: gs) ∧ tags_kept s s'.
Proof.
  intros Ht Ha. unfold move_to_gen, dGC_unroot.
  destruct (tracking_unlink_root s rs gs a Ht Ha) as (s1 & -> & Ht1 & Hc & Hk1 & _).
  simpl.
  assert (NoDup (rs ++ gs)) as Hnd by apply Ht.
  destruct (tracking_track s1 (filter (λ b, b ≠ a) rs) gs a Ht1) as (s2 & -> & Ht2 & Hk2 & _).
  - apply NoDup_app in Hnd as (_ & Hd & _).
    rewrite elem_of_app, list_elem_of_filter. intros [[? _]|Hg]; [done|].
    by apply (Hd a).
  - by apply closed_valid.
  - exists s2. split; [done|]. split; [done|]. intros y. by rewrite Hk2, Hk1.
Qed.

(** *** Moving several objects *)

Lemma move_all_to_root s rs gs xs :
  tracking s rs gs → NoDup xs → (∀ a, a ∈ xs → a ∈ gs) →
  ∃ s', move_all move_to_root xs s = Ok s' ∧
        tracking s' (reverse xs ++ rs) (filter (λ b, b ∉ xs) gs) ∧
        tags_kept s s'.
Proof.
  revert s rs gs. induction xs as [|a xs IH]; intros s rs gs Ht Hnd Hin.
  - exists s. split; [done|]. split; [|done]. simpl.
    rewrite filter_all; [done|]. intros e _. apply not_elem_of_nil.
  - apply NoDup_cons in Hnd as [Ha Hnd]. simpl.
    destruct (move_to_root_step s rs gs a Ht) as (s1 & -> & Ht1 & Hk1);
      [apply Hin; left|]. simpl.
    destruct (IH s1 (a :: rs) (filter (λ b, b ≠ a) gs) Ht1 Hnd) as (s2 & -> & Ht2 & Hk2).
    + intros b Hb. apply list_elem_of_filter. split; [by intros ->|].
      apply Hin. by right.
    + exists s2. split; [done|]. split; [|intros y; by rewrite Hk2, Hk1].
      rewrite reverse_cons, <- app_assoc. simpl.
      rewrite list_filter_filter in Ht2.
      erewrite list_filter_iff; [exact Ht2|].
      intros b. simpl. rewrite not_elem_of_cons. tauto.
Qed.

Lemma move_all_to_gen s rs gs ys :
  tracking s rs gs → NoDup ys → (∀ a, a ∈ ys → a ∈ rs) →
  ∃ s', move_all move_to_gen ys s = Ok s' ∧
        tracking s' (filter (λ b, b ∉ ys) rs) (reverse ys ++ gs) ∧
        tags_kept s s'.
Proof.
  revert s rs gs. induction ys as [|a ys IH]; intros s rs gs Ht Hnd Hin.
  - exists s. split; [done|]. split; [|done]. simpl.
    rewrite filter_all; [done|]. intros e _. apply not_elem_of_nil.
  - apply NoDup_cons in Hnd as [Ha Hnd]. simpl.
    destruct (move_to_gen_step s rs gs a Ht) as (s1 & -> & Ht1 & Hk1);
      [apply Hin; left|]. simpl.
    destruct (IH s1 (filter (λ b, b ≠ a) rs) (a :: gs) Ht1 Hnd) as (s2 & -> & Ht2 & Hk2).
    + intros b Hb. apply list_elem_of_filter. split; [by intros ->|].
      apply Hin. by right.
    + exists s2. split; [done|]. split; [|intros y; by rewrite Hk2, Hk1].
      rewrite reverse_cons, <- app_assoc. simpl.
      rewrite list_filter_filter in Ht2.
      erewrite list_filter_iff; [exact Ht2|].
      intros b. simpl. rewrite not_elem_of_cons. tauto.
Qed.

(** *** Closing before linking changes nothing *)

Lemma set_next_heap s a o v :
  heap s !! a = Some o →
  set_next (Some (HeapObj a)) v s =
  Ok (GcStore (gc s) (<[a := DyObject (tag o) (previous o) v]> (heap s))).
Proof. intros H. unfold set_next. simpl. by rewrite H. Qed.

Lemma set_previous_heap s a o v :
  heap s !! a = Some o →
  set_previous (Some (HeapObj a)) v s =
  Ok (GcStore (gc s) (<[a := DyObject (tag o) v (next o)]> (heap s))).
Proof. intros H. unfold set_previous. simpl. by rewrite H. Qed.

Lemma set_next_invalid s a v :
  heap s !! a = None → set_next (Some (HeapObj a)) v s = Fault InvalidPtr.
Proof. intros H. unfold set_next. simpl. by rewrite H. Qed.

Lemma get_next_gen s :
  get_next s (Some GenSentinel) = Ok (next (gen (gc s))).
Proof. done. Qed.

Lemma track_after_close s a :
  dGC_track (Some (HeapObj a)) s =
  dObj_close (Some (HeapObj a)) s ≫= dGC_track (Some (HeapObj a)).
Proof.
  unfold dGC_track, dObj_close, dObj_link.
  change (get_next s (Some GenSentinel)) with (Ok (next (gen (gc s)))).
  cbn [mbind res_bind].
  destruct (heap s !! a) as [o|] eqn:Ha.
  - rewrite (set_next_heap s a o (next (gen (gc s))) Ha).
    rewrite (set_next_heap s a o (Some (HeapObj a)) Ha).
    cbn [mbind res_bind].
    rewrite (set_previous_heap _ a _ (Some GenSentinel) (lookup_insert_eq _ _ _)).
    rewrite (set_previous_heap _ a _ (Some (HeapObj a)) (lookup_insert_eq _ _ _)).
    cbn [mbind res_bind gc heap tag previous next].
    rewrite !get_next_gen.
    cbn [mbind res_bind gc heap tag previous next].
    rewrite (set_next_heap _ a _ (next (gen (gc s))) (lookup_insert_eq _ _ _)).
    cbn [mbind res_bind gc heap tag previous next].
    rewrite (set_previous_heap _ a _ (Some GenSentinel) (lookup_insert_eq _ _ _)).
    cbn [mbind res_bind gc heap tag previous next].
    by rewrite !insert_insert_eq.
  - by rewrite !(set_next_invalid s a _ Ha).
Qed.
End TrackingMoves.

Section TrackingClaims.
Context {UD : Type}.
Implicit Types s : gc_store UD.
Implicit Types x y z : objref.

(** C9.  Unpinning removes the object from all tracking.  For every
    well-formed tracking structure and every object [a] of the root set,
    [dGC_unroot] succeeds; afterwards [previous] and [next] of [a] both point
    to [a], the root list is the old one without [a], the generation list is
    unchanged, [a] is in neither, and walking either list from its sentinel
    does not meet [a]. *)
Theorem dGC_unroot_closes_and_untracks s rs gs a :
  tracking s rs gs → a ∈ rs →
  ∃ s', dGC_unroot (Some (HeapObj a)) s = Ok s' ∧
        get_previous s' (Some (HeapObj a)) = Ok (Some (HeapObj a)) ∧
        get_next s' (Some (HeapObj a)) = Ok (Some (HeapObj a)) ∧
        tracking s' (filter (λ b, b ≠ a) rs) gs ∧
        (a ∉ filter (λ b, b ≠ a) rs) ∧ (a ∉ gs) ∧
        (∃ l, traverse (S (length rs)) s' RootSentinel = Ok l ∧ HeapObj a ∉ l) ∧
        (∃ l, traverse (S (length gs)) s' GenSentinel = Ok l ∧ HeapObj a ∉ l).
Proof.
  intros Ht Ha.
  destruct (tracking_unlink_root s rs gs a Ht Ha) as (s' & Hs' & Ht' & [Hn Hp] & _).
  assert (a ∉ filter (λ b, b ≠ a) rs) as Hnr.
  { rewrite list_elem_of_filter. tauto. }
  assert (a ∉ gs) as Hng.
  { destruct Ht as (_ & _ & Hnd). apply NoDup_app in Hnd as (_ & Hd & _). by apply Hd. }
  exists s'. split; [done|]. split; [done|]. split; [done|]. split; [done|].
  split; [done|]. split; [done|].
  destruct Ht' as (Hr' & Hg' & _). split.
  - exists (HeapObj <$> filter (λ b, b ≠ a) rs). split.
    + apply dlist_traverse; [apply root_is_sentinel | done |].
      pose proof (length_filter (λ b, b ≠ a) rs). lia.
    + by rewrite elem_of_heap_objs.
  - exists (HeapObj <$> gs). split.
    + apply dlist_traverse; [apply gen_is_sentinel | done | lia].
    + by rewrite elem_of_heap_objs.
Qed.

(** C8, as amended.  Round trip between the generation set and the root
    set.  [xs] are N distinct objects of the generation set; they are moved
    to the root set one after the other (unlinked, then [dGC_root]) and then
    moved back in any order [ys] ([dGC_unroot], then [dGC_track]).  Both
    runs succeed; in between the objects are in the root set; at the end
    the root list is the list it was, the generation set has the members it
    had, and every tag is the one it was.  The generation list itself is not
    the list it was: it holds the objects moved back, last one first,
    followed by the objects that stayed, so it is a permutation of the old
    list. *)
Theorem gen_root_round_trip s rs gs xs ys :
  tracking s rs gs → NoDup xs → (∀ a, a ∈ xs → a ∈ gs) → ys ≡ₚ xs →
  ∃ s1 s2,
    move_all move_to_root xs s = Ok s1 ∧
    tracking s1 (reverse xs ++ rs) (filter (λ b, b ∉ xs) gs) ∧
    move_all move_to_gen ys s1 = Ok s2 ∧
    tracking s2 rs (reverse ys ++ filter (λ b, b ∉ xs) gs) ∧
    reverse ys ++ filter (λ b, b ∉ xs) gs ≡ₚ gs ∧
    (∀ a, a ∈ reverse ys ++ filter (λ b, b ∉ xs) gs ↔ a ∈ gs) ∧
    tags_kept s s2.
Proof.
  intros Ht Hnd Hin Hperm.
  destruct (move_all_to_root s rs gs xs Ht Hnd Hin) as (s1 & Hs1 & Ht1 & Hk1).
  assert (NoDup ys) as Hndy.
  { by apply (NoDup_Permutation_proper _ _ Hperm). }
  destruct (move_all_to_gen s1 _ _ ys Ht1 Hndy) as (s2 & Hs2 & Ht2 & Hk2).
  { intros a Ha. rewrite elem_of_app, elem_of_reverse. left. by rewrite <- Hperm. }
  assert (NoDup (rs ++ gs)) as Hndt by apply Ht.
  apply NoDup_app in Hndt as (Hndr & Hd & Hndg).
  assert (filter (λ b, b ∉ ys) (reverse xs ++ rs) = rs) as Er.
  { rewrite filter_app, filter_none, filter_all; [done| |].
    - intros b Hb Hby. apply (Hd b Hb), Hin. by rewrite <- Hperm.
    - intros b Hb Hby. rewrite elem_of_reverse in Hb. apply Hby. by rewrite Hperm. }
  rewrite Er in Ht2.
  assert (∀ a, a ∈ reverse ys ++ filter (λ b, b ∉ xs) gs ↔ a ∈ gs) as Hmem.
  { intros b. rewrite elem_of_app, elem_of_reverse, list_elem_of_filter, Hperm.
    split.
    - intros [Hb|[_ Hb]]; [by apply Hin | done].
    - intros Hb. destruct (decide (b ∈ xs)); tauto. }
  exists s1, s2.
  split; [done|]. split; [done|]. split; [done|]. split; [done|].
  split; [|split; [done | intros y; by rewrite Hk2, Hk1]].
  apply NoDup_Permutation; [|done|done].
  destruct Ht2 as (_ & _ & Hnd2). by apply NoDup_app in Hnd2 as (_ & _ & ?).
Qed.

(** When the objects are the first ones of the generation list and are
    moved back in the reverse order, the list is also in the order it
    was. *)
Lemma round_trip_order_kept (xs rest : list addr) :
  NoDup (xs ++ rest) →
  reverse (reverse xs) ++ filter (λ b, b ∉ xs) (xs ++ rest) = xs ++ rest.
Proof.
  intros (_ & Hd & _)%NoDup_app.
  rewrite reverse_involutive, filter_app, filter_none, filter_all; [done| |].
  - intros b Hb Hbx. by apply (Hd b).
  - intros b Hb Hbx. by apply Hbx.
Qed.

(** C2, as amended.  [dGC_root] and [dGC_track] only link.  When a move
    between the two sets is performed as an unlink followed by a relink
    ([dObj_unlink] then [dGC_root]; [dGC_unroot] then [dGC_track]) it takes
    a well-formed tracking structure to a well-formed one: the object is in
    the destination list and no longer in the source list, no object is in
    both lists, and the neighbour links of both lists are consistent. *)
Theorem move_is_unlink_then_relink s rs gs a :
  tracking s rs gs →
  (a ∈ gs →
   ∃ s1 s2, dObj_unlink (Some (HeapObj a)) s = Ok s1 ∧
            dGC_root (Some (HeapObj a)) s1 = Ok s2 ∧
            tracking s2 (a :: rs) (filter (λ b, b ≠ a) gs)) ∧
  (a ∈ rs →
   ∃ s1 s2, dGC_unroot (Some (HeapObj a)) s = Ok s1 ∧
            dGC_track (Some (HeapObj a)) s1 = Ok s2 ∧
            tracking s2 (filter (λ b, b ≠ a) rs) (a :: gs)).
Proof.
  intros Ht. split; intros Ha.
  - destruct (move_to_root_step s rs gs a Ht Ha) as (s2 & Hm & Ht2 & _).
    unfold move_to_root in Hm. apply res_bind_Ok in Hm as (s1 & H1 & H2). eauto.
  - destruct (move_to_gen_step s rs gs a Ht Ha) as (s2 & Hm & Ht2 & _).
    unfold move_to_gen in Hm. apply res_bind_Ok in Hm as (s1 & H1 & H2). eauto.
Qed.

(** C5.  Creation of a tracked object, on a well-formed tracking structure.
    The allocator is asked once, for [size] bytes.  If it grants a block
    [a] of object memory that is not tracked yet, [dGC_create] returns [a],
    the tag of [a] is the requested one and [a] is the first object of the
    generation list, the root list being as before.  If it refuses,
    [dGC_create] returns [NULL] and the store (both sentinels, their lists
    and every object) is the one before the call. *)
Theorem dGC_create_atomic s (al : alloc_state UD) size t rs gs :
  tracking s rs gs →
  (∀ a al1, dAlloc_alloc (allocator (gc s)) size al = (Some a, al1) →
            valid s (HeapObj a) → a ∉ rs ++ gs →
            ∃ s', dGC_create size t s al = Ok (Some a, s', al1) ∧
                  calls al1 = calls al ++ [AllocCall None 0 size (Some a)] ∧
                  get_tag s' (Some (HeapObj a)) = Ok t ∧
                  tracking s' rs (a :: gs)) ∧
  (∀ al1, dAlloc_alloc (allocator (gc s)) size al = (None, al1) →
          dGC_create size t s al = Ok (None, s, al1) ∧
          calls al1 = calls al ++ [AllocCall None 0 size None]).
Proof.
  intros Ht. split.
  - intros a al1 Hal Hva Ha. unfold dGC_create. rewrite Hal.
    destruct (set_tag_Ok s (HeapObj a) t Hva) as (s1 & -> & Htag & Hn & Hp & Ho & Halc).
    simpl.
    assert (tracking s1 rs gs) as Ht1.
    { destruct Ht as (Hr & Hg & Hnd). split; [|split; [|done]].
      - eapply path_frame; [exact Hr| |]; intros; [apply Hn | apply Hp].
      - eapply path_frame; [exact Hg| |]; intros; [apply Hn | apply Hp]. }
    assert (valid s1 (HeapObj a)) as Hva1.
    { apply valid_get_tag. eauto. }
    destruct (tracking_track s1 rs gs a Ht1 Ha Hva1) as (s2 & -> & Ht2 & Hk & _).
    exists s2. split; [done|]. split; [|split; [by rewrite Hk | done]].
    unfold dAlloc_alloc, call_allocator in Hal.
    destruct (fn (allocator (gc s)) (user_data al) None 0 size) as [r ud'].
    by injection Hal as -> <-.
  - intros al1 Hal. unfold dGC_create. rewrite Hal. split; [done|].
    unfold dAlloc_alloc, call_allocator in Hal.
    destruct (fn (allocator (gc s)) (user_data al) None 0 size) as [r ud'].
    by injection Hal as -> <-.
Qed.

(** C10.  Not closing the new object in [dGC_create] is sound: for every
    store (so for every content of the [previous] and [next] fields of the
    block), every allocator state, size and tag, [dGC_create] and the
    variant that calls [dObj_close] on the object before linking it return
    the same result: the same pointer, the same store, the same allocator
    state, or the same fault. *)
Theorem dGC_create_close_unnecessary s (al : alloc_state UD) size t :
  dGC_create size t s al = dGC_create_closed size t s al.
Proof.
  unfold dGC_create, dGC_create_closed.
  destruct (dAlloc_alloc (allocator (gc s)) size al) as [[a|] al1]; [|done].
  destruct (set_tag (Some (HeapObj a)) t s) as [s1|e]; [|done].
  cbn [mbind res_bind].
  rewrite (track_after_close s1 a).
  by destruct (dObj_close (Some (HeapObj a)) s1).
Qed.
End TrackingClaims.

(** Concrete structures. *)

Lemma sample_store_tracking : tracking sample_store [] [].
Proof. repeat split; constructor. Qed.

Lemma one_tracked_tracking : tracking one_tracked [] [4096].
Proof. repeat split; try reflexivity. apply NoDup_singleton. Qed.

Lemma three_tracked_tracking : tracking three_tracked [] [4160; 4128; 4096].
Proof.
  split; [|split].
  - repeat split.
  - repeat split; vm_compute; reflexivity.
  - apply (bool_decide_unpack _). vm_compute. exact I.
Qed.

Lemma one_rooted_tracking : tracking one_rooted [4128] [4096].
Proof.
  split; [|split].
  - repeat split; vm_compute; reflexivity.
  - repeat split; vm_compute; reflexivity.
  - apply (bool_decide_unpack _). vm_compute. exact I.
Qed.

Lemma dGC_unroot_closes_and_untracks_witness :
  ∃ s', dGC_unroot (Some (HeapObj 4128)) one_rooted = Ok s' ∧
        get_previous s' (Some (HeapObj 4128)) = Ok (Some (HeapObj 4128)) ∧
        get_next s' (Some (HeapObj 4128)) = Ok (Some (HeapObj 4128)) ∧
        tracking s' [] [4096].
Proof.
  destruct (dGC_unroot_closes_and_untracks one_rooted [4128] [4096] 4128
              one_rooted_tracking ltac:(left))
    as (s' & H1 & H2 & H3 & H4 & _).
  exists s'. split; [exact H1|]. split; [exact H2|]. split; [exact H3|].
  exact H4.
Defined.

Lemma gen_root_round_trip_witness :
  ∃ s1 s2,
    move_all move_to_root [4128; 4096] three_tracked = Ok s1 ∧
    tracking s1 [4096; 4128] [4160] ∧
    move_all move_to_gen [4096; 4128] s1 = Ok s2 ∧
    tracking s2 [] [4128; 4096; 4160].
Proof.
  destruct (gen_root_round_trip three_tracked [] [4160; 4128; 4096]
              [4128; 4096] [4096; 4128] three_tracked_tracking)
    as (s1 & s2 & H1 & H2 & H3 & H4 & _).
  - apply (bool_decide_unpack _). vm_compute. exact I.
  - intros a Ha. apply list_elem_of_In in Ha. apply list_elem_of_In.
    simpl in *. intuition.
  - apply Permutation_swap.
  - exists s1, s2. split; [exact H1|]. split; [exact H2|].
    split; [exact H3|]. exact H4.
Defined.

Lemma move_is_unlink_then_relink_witness :
  ∃ s1 s2, dObj_unlink (Some (HeapObj 4096)) one_tracked = Ok s1 ∧
           dGC_root (Some (HeapObj 4096)) s1 = Ok s2 ∧
           tracking s2 [4096] [].
Proof.
  destruct (move_is_unlink_then_relink one_tracked [] [4096] 4096
              one_tracked_tracking) as [H _].
  destruct (H ltac:(left)) as (s1 & s2 & H1 & H2 & H3).
  exists s1, s2. split; [exact H1|]. split; [exact H2|]. exact H3.
Defined.

(** C8, as stated, fails.  [three_tracked] is well formed, with the
    generation list 4160, 4128, 4096 and an empty root list.  One object
    (N = 1), the one at 4096, is moved to the root set and back.
    [dGC_track] links it right after the sentinel, so the generation list is
    then 4096, 4160, 4128: the same members in another order.  The
    structure is not the one before the round trip. *)
Lemma gen_root_round_trip_reorders_generation_list :
  tracking three_tracked [] [4160; 4128; 4096] ∧
  traverse 4 three_tracked GenSentinel
    = Ok [HeapObj 4160; HeapObj 4128; HeapObj 4096] ∧
  ∃ s1 s2,
    move_all move_to_root [4096] three_tracked = Ok s1 ∧
    tracking s1 [4096] [4160; 4128] ∧
    move_all move_to_gen [4096] s1 = Ok s2 ∧
    tracking s2 [] [4096; 4160; 4128] ∧
    traverse 4 s2 RootSentinel = Ok [] ∧
    traverse 4 s2 GenSentinel
      = Ok [HeapObj 4096; HeapObj 4160; HeapObj 4128] ∧
    ¬ tracking s2 [] [4160; 4128; 4096] ∧
    s2 ≠ three_tracked.
Proof.
  split; [apply three_tracked_tracking|].
  split; [vm_compute; reflexivity|].
  eexists _, _.
  split; [vm_compute; reflexivity|].
  split.
  { split; [|split].
    - repeat split; vm_compute; reflexivity.
    - repeat split; vm_compute; reflexivity.
    - apply (bool_decide_unpack _). vm_compute. exact I. }
  split; [vm_compute; reflexivity|].
  split.
  { split; [|split].
    - repeat split; vm_compute; reflexivity.
    - repeat split; vm_compute; reflexivity.
    - apply (bool_decide_unpack _). vm_compute. exact I. }
  split; [vm_compute; reflexivity|].
  split; [vm_compute; reflexivity|].
  split.
  - intros (_ & Hg & _). unfold dlist in Hg. simpl in Hg.
    destruct Hg as [[Hn _] _]. vm_compute in Hn. discriminate Hn.
  - intros E.
    assert (get_next three_tracked (Some GenSentinel)
            = Ok (Some (HeapObj 4096))) as H.
    { rewrite <- E. vm_compute. reflexivity. }
    vm_compute in H. discriminate H.
Qed.

(** C2, as stated, fails.  [one_tracked] is a well-formed structure (it is
    what [dGC_create] makes of the empty one) with the object at 4096 in
    the generation set.  [dGC_root] on that object links it into the root
    list without unlinking it: afterwards both sentinels have it as their
    [next], its [previous] is the root sentinel although the generation
    sentinel still points to it, walking the generation list never comes
    back to its sentinel, and the structure is not well formed for any
    content of the two sets. *)
Lemma dGC_root_on_tracked_object_breaks_lists :
  tracking one_tracked [] [4096] ∧
  dGC_create 32 7 sample_store (budget_state 1 4096)
    = Ok (Some 4096, one_tracked,
          AllocState (0, 4128) [AllocCall None 0 32 (Some 4096)]) ∧
  dGC_root (Some (HeapObj 4096)) one_tracked = Ok one_rooted_twice ∧
  get_next one_rooted_twice (Some RootSentinel) = Ok (Some (HeapObj 4096)) ∧
  get_next one_rooted_twice (Some GenSentinel) = Ok (Some (HeapObj 4096)) ∧
  get_previous one_rooted_twice (Some (HeapObj 4096)) = Ok (Some RootSentinel) ∧
  traverse 1000 one_rooted_twice GenSentinel = Fault OutOfFuel ∧
  ¬ ∃ rs gs, tracking one_rooted_twice rs gs.
Proof.
  split; [apply one_tracked_tracking|].
  split; [vm_compute; reflexivity|].
  split; [vm_compute; reflexivity|].
  split; [reflexivity|]. split; [reflexivity|]. split; [reflexivity|].
  split; [vm_compute; reflexivity|].
  intros (rs & gs & _ & Hg & _). unfold dlist in Hg.
  destruct gs as [|g gs]; simpl in Hg.
  - destruct Hg as [[Hn _] _]. discriminate Hn.
  - destruct Hg as [[Hn Hp] _]. injection Hn as <-. discriminate Hp.
Qed.

(** ** Slices *)

Lemma dSlice_loop_spec (pa pb : list byte) :
  length pa = length pb →
  ∀ todo i, (i + todo)%nat = length pa →
    dSlice_loop pa pb i todo = Ok (bool_decide (drop i pa = drop i pb)).
Proof.
  intros Hlen. induction todo as [|k IH]; intros i Hi; simpl.
  - rewrite !drop_ge by lia. by rewrite bool_decide_eq_true_2.
  - destruct (lookup_lt_is_Some_2 pa i ltac:(lia)) as [x Hx].
    destruct (lookup_lt_is_Some_2 pb i ltac:(lia)) as [y Hy].
    rewrite Hx, Hy.
    rewrite (drop_S pa x i Hx), (drop_S pb y i Hy).
    destruct (Byte.eqb x y) eqn:E.
    + apply Byte.byte_dec_bl in E as ->. rewrite IH by lia.
      f_equal. apply bool_decide_ext. split; [by intros -> | by intros [= ->]].
    + apply Byte.eqb_false in E. rewrite bool_decide_eq_false_2; [done|].
      by intros [= ? _].
Qed.

Lemma dSlice_equals_spec (a b : list byte) :
  dSlice_equals a (N.of_nat (length a)) b (N.of_nat (length b))
  = Ok (bool_decide (a = b)).
Proof.
  unfold dSlice_equals.
  destruct (N.eqb_spec (N.of_nat (length a)) (N.of_nat (length b))) as [E|E]; simpl.
  - apply Nat2N.inj in E. rewrite Nat2N.id.
    by rewrite (dSlice_loop_spec a b E (length a) 0%nat ltac:(lia)).
  - rewrite bool_decide_eq_false_2; [done|]. by intros ->.
Qed.

(** ** Chains *)

Lemma chain_frame h h' p l :
  chain h p l →
  (∀ a, a ∈ l → next_in_table <$> h' !! a = next_in_table <$> h !! a) →
  chain h' p l.
Proof.
  revert p. induction l as [|a l IH]; intros p; [done|].
  intros (-> & sym & Ha & Hc) Hsame. split; [done|].
  pose proof (Hsame a ltac:(left)) as E. rewrite Ha in E. simpl in E.
  destruct (h' !! a) as [sym'|] eqn:Ha'; [|done]. injection E as E.
  exists sym'. split; [done|]. rewrite E. apply IH; [done|].
  intros b Hb. apply Hsame. by right.
Qed.

Lemma chain_functional h p l1 l2 : chain h p l1 → chain h p l2 → l1 = l2.
Proof.
  revert p l2. induction l1 as [|a l1 IH]; intros p [|b l2]; simpl.
  - done.
  - by intros -> [? _].
  - by intros [-> _] ?.
  - intros (-> & s1 & H1 & C1) ([= <-] & s2 & H2 & C2).
    rewrite H1 in H2. injection H2 as <-. f_equal. by eapply IH.
Qed.

Lemma chain_elem_of h p l a : chain h p l → a ∈ l → is_Some (h !! a).
Proof.
  revert p. induction l as [|b l IH]; intros p; [by intros _ ?%elem_of_nil|].
  intros (-> & sym & Hb & Hc) [->|Ha]%elem_of_cons; [eauto|]. by eapply IH.
Qed.

Lemma chain_length h p l : chain h p l → NoDup l → (length l ≤ size h)%nat.
Proof.
  intros Hc Hnd.
  assert (l ⊆+ (map_to_list h).*1) as Hsub.
  { apply NoDup_submseteq; [done|]. intros a Ha.
    destruct (chain_elem_of _ _ _ _ Hc Ha) as [sym Hs].
    apply list_elem_of_fmap. exists (a, sym). split; [done|].
    by apply elem_of_map_to_list. }
  apply submseteq_length in Hsub.
  by rewrite length_fmap, length_map_to_list in Hsub.
Qed.

Lemma nth_slot_cons sl a (l : list addr) k :
  (k ≤ length l)%nat → nth_slot sl (a :: l) (S k) = nth_slot (NextSlot a) l k.
Proof.
  intros Hk. destruct k as [|k]; [done|]. simpl.
  by destruct (lookup_lt_is_Some_2 l k ltac:(lia)) as [b ->].
Qed.

(** Reading the [k]-th slot of a chain. *)
Lemma read_nth_slot s sl p l k :
  read_slot s sl = Ok p → chain (symheap s) p l → (k ≤ length l)%nat →
  read_slot s (nth_slot sl l k) = Ok (l !! k).
Proof.
  intros Hsl Hc. revert sl p Hsl Hc k.
  induction l as [|a l IH]; intros sl p Hsl Hc k Hk.
  - simpl in Hk. assert (k = 0%nat) as -> by lia. simpl in *. by subst.
  - destruct Hc as (-> & sym & Ha & Hc). destruct k as [|k]; [by simpl|].
    simpl in Hk.
    assert (read_slot s (NextSlot a) = Ok (next_in_table sym)) as Hsl'.
    { simpl. unfold load_sym. by rewrite Ha. }
    specialize (IH _ _ Hsl' Hc k ltac:(lia)).
    rewrite nth_slot_cons by lia. exact IH.
Qed.

(** ** The lookup loop *)

Section Lookup.
Variables (s : sym_store) (name : list byte) (hash : dy_hash_t).
Let len := N.of_nat (length name).

Lemma lookup_test_spec sym :
  sym_length sym = N.of_nat (length (sym_name sym)) →
  (if (sym_hash sym =? hash) && (sym_length sym =? len)
   then dSlice_equals (sym_name sym) (sym_length sym) name len
   else Ok false)
  = Ok (bool_decide ((sym_hash sym, sym_length sym, sym_name sym)
                       = (hash, len, name))).
Proof.
  intros Hl. destruct (N.eqb_spec (sym_hash sym) hash) as [Eh|Eh]; simpl.
  - destruct (N.eqb_spec (sym_length sym) len) as [El|El]; simpl.
    + rewrite Hl. unfold len. etransitivity; [apply dSlice_equals_spec|]. f_equal.
      apply bool_decide_ext. split; [intros ->; by rewrite Eh|].
      by intros [= _ _ ->].
    + rewrite bool_decide_eq_false_2; [done|]. by intros [= _ ? _].
  - rewrite bool_decide_eq_false_2; [done|]. by intros [= ? _ _].
Qed.

Lemma lookup_loop_spec l : ∀ fuel sl p,
  read_slot s sl = Ok p → chain (symheap s) p l →
  (∀ a, a ∈ l → ∃ hs nm,
      key_of (symheap s) a = Some (hs, N.of_nat (length nm), nm)) →
  (length l < fuel)%nat →
  lookup_loop fuel s name len hash sl =
  Ok (match list_find (matches (symheap s) name len hash) l with
      | Some (k, _) => (nth_slot sl l k, true)
      | None => (nth_slot sl l (length l), false)
      end).
Proof.
  induction l as [|a l IH]; intros fuel sl p Hsl Hc Hk Hf.
  - destruct fuel; [simpl in Hf; lia|]. simpl in *. subst p. by rewrite Hsl.
  - destruct fuel as [|fuel]; [simpl in Hf; lia|].
    destruct Hc as (-> & sym & Ha & Hc).
    cbn [lookup_loop]. rewrite Hsl. cbn [mbind res_bind].
    unfold load_sym at 1. rewrite Ha. cbn [mbind res_bind].
    destruct (Hk a ltac:(left)) as (hs & nm & Hkey).
    unfold key_of in Hkey. rewrite Ha in Hkey. simpl in Hkey.
    injection Hkey as Eh El En.
    rewrite lookup_test_spec by by rewrite El, En.
    cbn [mbind res_bind list_find].
    destruct (decide (matches (symheap s) name len hash a)) as [E|E];
      unfold matches, key_of in E; rewrite Ha in E; simpl in E.
    + injection E as E1 E2 E3. rewrite bool_decide_eq_true_2; [done|]. congruence.
    + rewrite bool_decide_eq_false_2 by congruence.
      assert (read_slot s (NextSlot a) = Ok (next_in_table sym)) as Hsl'.
      { simpl. unfold load_sym. by rewrite Ha. }
      rewrite (IH fuel _ _ Hsl' Hc); [|intros; apply Hk; by right|simpl in Hf; lia].
      destruct (list_find _ l) as [[k b]|] eqn:Hfind; cbn -[nth_slot].
      * apply list_find_Some in Hfind as (Hkb%lookup_lt_Some & _).
        rewrite nth_slot_cons; [done | lia].
      * by rewrite nth_slot_cons.
Qed.
End Lookup.

(** ** Lists of chains *)

Lemma elem_of_concat {A} (ls : list (list A)) (e : A) :
  e ∈ concat ls ↔ ∃ i l, ls !! i = Some l ∧ e ∈ l.
Proof.
  induction ls as [|l0 ls IH]; simpl.
  - split; [by intros ?%elem_of_nil | by intros (i & l & ? & _)].
  - rewrite elem_of_app, IH. split.
    + intros [H|(i & l & Hi & He)]; [by exists 0%nat, l0 | by exists (S i), l].
    + intros ([|i] & l & Hi & He); simpl in Hi.
      * injection Hi as ->. by left.
      * right. eauto.
Qed.

Lemma NoDup_concat_lookup {A} (ls : list (list A)) i l :
  NoDup (concat ls) → ls !! i = Some l → NoDup l.
Proof.
  revert i. induction ls as [|l0 ls IH]; intros i; [done|]. simpl.
  intros (H0 & _ & Hr)%NoDup_app. destruct i as [|i]; simpl.
  - by intros [= <-].
  - by apply IH.
Qed.

Lemma NoDup_concat_disjoint {A} (ls : list (list A)) i j li lj (e : A) :
  NoDup (concat ls) → ls !! i = Some li → ls !! j = Some lj →
  e ∈ li → e ∈ lj → i = j.
Proof.
  revert i j. induction ls as [|l0 ls IH]; intros i j; [done|]. simpl.
  intros (H0 & Hd & Hr)%NoDup_app Hi Hj Hei Hej.
  destruct i as [|i], j as [|j]; simpl in *.
  - done.
  - injection Hi as ->. exfalso. apply (Hd e Hei), elem_of_concat. eauto.
  - injection Hj as ->. exfalso. apply (Hd e Hej), elem_of_concat. eauto.
  - f_equal. by eapply IH.
Qed.

Lemma concat_alter_cons {A} (ls : list (list A)) i (e : A) :
  (i < length ls)%nat → concat (alter (cons e) i ls) ≡ₚ e :: concat ls.
Proof.
  revert i. induction ls as [|l0 ls IH]; intros i Hi; simpl in Hi; [lia|].
  destruct i as [|i]; [done|].
  change (l0 ++ concat (alter (cons e) i ls) ≡ₚ e :: l0 ++ concat ls).
  rewrite IH by lia. by rewrite Permutation_middle.
Qed.

Lemma concat_alter_snoc {A} (ls : list (list A)) i (e : A) :
  (i < length ls)%nat → concat (alter (λ l, l ++ [e]) i ls) ≡ₚ e :: concat ls.
Proof.
  revert i. induction ls as [|l0 ls IH]; intros i Hi; simpl in Hi; [lia|].
  destruct i as [|i].
  - simpl. rewrite <- app_assoc. simpl. by rewrite <- Permutation_middle.
  - change (l0 ++ concat (alter (λ l, l ++ [e]) i ls) ≡ₚ e :: l0 ++ concat ls).
    rewrite IH by lia. by rewrite Permutation_middle.
Qed.

Lemma concat_replicate_nil {A} n : concat (replicate n (@nil A)) = [].
Proof. induction n; [done|]. done. Qed.

(** ** Lookup in a well-formed table *)

Section TableLookup.
Variables (s : sym_store) (chains : list (list addr)).
Hypothesis Hwf : table_wf s chains.

Lemma bucket_index_lt (hs : dy_hash_t) :
  (N.to_nat (hs mod capacity (symbols s)) < length chains)%nat.
Proof.
  rewrite (wf_length _ _ Hwf).
  pose proof (N.mod_lt hs (capacity (symbols s))) as H.
  pose proof (wf_capacity _ _ Hwf). lia.
Qed.

Lemma table_chain i l :
  chains !! N.to_nat i = Some l →
  ∃ p, read_slot s (BucketSlot i) = Ok p ∧ chain (symheap s) p l.
Proof.
  intros Hl. destruct (wf_buckets _ _ Hwf) as (arr & Harr & HF).
  destruct (Forall2_lookup_r _ _ _ _ _ HF Hl) as (p & Hp & Hc).
  exists p. split; [|done]. simpl. unfold read_array. by rewrite Harr, Hp.
Qed.

Lemma table_chain_key l i a :
  chains !! i = Some l → a ∈ l →
  ∃ hs nm, key_of (symheap s) a = Some (hs, N.of_nat (length nm), nm).
Proof.
  intros Hl Ha. destruct (wf_key _ _ Hwf i l a Hl Ha) as (hs & nm & H & _). eauto.
Qed.

Lemma dSymbols_lookup_spec (name : list byte) (hash : dy_hash_t) :
  let i := hash mod capacity (symbols s) in
  ∃ l, chains !! N.to_nat i = Some l ∧
       dSymbols_lookup s name (N.of_nat (length name)) hash =
       Ok (match list_find (matches (symheap s) name (N.of_nat (length name)) hash) l with
           | Some (k, _) => (nth_slot (BucketSlot i) l k, true)
           | None => (nth_slot (BucketSlot i) l (length l), false)
           end).
Proof.
  intros i. set (len := N.of_nat (length name)).
  destruct (lookup_lt_is_Some_2 chains (N.to_nat i) (bucket_index_lt hash)) as [l Hl].
  exists l. split; [done|]. unfold dSymbols_lookup.
  pose proof (wf_capacity _ _ Hwf) as Hcap.
  destruct (N.eqb_spec (capacity (symbols s)) 0) as [E|_]; [lia|].
  destruct (table_chain _ _ Hl) as (p & Hp & Hc).
  eapply lookup_loop_spec; [done | done | |].
  - intros a Ha. by eapply table_chain_key.
  - unfold chain_fuel.
    pose proof (chain_length _ _ _ Hc
                  (NoDup_concat_lookup _ _ _ (wf_nodup _ _ Hwf) Hl)). lia.
Qed.

Lemma lookup_symbol_spec (name : list byte) (hash : dy_hash_t) :
  let i := hash mod capacity (symbols s) in
  ∃ l, chains !! N.to_nat i = Some l ∧
       lookup_symbol s name (N.of_nat (length name)) hash =
       Ok (snd <$> list_find (matches (symheap s) name (N.of_nat (length name)) hash) l).
Proof.
  intros i. set (len := N.of_nat (length name)). destruct (dSymbols_lookup_spec name hash) as (l & Hl & Hlk).
  exists l. split; [done|]. unfold lookup_symbol. fold len in Hlk |- *. rewrite Hlk.
  cbn [mbind res_bind].
  destruct (list_find _ l) as [[k b]|] eqn:Hfind; cbn -[nth_slot]; [|done].
  apply list_find_Some in Hfind as (Hkb & _).
  destruct (table_chain _ _ Hl) as (p & Hp & Hc).
  rewrite (read_nth_slot s _ p l k Hp Hc); [by rewrite Hkb|].
  apply lookup_lt_Some in Hkb. lia.
Qed.

(** A lookup reaches exactly the symbol of the table that has the key. *)
Lemma lookup_symbol_iff (name : list byte) (hash : dy_hash_t) a :
  lookup_symbol s name (N.of_nat (length name)) hash = Ok (Some a) ↔
  a ∈ concat chains ∧ key_of (symheap s) a = Some (hash, N.of_nat (length name), name).
Proof.
  destruct (lookup_symbol_spec name hash) as (l & Hl & ->).
  set (len := N.of_nat (length name)). split.
  - intros [= H]. destruct (list_find _ l) as [[k b]|] eqn:Hfind; [|done].
    simpl in H. injection H as ->.
    apply list_find_Some in Hfind as (Hkb & Hm & _).
    split; [|done]. apply elem_of_concat. exists (N.to_nat (hash mod capacity (symbols s))), l.
    split; [done|]. by eapply list_elem_of_lookup_2.
  - intros [Ha Hkey]. apply elem_of_concat in Ha as (j & lj & Hj & Haj).
    destruct (wf_key _ _ Hwf j lj a Hj Haj) as (hs & nm & Hk & Hidx).
    rewrite Hkey in Hk. injection Hk as <- _ _. rewrite Hidx in Hl.
    rewrite Hj in Hl. injection Hl as ->.
    destruct (list_find_elem_of (matches (symheap s) name len hash) l a Haj Hkey)
      as [[k b] Hfind].
    rewrite Hfind. simpl. do 2 f_equal.
    apply list_find_Some in Hfind as (Hkb & Hm & _).
    apply (wf_unique _ _ Hwf).
    + apply elem_of_concat. exists j, l. split; [done|]. by eapply list_elem_of_lookup_2.
    + apply elem_of_concat. eauto.
    + unfold matches in Hm. by rewrite Hm, Hkey.
Qed.

Lemma lookup_symbol_None (name : list byte) (hash : dy_hash_t) :
  lookup_symbol s name (N.of_nat (length name)) hash = Ok None ↔
  ∀ a, a ∈ concat chains → key_of (symheap s) a ≠ Some (hash, N.of_nat (length name), name).
Proof.
  set (len := N.of_nat (length name)). split.
  - intros H a Ha Hk.
    assert (lookup_symbol s name len hash = Ok (Some a)) as H'.
    { apply lookup_symbol_iff. done. }
    congruence.
  - intros H. destruct (lookup_symbol_spec name hash) as (l & Hl & E).
    fold len in E. fold len. rewrite E.
    destruct (list_find _ l) as [[k b]|] eqn:Hfind; [|done]. exfalso.
    apply list_find_Some in Hfind as (Hkb & Hm & _).
    apply (H b); [|done]. apply elem_of_concat. do 2 eexists. split; [done|].
    by eapply list_elem_of_lookup_2.
Qed.

Lemma lookup_symbol_total (name : list byte) (hash : dy_hash_t) :
  ∃ r, lookup_symbol s name (N.of_nat (length name)) hash = Ok r.
Proof. destruct (lookup_symbol_spec name hash) as (l & _ & ->). eauto. Qed.
End TableLookup.

(** ** Clearing a new array *)

Lemma null_fill_spec base : ∀ todo n rest,
  length rest = todo →
  null_fill todo (N.of_nat n)
    (Some (BucketArray base (replicate n None ++ rest)))
  = Ok (Some (BucketArray base (replicate (n + todo) None))).
Proof.
  induction todo as [|todo IH]; intros n rest Hlen.
  - destruct rest; [|done]. simpl. by rewrite app_nil_r, Nat.add_0_r.
  - destruct rest as [|x rest]; [done|]. injection Hlen as Hlen.
    cbn [null_fill]. unfold write_array. cbn [array_slots array_base].
    rewrite Nat2N.id, length_app, length_replicate. simpl.
    destruct (Nat.ltb_spec n (n + S (length rest))) as [_|?]; [|lia].
    cbn [mbind res_bind].
    rewrite insert_app_r_alt by (rewrite length_replicate; lia).
    rewrite length_replicate, Nat.sub_diag. simpl.
    replace (N.of_nat n + 1) with (N.of_nat (S n))
      by (by rewrite Nat2N.inj_succ, N.add_1_r).
    replace (replicate n None ++ None :: rest)
      with (replicate (S n) (@None addr) ++ rest).
    + rewrite IH by done. do 4 f_equal. lia.
    + rewrite replicate_S_end, <- app_assoc. done.
Qed.

Lemma null_fill_fresh junk base nc :
  sizeof_ptr * nc < size_t_modulus →
  null_fill (N.to_nat nc) 0
    (Some (fresh_array junk base ((sizeof_ptr * nc) mod size_t_modulus)))
  = Ok (Some (BucketArray base (replicate (N.to_nat nc) None))).
Proof.
  intros Hb. rewrite N.mod_small by done. unfold fresh_array.
  replace (sizeof_ptr * nc / sizeof_ptr) with nc
    by (unfold sizeof_ptr; rewrite N.mul_comm, N.div_mul; done).
  pose proof (null_fill_spec base (N.to_nat nc) 0
                (junk <$> seq 0 (N.to_nat nc))) as H.
  simpl in H. apply H. by rewrite length_fmap, length_seq.
Qed.

(** ** Pushing symbols on new chains *)

Lemma push_front_length idx a chains :
  length (push_front idx a chains) = length chains.
Proof. apply length_insert. Qed.

Lemma push_all_length idx l chains :
  length (push_all idx l chains) = length chains.
Proof.
  revert chains. induction l as [|a l IH]; intros chains; [done|].
  simpl. fold (push_all idx l (push_front idx a chains)).
  by rewrite IH, push_front_length.
Qed.

Lemma push_all_app idx l1 l2 chains :
  push_all idx (l1 ++ l2) chains = push_all idx l2 (push_all idx l1 chains).
Proof. apply foldl_app. Qed.

Lemma concat_insert_cons (ls : list (list addr)) i l a :
  ls !! i = Some l → concat (<[i := a :: l]> ls) ≡ₚ a :: concat ls.
Proof.
  revert i. induction ls as [|l0 ls IH]; intros i Hi; [done|].
  destruct i as [|i]; simpl in *.
  - by injection Hi as ->.
  - rewrite IH by done. by rewrite Permutation_middle.
Qed.

Lemma push_front_concat idx a chains :
  (idx a < length chains)%nat →
  concat (push_front idx a chains) ≡ₚ a :: concat chains.
Proof.
  intros Hi. unfold push_front.
  destruct (lookup_lt_is_Some_2 chains (idx a) Hi) as [l Hl].
  rewrite Hl. simpl. by apply concat_insert_cons.
Qed.

Lemma push_all_concat idx l chains :
  (∀ a, a ∈ l → (idx a < length chains)%nat) →
  concat (push_all idx l chains) ≡ₚ l ++ concat chains.
Proof.
  revert chains. induction l as [|a l IH]; intros chains Hi; [done|].
  simpl. fold (push_all idx l (push_front idx a chains)).
  rewrite IH.
  - rewrite push_front_concat by (apply Hi; left). by rewrite Permutation_middle.
  - intros b Hb. rewrite push_front_length. apply Hi. by right.
Qed.

Lemma push_front_lookup idx a chains i l b :
  push_front idx a chains !! i = Some l → b ∈ l →
  (b = a ∧ idx a = i) ∨ (∃ l0, chains !! i = Some l0 ∧ b ∈ l0).
Proof.
  unfold push_front. intros Hl Hb.
  destruct (decide (idx a = i)) as [<-|Hne].
  - apply list_lookup_insert_Some in Hl as [(_ & <- & _)|(? & _)]; [|done].
    apply elem_of_cons in Hb as [->|Hb]; [by left|]. right.
    destruct (chains !! idx a) as [l0|]; [eauto | by apply elem_of_nil in Hb].
  - rewrite list_lookup_insert_ne in Hl by done. right. eauto.
Qed.

Lemma push_all_lookup idx l chains i li b :
  push_all idx l chains !! i = Some li → b ∈ li →
  (b ∈ l ∧ idx b = i) ∨ (∃ l0, chains !! i = Some l0 ∧ b ∈ l0).
Proof.
  revert chains. induction l as [|a l IH]; intros chains Hl Hb.
  - right. eauto.
  - simpl in Hl. fold (push_all idx l (push_front idx a chains)) in Hl.
    destruct (IH _ Hl Hb) as [[? ?]|(l0 & Hl0 & Hb0)].
    + left. split; [by right | done].
    + destruct (push_front_lookup _ _ _ _ _ _ Hl0 Hb0) as [[-> ?]|?].
      * left. split; [by left | done].
      * by right.
Qed.

Lemma chains_frame h h' (slots : list (option addr)) (chs : list (list addr)) :
  Forall2 (chain h) slots chs →
  (∀ a, a ∈ concat chs → next_in_table <$> h' !! a = next_in_table <$> h !! a) →
  Forall2 (chain h') slots chs.
Proof.
  induction 1 as [|p l slots chs Hc HF IH]; intros Hsame; constructor.
  - eapply chain_frame; [done|]. intros a Ha. apply Hsame. simpl.
    apply elem_of_app. by left.
  - apply IH. intros a Ha. apply Hsame. simpl. apply elem_of_app. by right.
Qed.

Lemma key_of_set_next h a sym v b :
  h !! a = Some sym →
  key_of (<[a := set_next_in_table sym v]> h) b = key_of h b.
Proof.
  intros Ha. unfold key_of. destruct (decide (a = b)) as [<-|Hne].
  - by rewrite lookup_insert_eq, Ha.
  - by rewrite lookup_insert_ne.
Qed.

Section Rehash.
Variables (base : addr) (new_capacity : N) (idx : addr → nat).
Hypothesis Hnc : 0 < new_capacity.

Lemma rehash_chain_spec l : ∀ fuel p nslots nch h,
  chain h p l → NoDup l → (∀ a, a ∈ l → a ∉ concat nch) →
  (∀ a, a ∈ l → indexed new_capacity idx h a) →
  Forall2 (chain h) nslots nch → length nch = N.to_nat new_capacity →
  (length l < fuel)%nat →
  ∃ nslots' h',
    rehash_chain fuel new_capacity p (Some (BucketArray base nslots)) h
      = Ok (Some (BucketArray base nslots'), h') ∧
    Forall2 (chain h') nslots' (push_all idx l nch) ∧
    (∀ a, key_of h' a = key_of h a) ∧
    (∀ a, a ∉ l → h' !! a = h !! a).
Proof.
  induction l as [|a l IH]; intros fuel p nslots nch h Hc Hnd Hnew Hidx HF Hlen Hf.
  - destruct fuel; [simpl in Hf; lia|]. simpl in Hc. subst p.
    exists nslots, h. by repeat split.
  - destruct fuel as [|fuel]; [simpl in Hf; lia|].
    destruct Hc as (-> & sym & Ha & Hc).
    apply NoDup_cons in Hnd as [Hal Hnd].
    destruct (Hidx a ltac:(left)) as (sym' & Ha' & Hj).
    rewrite Ha in Ha'. injection Ha' as <-.
    assert (idx a < length nch)%nat as Hjlt.
    { rewrite Hj, Hlen. pose proof (N.mod_lt (sym_hash sym) new_capacity). lia. }
    destruct (lookup_lt_is_Some_2 nch (idx a) Hjlt) as [lj Hlj].
    destruct (Forall2_lookup_r _ _ _ _ _ HF Hlj) as (first & Hfirst & Hcj).
    set (h1 := <[a := set_next_in_table sym first]> h).
    assert (∀ b, b ≠ a → h1 !! b = h !! b) as Hh1.
    { intros b Hb. unfold h1. by rewrite lookup_insert_ne. }
    assert (a ∉ concat nch) as Hanew by (apply Hnew; left).
    assert (Forall2 (chain h1) nslots nch) as HF1.
    { eapply chains_frame; [done|]. intros b Hb. rewrite Hh1; [done|].
      by intros ->. }
    assert (Forall2 (chain h1) (<[idx a := Some a]> nslots) (push_front idx a nch))
      as HF2.
    { unfold push_front. rewrite Hlj. simpl. apply Forall2_insert; [done|].
      split; [done|]. exists (set_next_in_table sym first).
      split; [unfold h1; by rewrite lookup_insert_eq|]. simpl.
      eapply Forall2_lookup_lr; [exact HF1 | done | done]. }
    destruct (IH fuel (next_in_table sym) (<[idx a := Some a]> nslots)
                (push_front idx a nch) h1) as (nslots' & h' & Hrun & HF' & Hkey & Hfr).
    + eapply chain_frame; [done|]. intros b Hb. rewrite Hh1; [done|]. by intros ->.
    + done.
    + intros b Hb. rewrite push_front_concat by done.
      intros [->|Hb']%elem_of_cons; [done|]. apply (Hnew b); [by right | done].
    + intros b Hb. destruct (Hidx b ltac:(by right)) as (symb & Hsb & Hib).
      exists symb. split; [|done]. rewrite Hh1; [done|]. by intros ->.
    + done.
    + by rewrite push_front_length.
    + simpl in Hf. lia.
    + exists nslots', h'. split; [|split; [done|split]].
      * cbn [rehash_chain]. unfold load_sym. rewrite Ha. cbn [mbind res_bind].
        destruct (N.eqb_spec new_capacity 0) as [?|_]; [lia|].
        unfold read_array, write_array. cbn [array_slots array_base].
        rewrite <- !Hj, Hfirst. cbn [mbind res_bind].
        destruct (Nat.ltb_spec (idx a) (length nslots)) as [_|Hge].
        -- cbn [mbind res_bind]. exact Hrun.
        -- apply Forall2_length in HF. lia.
      * intros b. rewrite Hkey. unfold h1. by apply key_of_set_next.
      * intros b Hb. rewrite Hfr by (intros ?; apply Hb; by right).
        apply Hh1. intros ->. apply Hb. left.
Qed.

Lemma rehash_buckets_spec obase oslots rest : ∀ i nslots nch h,
  (∀ k l, rest !! k = Some l →
          ∃ p, oslots !! (i + k)%nat = Some p ∧ chain h p l) →
  NoDup (concat rest) → (∀ a, a ∈ concat rest → a ∉ concat nch) →
  (∀ a, a ∈ concat rest → indexed new_capacity idx h a) →
  Forall2 (chain h) nslots nch → length nch = N.to_nat new_capacity →
  ∃ nslots' h',
    rehash_buckets (length rest) (N.of_nat i) (Some (BucketArray obase oslots))
      new_capacity (Some (BucketArray base nslots)) h
      = Ok (Some (BucketArray base nslots'), h') ∧
    Forall2 (chain h') nslots' (push_all idx (concat rest) nch) ∧
    (∀ a, key_of h' a = key_of h a) ∧
    (∀ a, a ∉ concat rest → h' !! a = h !! a).
Proof.
  induction rest as [|l rest IH]; intros i nslots nch h Hold Hnd Hnew Hidx HF Hlen.
  - exists nslots, h. by repeat split.
  - simpl in Hnd. apply NoDup_app in Hnd as (Hndl & Hdis & Hndr).
    destruct (Hold 0%nat l eq_refl) as (p & Hp & Hc). rewrite Nat.add_0_r in Hp.
    destruct (rehash_chain_spec l (chain_fuel h) p nslots nch h Hc Hndl)
      as (nslots1 & h1 & Hrun1 & HF1 & Hkey1 & Hfr1).
    { intros a Ha. apply Hnew. simpl. apply elem_of_app. by left. }
    { intros a Ha. apply Hidx. simpl. apply elem_of_app. by left. }
    { done. }
    { done. }
    { unfold chain_fuel. pose proof (chain_length _ _ _ Hc Hndl). lia. }
    destruct (IH (S i) nslots1 (push_all idx l nch) h1)
      as (nslots2 & h2 & Hrun2 & HF2 & Hkey2 & Hfr2).
    + intros k lk Hk. destruct (Hold (S k) lk Hk) as (pk & Hpk & Hck).
      exists pk. split; [by rewrite <- Nat.add_succ_comm in Hpk|].
      eapply chain_frame; [done|]. intros a Ha. rewrite Hfr1; [done|].
      intros Hal. apply (Hdis a Hal). apply elem_of_concat. eauto.
    + done.
    + intros a Ha. rewrite push_all_concat.
      * intros [Hal|Han]%elem_of_app; [by apply (Hdis a Hal)|].
        apply (Hnew a); [|done]. simpl. apply elem_of_app. by right.
      * intros b Hb. destruct (Hidx b) as (sym & _ & ->).
        { simpl. apply elem_of_app. by left. }
        rewrite Hlen. pose proof (N.mod_lt (sym_hash sym) new_capacity). lia.
    + intros a Ha. destruct (Hidx a) as (sym & Hs & Hi).
      { simpl. apply elem_of_app. by right. }
      exists sym. split; [|done]. rewrite Hfr1; [done|].
      intros Hal. by apply (Hdis a Hal).
    + done.
    + by rewrite push_all_length.
    + exists nslots2, h2. split; [|split; [|split]].
      * cbn [rehash_buckets length]. unfold read_array at 1.
        cbn [array_slots]. rewrite Nat2N.id, Hp. cbn [mbind res_bind].
        rewrite Hrun1. cbn [mbind res_bind].
        replace (N.of_nat i + 1) with (N.of_nat (S i))
          by (by rewrite Nat2N.inj_succ, N.add_1_r).
        exact Hrun2.
      * simpl. by rewrite push_all_app.
      * intros a. by rewrite Hkey2, Hkey1.
      * intros a Ha. simpl in Ha. rewrite elem_of_app in Ha.
        rewrite Hfr2, Hfr1; tauto.
Qed.
End Rehash.

Lemma empty_chains h n :
  Forall2 (chain h) (replicate n None) (replicate n []).
Proof. induction n; constructor; done. Qed.

Lemma key_of_Some_lookup h a hs ln nm :
  key_of h a = Some (hs, ln, nm) →
  ∃ sym, h !! a = Some sym ∧ sym_hash sym = hs ∧ sym_length sym = ln ∧
         sym_name sym = nm.
Proof.
  unfold key_of. destruct (h !! a) as [sym|]; [|done]. intros [= <- <- <-]. eauto.
Qed.

Lemma alloc_call_log {UD} (allocator : dysl_allocator UD) ptr old new al r al1 :
  call_allocator allocator ptr old new al = (r, al1) →
  calls al1 = calls al ++ [AllocCall ptr old new r].
Proof.
  unfold call_allocator.
  destruct (fn allocator (user_data al) ptr old new) as [r' ud'].
  by intros [= <- <-].
Qed.

Section Resize.
Context {UD : Type}.
Variable junk : nat → option addr.
Variables (s : sym_store) (chains : list (list addr)).
Hypothesis Hwf : table_wf s chains.
Variables (allocator : dysl_allocator UD) (al : alloc_state UD).

Lemma rehashed_concat nc :
  0 < nc → concat (rehashed (symheap s) nc chains) ≡ₚ concat chains.
Proof.
  intros Hnc. unfold rehashed. rewrite push_all_concat.
  - by rewrite concat_replicate_nil, app_nil_r.
  - intros a _. rewrite length_replicate. unfold hash_index.
    destruct (symheap s !! a) as [sym|]; simpl; [|lia].
    pose proof (N.mod_lt (sym_hash sym) nc). lia.
Qed.

Lemma dSymbols_resize_success nc base al1 :
  0 < nc → sizeof_ptr * nc < size_t_modulus →
  dAlloc_alloc allocator ((sizeof_ptr * nc) mod size_t_modulus) al
    = (Some base, al1) →
  ∃ s' al2,
    dSymbols_resize junk s nc allocator al = Ok (s', al2) ∧
    table_wf s' (rehashed (symheap s) nc chains) ∧
    count (symbols s') = count (symbols s) ∧
    capacity (symbols s') = nc ∧
    (∀ a, key_of (symheap s') a = key_of (symheap s) a) ∧
    (∀ a, a ∉ concat chains → symheap s' !! a = symheap s !! a).
Proof.
  intros Hnc Hbytes Halloc.
  destruct (wf_buckets _ _ Hwf) as (arr & Harr & HF).
  destruct arr as [obase oslots]. simpl in HF.
  set (idx := hash_index (symheap s) nc).
  assert (∀ a, a ∈ concat chains → indexed nc idx (symheap s) a) as Hidx.
  { intros a (i & l & Hl & Ha)%elem_of_concat.
    destruct (wf_key _ _ Hwf i l a Hl Ha) as (hs & nm & Hk & _).
    apply key_of_Some_lookup in Hk as (sym & Hs & <- & _).
    exists sym. split; [done|]. unfold idx, hash_index. by rewrite Hs. }
  destruct (rehash_buckets_spec base nc idx Hnc obase oslots chains 0%nat
              (replicate (N.to_nat nc) None) (replicate (N.to_nat nc) [])
              (symheap s))
    as (nslots' & h' & Hrun & HF' & Hkey & Hfr).
  { intros k l Hl. destruct (Forall2_lookup_r _ _ _ _ _ HF Hl) as (p & Hp & Hc).
    eauto. }
  { apply (wf_nodup _ _ Hwf). }
  { intros a _. rewrite concat_replicate_nil. apply not_elem_of_nil. }
  { done. }
  { apply empty_chains. }
  { apply length_replicate. }
  destruct (dAlloc_free allocator (array_base <$> buckets (symbols s)) al1)
    as [r al2] eqn:Hfree.
  eexists _, al2. split; [|split; [|split; [|split; [|split]]]].
  - unfold dSymbols_resize. rewrite Halloc.
    rewrite null_fill_fresh by done. cbn [mbind res_bind].
    rewrite Hfree.
    rewrite Harr, <- (wf_length _ _ Hwf). change 0 with (N.of_nat 0).
    rewrite Hrun. cbn [mbind res_bind]. reflexivity.
  - split; cbn [symbols symheap capacity buckets count].
    + done.
    + eexists. split; [done|]. exact HF'.
    + unfold rehashed. by rewrite push_all_length, length_replicate.
    + rewrite rehashed_concat by done. apply (wf_nodup _ _ Hwf).
    + intros i l a Hl Ha.
      destruct (push_all_lookup _ _ _ _ _ _ Hl Ha) as [[Hac Hi]|(l0 & Hl0 & Ha0)].
      * apply elem_of_concat in Hac as (j & lj & Hlj & Haj).
        destruct (wf_key _ _ Hwf j lj a Hlj Haj) as (hs & nm & Hk & _).
        exists hs, nm. rewrite Hkey. split; [done|].
        apply key_of_Some_lookup in Hk as (sym & Hs & <- & _).
        rewrite <- Hi. unfold hash_index. by rewrite Hs.
      * apply lookup_replicate in Hl0 as [-> _]. by apply elem_of_nil in Ha0.
    + intros a b Ha Hb. rewrite !Hkey.
      rewrite rehashed_concat in Ha, Hb by done.
      by apply (wf_unique _ _ Hwf).
  - done.
  - done.
  - done.
  - done.
Qed.

Lemma dSymbols_resize_fail nc al1 :
  dAlloc_alloc allocator ((sizeof_ptr * nc) mod size_t_modulus) al = (None, al1) →
  dSymbols_resize junk s nc allocator al = Ok (s, al1).
Proof. intros H. unfold dSymbols_resize. by rewrite H. Qed.
End Resize.

Section ResizeClaims.
Context {UD : Type}.
Variable junk : nat → option addr.

(** C6.  The resize is abandoned when the new bucket array cannot be
    allocated: for every table (well formed or not) and every new capacity,
    if the allocator refuses the request, [dSymbols_resize] returns with the
    table exactly as it was: same bucket array, same capacity, same count,
    same symbols, hence the same result for every lookup. *)
Theorem dSymbols_resize_fail_soft (s : sym_store) (new_capacity : N)
    (allocator : dysl_allocator UD) (al al1 : alloc_state UD) :
  dAlloc_alloc allocator ((sizeof_ptr * new_capacity) mod size_t_modulus) al
    = (None, al1) →
  ∃ s', dSymbols_resize junk s new_capacity allocator al = Ok (s', al1) ∧
        s' = s ∧
        buckets (symbols s') = buckets (symbols s) ∧
        capacity (symbols s') = capacity (symbols s) ∧
        count (symbols s') = count (symbols s) ∧
        symheap s' = symheap s ∧
        ∀ name length hash,
          dSymbols_lookup s' name length hash = dSymbols_lookup s name length hash.
Proof.
  intros H. exists s. split; [|by repeat split].
  unfold dSymbols_resize. by rewrite H.
Qed.

(** C4.  A resize keeps every symbol reachable.  The table is well formed,
    the byte size of the new array fits in [size_t], and the allocator
    refuses requests of no bytes as documented.  Then [dSymbols_resize]
    returns, whether the allocation succeeds or not, the table is still
    well formed and holds the same symbols with the same hash, length and
    name, each once, and [count] is unchanged; a lookup that reached a
    symbol before reaches the same symbol after, and a lookup that found
    nothing still finds nothing. *)
Theorem dSymbols_resize_preserves_membership (s : sym_store)
    (chains : list (list addr)) (new_capacity : N)
    (allocator : dysl_allocator UD) (al : alloc_state UD) :
  table_wf s chains →
  sizeof_ptr * new_capacity < size_t_modulus →
  refuses_empty_requests allocator →
  ∃ s' al' chains',
    dSymbols_resize junk s new_capacity allocator al = Ok (s', al') ∧
    table_wf s' chains' ∧ concat chains' ≡ₚ concat chains ∧
    count (symbols s') = count (symbols s) ∧
    (∀ a, key_of (symheap s') a = key_of (symheap s) a) ∧
    (∀ name hash r,
       lookup_symbol s name (N.of_nat (length name)) hash = Ok r →
       lookup_symbol s' name (N.of_nat (length name)) hash = Ok r).
Proof.
  intros Hwf Hbytes Hempty.
  destruct (dAlloc_alloc allocator ((sizeof_ptr * new_capacity) mod size_t_modulus) al)
    as [[base|] al1] eqn:Halloc.
  - assert (0 < new_capacity) as Hnc.
    { destruct (N.eq_dec new_capacity 0) as [->|?]; [|lia]. exfalso.
      change ((sizeof_ptr * 0) mod size_t_modulus) with 0 in Halloc.
      unfold dAlloc_alloc, call_allocator in Halloc.
      pose proof (Hempty (user_data al) 0) as He.
      destruct (fn allocator (user_data al) None 0 0) as [r ud']. simpl in He.
      injection Halloc as Hr _. congruence. }
    destruct (dSymbols_resize_success junk s chains Hwf allocator al
                new_capacity base al1 Hnc Hbytes Halloc)
      as (s' & al2 & Hrun & Hwf' & Hcount & Hcap & Hkey & Hfr).
    exists s', al2, (rehashed (symheap s) new_capacity chains).
    split; [done|]. split; [done|]. split; [by apply rehashed_concat|].
    split; [done|]. split; [done|].
    intros name hash [a|] Hl.
    + apply (lookup_symbol_iff s chains Hwf) in Hl as [Ha Hk].
      apply (lookup_symbol_iff s' _ Hwf'). rewrite Hkey.
      split; [|done]. by rewrite rehashed_concat.
    + apply (lookup_symbol_None s' _ Hwf'). intros a Ha. rewrite Hkey.
      rewrite rehashed_concat in Ha by done.
      by apply (lookup_symbol_None s chains Hwf).
  - exists s, al1, chains. split; [by apply dSymbols_resize_fail|].
    split; [done|]. split; [done|]. split; [done|]. split; done.
Qed.
End ResizeClaims.

(** ** The grow policy *)

Lemma grow_loop_spec d : d ≤ 2 ^ 48 → ∀ k nc,
  0 < nc → 4 * d ≤ 3 * nc * 2 ^ N.of_nat k →
  ∃ nc', grow_loop (S k) nc d = Ok nc' ∧ nc ≤ nc' ∧ 4 * d ≤ 3 * nc' ∧
         (nc' = nc ∨ 3 * nc' < 8 * d).
Proof.
  intros Hd. induction k as [|k IH]; intros nc Hnc Hk.
  - simpl in Hk. cbn [grow_loop]. unfold below_load_factor.
    destruct (N.ltb_spec (3 * nc) (4 * d)) as [?|?]; [lia|].
    exists nc. repeat split; [lia | lia | by left].
  - cbn [grow_loop]. unfold below_load_factor.
    destruct (N.ltb_spec (3 * nc) (4 * d)) as [Hlt|Hge].
    + assert (2 ^ 48 < size_t_modulus) as Hm by (by vm_compute).
      assert (nc * 2 < size_t_modulus) as Hsmall.
      { assert (2 ^ 48 * 4 < size_t_modulus) by (by vm_compute). lia. }
      rewrite (N.mod_small _ _ Hsmall).
      destruct (IH (nc * 2)) as (nc' & Hrun & Hle & Hok & Hcase); [lia| |].
      { rewrite Nat2N.inj_succ, N.pow_succ_r' in Hk. lia. }
      exists nc'. split; [exact Hrun|]. split; [lia|]. split; [done|].
      right. destruct Hcase as [->|?]; lia.
    + exists nc. repeat split; [lia | lia | by left].
Qed.

Lemma grow_loop_65 d nc :
  d ≤ 2 ^ 48 → 0 < nc →
  ∃ nc', grow_loop 65 nc d = Ok nc' ∧ nc ≤ nc' ∧ 4 * d ≤ 3 * nc' ∧
         (nc' = nc ∨ 3 * nc' < 8 * d).
Proof.
  intros Hd Hnc. apply (grow_loop_spec d Hd 64 nc Hnc).
  assert (4 * 2 ^ 48 ≤ 3 * 2 ^ N.of_nat 64) as H by (by vm_compute).
  assert (3 * 2 ^ N.of_nat 64 ≤ 3 * nc * 2 ^ N.of_nat 64) by nia.
  lia.
Qed.

Lemma table_wf_set_count s chains c :
  table_wf s chains → table_wf (set_count s c) chains.
Proof. intros [? ? ? ? ? ?]. by split. Qed.

Lemma read_slot_set_count s c sl : read_slot (set_count s c) sl = read_slot s sl.
Proof. by destruct sl. Qed.

Section Intern.
Context {UD : Type}.
Variable junk : nat → option addr.
Variable allocator : dysl_allocator UD.

(** What [dSymbols_ensure_capacity] does when the grow test has fired. *)
Lemma ensure_capacity_grow s chains d (al : alloc_state UD) :
  table_wf s chains → capacity (symbols s) < 2 ^ 51 → d ≤ 2 ^ 48 →
  dSymbols_should_grow (symbols s) d = true →
  ∃ nc s' al' chains',
    grow_loop 65 (capacity (symbols s)) d = Ok nc ∧
    dSymbols_ensure_capacity junk s d allocator al = Ok (s', al') ∧
    table_wf s' chains' ∧ concat chains' ≡ₚ concat chains ∧
    count (symbols s') = count (symbols s) ∧
    capacity (symbols s') < 2 ^ 51 ∧
    (∀ a, key_of (symheap s') a = key_of (symheap s) a) ∧
    (∀ a, a ∉ concat chains → symheap s' !! a = symheap s !! a) ∧
    (capacity (symbols s') = nc ∨
     capacity (symbols s') = capacity (symbols s) ∧
     fst (dAlloc_alloc allocator ((sizeof_ptr * nc) mod size_t_modulus) al) = None).
Proof.
  intros Hwf Hcap Hd Hgrow.
  pose proof (wf_capacity _ _ Hwf) as Hpos.
  destruct (grow_loop_65 d (capacity (symbols s)) Hd Hpos)
    as (nc & Hrun & Hle & Hok & Hcase).
  assert (nc < 2 ^ 51) as Hnc51.
  { assert (8 * 2 ^ 48 < 3 * 2 ^ 51) by (by vm_compute).
    destruct Hcase as [->|?]; lia. }
  assert (sizeof_ptr * nc < size_t_modulus) as Hbytes.
  { assert (sizeof_ptr * 2 ^ 51 < size_t_modulus) by (by vm_compute).
    unfold sizeof_ptr in *. lia. }
  exists nc.
  assert (dSymbols_ensure_capacity junk s d allocator al
          = dSymbols_resize junk s nc allocator al) as ->.
  { unfold dSymbols_ensure_capacity. unfold dSymbols_should_grow in Hgrow.
    rewrite Hgrow, Hrun. done. }
  destruct (dAlloc_alloc allocator ((sizeof_ptr * nc) mod size_t_modulus) al)
    as [[base|] al1] eqn:Halloc.
  - destruct (dSymbols_resize_success junk s chains Hwf allocator al nc base al1
                ltac:(lia) Hbytes Halloc)
      as (s' & al2 & Hres & Hwf' & Hcount & Hcap' & Hkey & Hfr).
    exists s', al2, (rehashed (symheap s) nc chains).
    split; [done|]. split; [done|]. split; [done|].
    split; [apply rehashed_concat; lia|].
    split; [done|]. split; [by rewrite Hcap'|]. split; [done|]. split; [done|].
    by left.
  - exists s, al1, chains. split; [done|].
    split; [by apply dSymbols_resize_fail|].
    split; [done|]. split; [done|]. split; [done|]. split; [done|].
    split; [done|]. split; [done|]. by right.
Qed.

(** Interning a name that is in the table *)
Lemma dSymbols_intern_found s chains (al : alloc_state UD) name hash a :
  table_wf s chains → a ∈ concat chains →
  key_of (symheap s) a = Some (hash, N.of_nat (length name), name) →
  ∃ sl, dSymbols_intern junk s name (N.of_nat (length name)) hash allocator al
          = Ok (sl, s, al) ∧
        slot_of s chains sl a.
Proof.
  intros Hwf Ha Hkey.
  destruct (dSymbols_lookup_spec s chains Hwf name hash) as (l & Hl & Hlk).
  assert (lookup_symbol s name (N.of_nat (length name)) hash = Ok (Some a)) as Hsym
    by by apply (lookup_symbol_iff s chains Hwf).
  destruct (lookup_symbol_spec s chains Hwf name hash) as (l' & Hl' & Hspec).
  rewrite Hl in Hl'. injection Hl' as <-. rewrite Hspec in Hsym.
  destruct (list_find _ l) as [[k b]|] eqn:Hfind; [|done].
  injection Hsym as ->.
  exists (nth_slot (BucketSlot (hash mod capacity (symbols s))) l k).
  split.
  - unfold dSymbols_intern. rewrite Hlk. done.
  - apply list_find_Some in Hfind as (Hk & _).
    exists (hash mod capacity (symbols s)), l, k. split; [|done].
    apply N.mod_lt. pose proof (wf_capacity _ _ Hwf). lia.
Qed.

(** Interning a name that is not in the table *)
Lemma dSymbols_intern_new s chains (al : alloc_state UD) name hash :
  table_wf s chains → capacity (symbols s) < 2 ^ 51 →
  count (symbols s) < 2 ^ 48 →
  (∀ b, b ∈ concat chains →
        key_of (symheap s) b ≠ Some (hash, N.of_nat (length name), name)) →
  ∃ s1 al1 chains1 l,
    dSymbols_intern junk s name (N.of_nat (length name)) hash allocator al
      = Ok (nth_slot (BucketSlot (hash mod capacity (symbols s1))) l (length l),
            set_count s1 (count (symbols s) + 1), al1) ∧
    table_wf s1 chains1 ∧
    chains1 !! N.to_nat (hash mod capacity (symbols s1)) = Some l ∧
    concat chains1 ≡ₚ concat chains ∧
    capacity (symbols s1) < 2 ^ 51 ∧
    (∀ a, key_of (symheap s1) a = key_of (symheap s) a) ∧
    (∀ a, a ∉ concat chains → symheap s1 !! a = symheap s !! a) ∧
    (if dSymbols_should_grow (symbols s) (count (symbols s) + 1)
     then ∃ nc, grow_loop 65 (capacity (symbols s)) (count (symbols s) + 1) = Ok nc ∧
                (capacity (symbols s1) = nc ∨
                 capacity (symbols s1) = capacity (symbols s) ∧
                 fst (dAlloc_alloc allocator
                        ((sizeof_ptr * nc) mod size_t_modulus) al) = None)
     else capacity (symbols s1) = capacity (symbols s)).
Proof.
  intros Hwf Hcap Hcount Hnew.
  destruct (dSymbols_lookup_spec s chains Hwf name hash) as (l & Hl & Hlk).
  assert (list_find (matches (symheap s) name (N.of_nat (length name)) hash) l = None)
    as Hnone.
  { apply list_find_None, Forall_forall. intros b Hb. apply Hnew.
    apply elem_of_concat. eauto. }
  rewrite Hnone in Hlk.
  assert ((count (symbols s) + 1) mod size_t_modulus = count (symbols s) + 1) as Hmod.
  { apply N.mod_small. assert (2 ^ 48 + 1 < size_t_modulus) by (by vm_compute). lia. }
  unfold dSymbols_intern. rewrite Hlk. cbn [mbind res_bind]. rewrite Hmod.
  destruct (dSymbols_should_grow (symbols s) (count (symbols s) + 1)) eqn:Hgrow.
  - destruct (ensure_capacity_grow s chains (count (symbols s) + 1) al Hwf Hcap
                ltac:(lia) Hgrow)
      as (nc & s1 & al1 & chains1 & Hloop & Hens & Hwf1 & Hperm & Hcnt & Hcap1
          & Hkey & Hfr & Hcase).
    rewrite Hens. cbn [mbind res_bind].
    destruct (dSymbols_lookup_spec s1 chains1 Hwf1 name hash) as (l1 & Hl1 & Hlk1).
    assert (list_find (matches (symheap s1) name (N.of_nat (length name)) hash) l1
            = None) as Hnone1.
    { apply list_find_None, Forall_forall. intros b Hb. unfold matches.
      rewrite Hkey. apply Hnew. rewrite <- Hperm. apply elem_of_concat. eauto. }
    rewrite Hnone1 in Hlk1. rewrite Hlk1. cbn [mbind res_bind].
    exists s1, al1, chains1, l1. split; [done|]. split; [done|]. split; [done|].
    split; [done|]. split; [done|]. split; [done|]. split; [done|]. eauto.
  - exists s, al, chains, l. split; [done|]. split; [done|]. split; [done|].
    split; [done|]. split; [done|]. split; [done|]. split; done.
Qed.
End Intern.

(** ** Placing a new symbol at the end of its chain *)

Lemma chain_append h p l b a syma symb :
  chain h p (l ++ [b]) → NoDup (l ++ [b]) → a ∉ l ++ [b] →
  h !! a = Some syma → next_in_table syma = None → h !! b = Some symb →
  chain (<[b := set_next_in_table symb (Some a)]> h) p (l ++ [b; a]).
Proof.
  intros Hc Hnd Ha Hsa Hna Hsb. revert p Hc Hnd Ha.
  induction l as [|c l IH]; intros p Hc Hnd Ha.
  - destruct Hc as (-> & sym & Hb & Hnil). simpl in Hnil.
    assert (a ≠ b) as Hab by (intros ->; apply Ha; left).
    split; [done|]. exists (set_next_in_table symb (Some a)).
    split; [by rewrite lookup_insert_eq|]. simpl. split; [done|].
    exists syma. split; [by rewrite lookup_insert_ne|]. done.
  - destruct Hc as (-> & sym & Hc0 & Hc). simpl in Hnd.
    apply NoDup_cons in Hnd as [Hcl Hnd].
    split; [done|]. exists sym. split.
    + rewrite lookup_insert_ne; [done|]. intros ->. apply Hcl.
      apply elem_of_app. right. left.
    + apply IH; [done | done |]. intros ?. apply Ha. by right.
Qed.

Lemma concat_insert_snoc (ls : list (list addr)) i l a :
  ls !! i = Some l → concat (<[i := l ++ [a]]> ls) ≡ₚ a :: concat ls.
Proof.
  revert i. induction ls as [|l0 ls IH]; intros i Hi; [done|].
  destruct i as [|i]; simpl in *.
  - injection Hi as ->. rewrite <- app_assoc. simpl.
    by rewrite <- Permutation_middle.
  - rewrite IH by done. by rewrite Permutation_middle.
Qed.

Lemma nth_slot_end sl (l : list addr) b :
  nth_slot sl (l ++ [b]) (length (l ++ [b])) = NextSlot b.
Proof.
  rewrite length_app. simpl. rewrite Nat.add_1_r. simpl.
  by rewrite lookup_app_r, Nat.sub_diag by lia.
Qed.

Lemma nth_slot_app sl (l : list addr) a k :
  (k ≤ length l)%nat → nth_slot sl (l ++ [a]) k = nth_slot sl l k.
Proof.
  intros Hk. destruct k as [|k]; [done|]. simpl.
  by rewrite lookup_app_l by lia.
Qed.

Lemma table_elem_key s chains a :
  table_wf s chains → a ∈ concat chains →
  ∃ hs nm, key_of (symheap s) a = Some (hs, N.of_nat (length nm), nm).
Proof.
  intros Hwf (i & l & Hl & Ha)%elem_of_concat.
  destruct (wf_key _ _ Hwf i l a Hl Ha) as (hs & nm & Hk & _). eauto.
Qed.

Lemma table_elem_in_heap s chains a :
  table_wf s chains → a ∈ concat chains → is_Some (symheap s !! a).
Proof.
  intros Hwf Ha. destruct (table_elem_key s chains a Hwf Ha) as (hs & nm & Hk).
  apply key_of_Some_lookup in Hk as (sym & -> & _). eauto.
Qed.

Section Place.
Variables (s : sym_store) (chains : list (list addr)).
Hypothesis Hwf : table_wf s chains.
Variables (a : addr) (hd : dy_object) (name : list byte) (hash : dy_hash_t).
Let len := N.of_nat (length name).
Let i := hash mod capacity (symbols s).
Variable l : list addr.
Hypothesis Hl : chains !! N.to_nat i = Some l.
Hypothesis Hfresh : symheap s !! a = None.
Hypothesis Hnew : ∀ b, b ∈ concat chains →
  key_of (symheap s) b ≠ Some (hash, len, name).

Lemma place_symbol_spec :
  ∃ s', place_symbol a hd name len hash (nth_slot (BucketSlot i) l (length l)) s
          = Ok s' ∧
        table_wf s' (<[N.to_nat i := l ++ [a]]> chains) ∧
        key_of (symheap s') a = Some (hash, len, name) ∧
        (∀ b, b ≠ a → key_of (symheap s') b = key_of (symheap s) b) ∧
        (∀ b, symheap s !! b = None → b ≠ a → symheap s' !! b = None) ∧
        count (symbols s') = count (symbols s) ∧
        capacity (symbols s') = capacity (symbols s).
Proof using Hwf Hl Hfresh Hnew.
  destruct (wf_buckets _ _ Hwf) as (arr & Harr & HF).
  destruct arr as [base slots]. simpl in HF.
  set (newsym := DySymbol hd None len hash name).
  set (h1 := <[a := newsym]> (symheap s)).
  assert (a ∉ concat chains) as Hanot.
  { intros Ha. destruct (table_elem_in_heap s chains a Hwf Ha) as [? E]. congruence. }
  assert (∀ b, b ≠ a → h1 !! b = symheap s !! b) as Hh1.
  { intros b Hb. unfold h1. by rewrite lookup_insert_ne. }
  assert (NoDup l) as Hndl by (eapply NoDup_concat_lookup; [apply Hwf | done]).
  assert (∀ b, b ∈ l → b ∈ concat chains) as Hlsub.
  { intros b Hb. apply elem_of_concat. eauto. }
  assert (a ∉ l) as Hal by (intros ?; by apply Hanot, Hlsub).
  destruct (Forall2_lookup_r _ _ _ _ _ HF Hl) as (p & Hp & Hc).
  assert (N.to_nat i < length slots)%nat as Hilt by by eapply lookup_lt_Some.
  (* the new heap, the new array and the chain of bucket [i] *)
  assert (∃ s', place_symbol a hd name len hash
                  (nth_slot (BucketSlot i) l (length l)) s = Ok s' ∧
                (∃ arr', buckets (symbols s') = Some arr' ∧
                   length (array_slots arr') = length slots ∧
                   (∀ j, j ≠ N.to_nat i → array_slots arr' !! j = slots !! j) ∧
                   ∃ p', array_slots arr' !! N.to_nat i = Some p' ∧
                         chain (symheap s') p' (l ++ [a])) ∧
                count (symbols s') = count (symbols s) ∧
                capacity (symbols s') = capacity (symbols s) ∧
                symheap s' !! a = Some newsym ∧
                (∀ b, b ≠ a → key_of (symheap s') b = key_of (symheap s) b) ∧
                (∀ b, b ∉ l → b ≠ a → symheap s' !! b = symheap s !! b))
    as (s' & Hrun & (arr' & Harr' & Hlen' & Hother & p' & Hp' & Hc') & Hcnt & Hcap
        & Hsa & Hkeys & Hfr).
  { unfold place_symbol. fold newsym. fold h1.
    destruct l as [|b l0 _] using rev_ind.
    - (* empty chain: the bucket entry is written *)
      simpl in Hc. subst p. cbn [nth_slot length write_slot symbols].
      unfold write_array. rewrite Harr. cbn [array_slots array_base].
      destruct (Nat.ltb_spec (N.to_nat i) (length slots)) as [_|?]; [|lia].
      cbn [mbind res_bind]. eexists. split; [reflexivity|].
      cbn [symbols symheap buckets count capacity].
      split; [|split; [done|split; [done|split; [|split]]]].
      + eexists. split; [reflexivity|]. cbn [array_slots].
        split; [by rewrite length_insert|].
        split; [intros j Hj; by rewrite list_lookup_insert_ne|].
        exists (Some a). split; [by rewrite list_lookup_insert_eq|].
        split; [done|]. exists newsym. split; [apply lookup_insert_eq | done].
      + apply lookup_insert_eq.
      + intros b Hb. unfold key_of. by rewrite Hh1.
      + intros b _ Hb. by apply Hh1.
    - (* the last symbol of the chain gets a successor *)
      rewrite nth_slot_end. cbn [write_slot symheap symbols].
      assert (b ≠ a) as Hba by (intros ->; apply Hal, elem_of_app; right; left).
      destruct (table_elem_in_heap s chains b Hwf) as [symb Hsb].
      { apply Hlsub, elem_of_app. right. left. }
      unfold load_sym. rewrite Hh1, Hsb by done. cbn [mbind res_bind].
      eexists. split; [reflexivity|].
      cbn [symbols symheap buckets count capacity].
      split; [|split; [done|split; [done|split; [|split]]]].
      + exists {| array_base := base; array_slots := slots |}.
        split; [done|]. cbn [array_slots]. split; [done|]. split; [done|].
        exists p. split; [done|]. rewrite <- app_assoc. simpl.
        apply (chain_append h1 p l0 b a newsym symb).
        * eapply chain_frame; [exact Hc|]. intros c Hcl. rewrite Hh1; [done|].
          intros ->. by apply Hal.
        * done.
        * done.
        * apply lookup_insert_eq.
        * done.
        * by rewrite Hh1.
      + rewrite lookup_insert_ne by done. apply lookup_insert_eq.
      + intros c Hc'. rewrite key_of_set_next by by rewrite Hh1.
        unfold key_of. by rewrite Hh1.
      + intros c Hcl Hca. rewrite lookup_insert_ne.
        * by apply Hh1.
        * intros ->. apply Hcl, elem_of_app. right. left. }
  exists s'. split; [done|]. split; [|split; [|split; [done|split; [|done]]]].
  - split.
    + rewrite Hcap. apply Hwf.
    + exists arr'. split; [done|]. apply Forall2_lookup. intros j.
      destruct (decide (j = N.to_nat i)) as [->|Hj].
      * rewrite Hp', list_lookup_insert_eq by by eapply lookup_lt_Some.
        by constructor.
      * rewrite Hother, list_lookup_insert_ne by done.
        pose proof (proj1 (Forall2_lookup _ _ _) HF j) as Hj'.
        destruct (chains !! j) as [lj|] eqn:Hlj;
          destruct (slots !! j) as [pj|] eqn:Hpj;
          inversion Hj' as [?? Hcj|]; subst; constructor.
        eapply chain_frame; [exact Hcj|]. intros c Hcl.
        rewrite Hfr; [done| |].
        -- intros Hcl'. apply Hj.
           eapply (NoDup_concat_disjoint chains j (N.to_nat i) lj l c);
             [apply Hwf | done | done | done | done].
        -- intros ->. apply Hanot. apply elem_of_concat. eauto.
    + rewrite length_insert, Hcap. apply Hwf.
    + rewrite concat_insert_snoc by done. apply NoDup_cons. split; [done|].
      apply Hwf.
    + intros j lj c Hlj Hcl. rewrite Hcap.
      destruct (decide (c = a)) as [->|Hca].
      * exists hash, name. unfold key_of. rewrite Hsa. simpl. split; [done|].
        destruct (decide (j = N.to_nat i)) as [->|Hj]; [done|].
        rewrite list_lookup_insert_ne in Hlj by done.
        exfalso. apply Hanot, elem_of_concat. eauto.
      * rewrite Hkeys by done.
        destruct (decide (j = N.to_nat i)) as [->|Hj].
        -- rewrite list_lookup_insert_eq in Hlj by by eapply lookup_lt_Some.
           injection Hlj as <-. apply elem_of_app in Hcl as [Hcl|Hcl].
           ++ by apply (wf_key _ _ Hwf _ l).
           ++ apply list_elem_of_singleton in Hcl. done.
        -- rewrite list_lookup_insert_ne in Hlj by done.
           by apply (wf_key _ _ Hwf _ lj).
    + intros c d. rewrite !concat_insert_snoc by done.
      intros [->|Hc1]%elem_of_cons [->|Hd1]%elem_of_cons; [done| | |].
      * rewrite (Hkeys d) by (by intros ->). unfold key_of at 1. rewrite Hsa. simpl.
        intros E. exfalso. by apply (Hnew d).
      * rewrite (Hkeys c) by (by intros ->). unfold key_of at 2. rewrite Hsa. simpl.
        intros E. exfalso. by apply (Hnew c).
      * rewrite (Hkeys c), (Hkeys d) by (by intros ->). by apply Hwf.
  - unfold key_of. by rewrite Hsa.
  - intros b Hb Hba. rewrite Hfr; [done| |done].
    intros Hbl. destruct (table_elem_in_heap s chains b Hwf (Hlsub b Hbl)) as [? E].
    congruence.
Qed.
End Place.

(** ** Slots of a well-formed table *)

Lemma slot_of_elem s chains sl a : slot_of s chains sl a → a ∈ concat chains.
Proof.
  intros (i & l & k & _ & Hl & Hk & _). apply elem_of_concat.
  exists (N.to_nat i), l. split; [done|]. by eapply list_elem_of_lookup_2.
Qed.

Lemma slot_of_read s chains sl a :
  table_wf s chains → slot_of s chains sl a → read_slot s sl = Ok (Some a).
Proof.
  intros Hwf (i & l & k & _ & Hl & Hk & ->).
  destruct (table_chain s chains Hwf i l Hl) as (p & Hp & Hc).
  rewrite (read_nth_slot s _ p l k Hp Hc); [by rewrite Hk|].
  apply lookup_lt_Some in Hk. lia.
Qed.

Lemma slot_of_unique s chains sl1 sl2 a :
  table_wf s chains → slot_of s chains sl1 a → slot_of s chains sl2 a → sl1 = sl2.
Proof.
  intros Hwf (i1 & l1 & k1 & _ & Hl1 & Hk1 & ->) (i2 & l2 & k2 & _ & Hl2 & Hk2 & ->).
  assert (N.to_nat i1 = N.to_nat i2) as Hi.
  { eapply (NoDup_concat_disjoint chains _ _ l1 l2 a); [apply Hwf | done | done | |];
      by eapply list_elem_of_lookup_2. }
  apply N2Nat.inj in Hi as <-. rewrite Hl1 in Hl2. injection Hl2 as <-.
  assert (k1 = k2) as <-; [|done].
  eapply NoDup_lookup; [|done|done].
  eapply NoDup_concat_lookup; [apply Hwf | done].
Qed.

Section InternSymbol.
Context {UD : Type}.
Variable junk : nat → option addr.
Variable hashf : list byte → dy_hash_t.
Variable allocator : dysl_allocator UD.

Lemma intern_symbol_spec s chains (al : alloc_state UD) a hd name :
  table_inv hashf s chains → count (symbols s) < 2 ^ 48 →
  symheap s !! a = None →
  ∃ id sl s' al' chains',
    intern_symbol junk hashf allocator a hd name s al = Ok (id, sl, s', al') ∧
    table_inv hashf s' chains' ∧
    slot_of s' chains' sl id ∧
    key_of (symheap s') id = Some (hashf name, N.of_nat (length name), name) ∧
    (∀ b, b ∈ concat chains →
          b ∈ concat chains' ∧ key_of (symheap s') b = key_of (symheap s) b) ∧
    (∀ b, symheap s !! b = None → b ≠ a → symheap s' !! b = None) ∧
    ((id ∈ concat chains ∧ s' = s ∧ al' = al ∧ chains' = chains) ∨
     (id = a ∧
      (∀ b, b ∈ concat chains →
            key_of (symheap s) b
            ≠ Some (hashf name, N.of_nat (length name), name)) ∧
      concat chains' ≡ₚ a :: concat chains ∧
      count (symbols s') = count (symbols s) + 1 ∧
      (if dSymbols_should_grow (symbols s) (count (symbols s) + 1)
       then ∃ nc,
           grow_loop 65 (capacity (symbols s)) (count (symbols s) + 1) = Ok nc ∧
           (capacity (symbols s') = nc ∨
            capacity (symbols s') = capacity (symbols s) ∧
            fst (dAlloc_alloc allocator
                   ((sizeof_ptr * nc) mod size_t_modulus) al) = None)
       else capacity (symbols s') = capacity (symbols s)))).
Proof.
  intros [Hwf Hcount Hhash Hcap] Hroom Hfresh.
  set (len := N.of_nat (length name)). set (hash := hashf name).
  destruct (lookup_symbol_total s chains Hwf name hash) as [[b|] Hlk].
  - (* the name is in the table *)
    apply (lookup_symbol_iff s chains Hwf) in Hlk as [Hb Hkey].
    destruct (dSymbols_intern_found junk allocator s chains al name hash b Hwf Hb Hkey)
      as (sl & Hrun & Hslot).
    exists b, sl, s, al, chains. split.
    { unfold intern_symbol. cbv zeta. fold hash. rewrite Hrun. cbn [mbind res_bind].
      by rewrite (slot_of_read s chains sl b Hwf Hslot). }
    split; [by split|]. split; [done|]. split; [done|].
    split; [by intros|]. split; [by intros|]. by left.
  - (* the name is new *)
    pose proof (proj1 (lookup_symbol_None s chains Hwf name hash) Hlk) as Hnew.
    destruct (dSymbols_intern_new junk allocator s chains al name hash Hwf Hcap Hroom Hnew)
      as (s1 & al1 & chains1 & l & Hrun & Hwf1 & Hl & Hperm & Hcap1 & Hkey1 & Hfr1 & Hgrow).
    set (c := count (symbols s) + 1) in *.
    set (i := hash mod capacity (symbols s1)) in *.
    assert (a ∉ concat chains) as Hanot.
    { intros Ha. destruct (table_elem_in_heap s chains a Hwf Ha) as [? E]. congruence. }
    assert (symheap (set_count s1 c) !! a = None) as Hfresh1.
    { simpl. by rewrite Hfr1. }
    assert (∀ b, b ∈ concat chains1 →
                 key_of (symheap (set_count s1 c)) b ≠ Some (hash, len, name))
      as Hnew1.
    { intros b Hb. simpl. rewrite Hkey1. apply Hnew. by rewrite <- Hperm. }
    destruct (place_symbol_spec (set_count s1 c) chains1
                (table_wf_set_count s1 chains1 c Hwf1) a hd name hash l Hl
                Hfresh1 Hnew1)
      as (s' & Hplace & Hwf' & Hka & Hkeys & Hfr' & Hcnt' & Hcap').
    simpl in Hcnt', Hcap'.
    change (capacity (symbols (set_count s1 c))) with (capacity (symbols s1)) in *.
    fold i in Hplace, Hwf'.
    assert (concat (<[N.to_nat i := l ++ [a]]> chains1) ≡ₚ a :: concat chains) as Hperm'.
    { by rewrite concat_insert_snoc, Hperm. }
    exists a, (nth_slot (BucketSlot i) l (length l)), s', al1,
      (<[N.to_nat i := l ++ [a]]> chains1).
    split.
    { unfold intern_symbol. cbv zeta. fold hash. rewrite Hrun. cbn [mbind res_bind].
      rewrite read_slot_set_count.
      destruct (table_chain s1 chains1 Hwf1 i l Hl) as (p & Hp & Hc).
      rewrite (read_nth_slot s1 _ p l (length l) Hp Hc) by lia.
      rewrite lookup_ge_None_2 by lia. cbn [mbind res_bind].
      fold i. by rewrite Hplace. }
    split.
    { split; [done| | |].
      - rewrite Hcnt', Hperm'. simpl. unfold c. rewrite Hcount. lia.
      - intros b hs ln nm Hb Hk. rewrite Hperm' in Hb.
        apply elem_of_cons in Hb as [->|Hb].
        + rewrite Hka in Hk. by injection Hk as <- _ <-.
        + rewrite Hkeys in Hk by (by intros ->). simpl in Hk. rewrite Hkey1 in Hk.
          by eapply Hhash.
      - by rewrite Hcap'. }
    split.
    { exists i, (l ++ [a]), (length l). rewrite Hcap'.
      split; [apply N.mod_lt; pose proof (wf_capacity _ _ Hwf1); lia|].
      split; [apply list_lookup_insert_eq; by eapply lookup_lt_Some|].
      split; [by rewrite lookup_app_r, Nat.sub_diag by lia|].
      by rewrite nth_slot_app. }
    split; [done|]. split.
    { intros b Hb. split; [rewrite Hperm'; by right|].
      rewrite Hkeys by (by intros ->). simpl. apply Hkey1. }
    split.
    { intros b Hb Hba. apply Hfr'; [|done]. simpl. rewrite Hfr1; [done|].
      intros Hbc. destruct (table_elem_in_heap s chains b Hwf Hbc) as [? E].
      congruence. }
    right. split; [done|]. split; [done|]. split; [done|]. split; [done|].
    rewrite Hcap'. exact Hgrow.
Qed.
End InternSymbol.

Lemma empty_table_inv hashf base cap :
  0 < cap → cap < 2 ^ 51 →
  table_inv hashf (empty_table base cap) (replicate (N.to_nat cap) []).
Proof.
  intros Hpos Hcap. split; [split| | |]; simpl.
  - done.
  - eexists. split; [done|]. apply empty_chains.
  - apply length_replicate.
  - rewrite concat_replicate_nil. constructor.
  - intros i l a [-> _]%lookup_replicate Ha. by apply elem_of_nil in Ha.
  - intros a b Ha. rewrite concat_replicate_nil in Ha. by apply elem_of_nil in Ha.
  - by rewrite concat_replicate_nil.
  - intros a hs ln nm Ha. rewrite concat_replicate_nil in Ha. by apply elem_of_nil in Ha.
  - done.
Qed.

Section InternClaims.
Context {UD : Type}.
Variable junk : nat → option addr.
Variable hashf : list byte → dy_hash_t.
Variable allocator : dysl_allocator UD.

Lemma intern_symbol_found s chains (al : alloc_state UD) a hd name b :
  table_wf s chains → b ∈ concat chains →
  key_of (symheap s) b = Some (hashf name, N.of_nat (length name), name) →
  ∃ sl, intern_symbol junk hashf allocator a hd name s al = Ok (b, sl, s, al) ∧
        slot_of s chains sl b.
Proof.
  intros Hwf Hb Hkey.
  destruct (dSymbols_intern_found junk allocator s chains al name (hashf name) b
              Hwf Hb Hkey) as (sl & Hrun & Hslot).
  exists sl. split; [|done].
  unfold intern_symbol. cbv zeta. rewrite Hrun. cbn [mbind res_bind].
  by rewrite (slot_of_read s chains sl b Hwf Hslot).
Qed.

(** C1.  Interning is a deduplicating identity map.  On a table kept by
    [intern_symbol] (with room for two more symbols), for all byte
    sequences [A] and [B]: interning [A] returns a slot that holds the
    symbol of [A]; interning [A] again returns the same slot and the same
    symbol and changes nothing; interning [B] after [A] returns the symbol
    of [A] if and only if [A] and [B] are the same bytes (same length, same
    byte at every index), whatever the hash function, so also when the two
    hashes collide; and interning [A] once more after [B] still returns the
    symbol of [A]. *)
Theorem intern_deduplicates s chains (al : alloc_state UD)
    (A B : list byte) a1 hd1 a2 hd2 :
  table_inv hashf s chains → count (symbols s) + 2 ≤ 2 ^ 48 →
  symheap s !! a1 = None → symheap s !! a2 = None → a1 ≠ a2 →
  ∃ idA slA s1 al1,
    intern_symbol junk hashf allocator a1 hd1 A s al = Ok (idA, slA, s1, al1) ∧
    read_slot s1 slA = Ok (Some idA) ∧
    (∀ a hd,
       intern_symbol junk hashf allocator a hd A s1 al1 = Ok (idA, slA, s1, al1)) ∧
    ∃ idB slB s2 al2,
      intern_symbol junk hashf allocator a2 hd2 B s1 al1 = Ok (idB, slB, s2, al2) ∧
      read_slot s2 slB = Ok (Some idB) ∧
      (idA = idB ↔ A = B) ∧
      (A = B ↔ length A = length B ∧ ∀ i, A !! i = B !! i) ∧
      (hashf A = hashf B → A ≠ B → idA ≠ idB) ∧
      (∀ a hd, ∃ sl,
         intern_symbol junk hashf allocator a hd A s2 al2 = Ok (idA, sl, s2, al2)).
Proof.
  intros Hinv Hroom Hf1 Hf2 Hne.
  destruct (intern_symbol_spec junk hashf allocator s chains al a1 hd1 A Hinv
              ltac:(lia) Hf1)
    as (idA & slA & s1 & al1 & chains1 & HrunA & Hinv1 & HslotA & HkeyA & Hold1
        & Hfr1 & HcaseA).
  pose proof (inv_wf _ _ _ Hinv1) as Hwf1.
  exists idA, slA, s1, al1. split; [done|].
  split; [by eapply slot_of_read|]. split.
  { intros a hd.
    destruct (intern_symbol_found s1 chains1 al1 a hd A idA Hwf1
                (slot_of_elem _ _ _ _ HslotA) HkeyA) as (sl & Hrun & Hslot).
    by rewrite (slot_of_unique s1 chains1 slA sl idA Hwf1 HslotA Hslot). }
  assert (count (symbols s1) < 2 ^ 48) as Hroom1.
  { destruct HcaseA as [(_ & -> & _)|(_ & _ & _ & -> & _)]; lia. }
  assert (symheap s1 !! a2 = None) as Hf2'.
  { destruct HcaseA as [(_ & -> & _)|_]; [done|]. apply Hfr1; [done|]. congruence. }
  destruct (intern_symbol_spec junk hashf allocator s1 chains1 al1 a2 hd2 B Hinv1
              Hroom1 Hf2')
    as (idB & slB & s2 & al2 & chains2 & HrunB & Hinv2 & HslotB & HkeyB & Hold2
        & _ & _).
  pose proof (inv_wf _ _ _ Hinv2) as Hwf2.
  exists idB, slB, s2, al2. split; [done|].
  split; [by eapply slot_of_read|].
  destruct (Hold2 idA (slot_of_elem _ _ _ _ HslotA)) as [HA2 HkA2].
  assert (idA = idB ↔ A = B) as Hiff.
  { split.
    - intros <-. rewrite HkA2, HkeyA in HkeyB. by injection HkeyB.
    - intros <-. apply (wf_unique _ _ Hwf2); [done | by eapply slot_of_elem |].
      by rewrite HkeyB, HkA2, HkeyA. }
  split; [done|]. split.
  { split; [by intros ->|]. intros [_ H]. by apply list_eq. }
  split; [intros _ HAB HE; by apply HAB, Hiff|].
  intros a hd.
  destruct (intern_symbol_found s2 chains2 al2 a hd A idA Hwf2 HA2) as (sl & Hrun & _).
  { by rewrite HkA2. }
  by exists sl.
Qed.

(** ** Sequences of new names *)

Lemma intern_all_app (e1 e2 : list (addr * dy_object * list byte)) s
    (al : alloc_state UD) :
  intern_all junk hashf allocator (e1 ++ e2) s al =
  '(ids1, s1, al1) ← intern_all junk hashf allocator e1 s al;
  '(ids2, s2, al2) ← intern_all junk hashf allocator e2 s1 al1;
  Ok (ids1 ++ ids2, s2, al2).
Proof.
  revert s al. induction e1 as [|[[a hd] nm] e1 IH]; intros s al.
  - simpl. by destruct (intern_all _ _ _ e2 s al) as [[[ids s2] al2]|].
  - simpl.
    destruct (intern_symbol junk hashf allocator a hd nm s al)
      as [[[[id sl] s1] al1]|]; [|done].
    cbn [mbind res_bind]. rewrite IH.
    destruct (intern_all _ _ _ e1 s1 al1) as [[[ids1 s2] al2]|]; [|done].
    cbn [mbind res_bind].
    by destruct (intern_all _ _ _ e2 s2 al2) as [[[ids2 s3] al3]|].
Qed.

(** One new name: the symbol is created at the given address, the count
    goes up by one, and the names that were absent stay absent. *)
Lemma intern_new_name s chains (al : alloc_state UD) a hd name :
  table_inv hashf s chains → count (symbols s) < 2 ^ 48 →
  symheap s !! a = None → absent hashf s chains name →
  ∃ sl s' al' chains',
    intern_symbol junk hashf allocator a hd name s al = Ok (a, sl, s', al') ∧
    table_inv hashf s' chains' ∧
    count (symbols s') = count (symbols s) + 1 ∧
    (∀ b, symheap s !! b = None → b ≠ a → symheap s' !! b = None) ∧
    (∀ nm, nm ≠ name → absent hashf s chains nm → absent hashf s' chains' nm) ∧
    (if dSymbols_should_grow (symbols s) (count (symbols s) + 1)
     then ∃ nc,
         grow_loop 65 (capacity (symbols s)) (count (symbols s) + 1) = Ok nc ∧
         (capacity (symbols s') = nc ∨
          capacity (symbols s') = capacity (symbols s) ∧
          fst (dAlloc_alloc allocator
                 ((sizeof_ptr * nc) mod size_t_modulus) al) = None)
     else capacity (symbols s') = capacity (symbols s)).
Proof.
  intros Hinv Hroom Hfresh Habs.
  destruct (intern_symbol_spec junk hashf allocator s chains al a hd name Hinv
              Hroom Hfresh)
    as (id & sl & s' & al' & chains' & Hrun & Hinv' & Hslot & Hkey & Hold & Hfr
        & Hcase).
  destruct Hcase as [(Hid & -> & -> & ->)|(-> & _ & Hperm & Hcnt & Hgrow)].
  { exfalso. by apply (Habs id). }
  exists sl, s', al', chains'. split; [done|]. split; [done|]. split; [done|].
  split; [done|]. split; [|done].
  intros nm Hnm Hnmabs b Hb. rewrite Hperm in Hb.
  apply elem_of_cons in Hb as [->|Hb].
  - rewrite Hkey. by intros [= _ _ ->].
  - destruct (Hold b Hb) as [_ ->]. by apply Hnmabs.
Qed.

(** New names while the count stays within the load factor: the capacity
    does not change. *)
Lemma intern_all_below_threshold entries : ∀ s chains (al : alloc_state UD),
  table_inv hashf s chains →
  count (symbols s) + N.of_nat (length entries)
    ≤ load_factor_threshold (capacity (symbols s)) →
  count (symbols s) + N.of_nat (length entries) ≤ 2 ^ 48 →
  NoDup (entry_name <$> entries) → NoDup (entry_addr <$> entries) →
  (∀ e, e ∈ entries → symheap s !! entry_addr e = None) →
  (∀ e, e ∈ entries → absent hashf s chains (entry_name e)) →
  ∃ ids s' al' chains',
    intern_all junk hashf allocator entries s al = Ok (ids, s', al') ∧
    ids = entry_addr <$> entries ∧
    table_inv hashf s' chains' ∧
    capacity (symbols s') = capacity (symbols s) ∧
    count (symbols s') = count (symbols s) + N.of_nat (length entries) ∧
    (∀ b, symheap s !! b = None → b ∉ entry_addr <$> entries →
          symheap s' !! b = None) ∧
    (∀ nm, nm ∉ entry_name <$> entries → absent hashf s chains nm →
           absent hashf s' chains' nm).
Proof.
  induction entries as [|[[a hd] name] entries IH];
    intros s chains al Hinv Hthr Hroom Hndn Hnda Hfresh Habs.
  - exists [], s, al, chains. simpl. split; [done|]. split; [done|].
    split; [done|]. split; [done|]. split; [lia|]. split; done.
  - cbn [length] in Hthr, Hroom. rewrite Nat2N.inj_succ in Hthr, Hroom.
    simpl in Hndn, Hnda.
    apply NoDup_cons in Hndn as [Hn1 Hndn]. apply NoDup_cons in Hnda as [Ha1 Hnda].
    destruct (intern_new_name s chains al a hd name Hinv ltac:(lia)
                (Hfresh _ ltac:(left)) (Habs _ ltac:(left)))
      as (sl & s1 & al1 & chains1 & Hrun & Hinv1 & Hcnt1 & Hfr1 & Habs1 & Hgrow).
    assert (dSymbols_should_grow (symbols s) (count (symbols s) + 1) = false) as Hng.
    { unfold dSymbols_should_grow. apply N.ltb_ge. lia. }
    rewrite Hng in Hgrow.
    destruct (IH s1 chains1 al1 Hinv1) as (ids & s2 & al2 & chains2 & Hrun2 & Hids
      & Hinv2 & Hcap2 & Hcnt2 & Hfr2 & Habs2).
    + rewrite Hgrow, Hcnt1. lia.
    + rewrite Hcnt1. lia.
    + done.
    + done.
    + intros e He. apply Hfr1; [apply Hfresh; by right|].
      intros E. apply Ha1. rewrite <- E. apply list_elem_of_fmap. by exists e.
    + intros e He. apply Habs1; [|apply Habs; by right].
      intros E. apply Hn1. change name with (entry_name (a, hd, name)).
      rewrite <- E. apply list_elem_of_fmap. by exists e.
    + exists (a :: ids), s2, al2, chains2. split.
      { cbn [intern_all]. rewrite Hrun. cbn [mbind res_bind]. rewrite Hrun2. done. }
      split; [by rewrite Hids|]. split; [done|].
      split; [by rewrite Hcap2, Hgrow|].
      split; [rewrite Hcnt2, Hcnt1; cbn [length]; rewrite Nat2N.inj_succ; lia|].
      split.
      * intros b Hb Hnot. rewrite fmap_cons, not_elem_of_cons in Hnot.
        apply Hfr2; [|tauto]. apply Hfr1; tauto.
      * intros nm Hnm Hnmabs. rewrite fmap_cons, not_elem_of_cons in Hnm.
        apply Habs2; [tauto|]. apply Habs1; tauto.
Qed.
End InternClaims.

Lemma absent_empty hashf s chains nm : concat chains = [] → absent hashf s chains nm.
Proof. intros E b Hb. rewrite E in Hb. by apply elem_of_nil in Hb. Qed.

Lemma grants_alloc {UD} (allocator : dysl_allocator UD) bytes (al : alloc_state UD) :
  grants allocator bytes → fst (dAlloc_alloc allocator bytes al) ≠ None.
Proof.
  intros Hg. unfold dAlloc_alloc, call_allocator.
  pose proof (Hg (user_data al)) as H.
  by destruct (fn allocator (user_data al) None 0 bytes).
Qed.

Section GrowScenario.
Context {UD : Type}.
Variable junk : nat → option addr.
Variable hashf : list byte → dy_hash_t.
Variable allocator : dysl_allocator UD.

(** C7.  The grow-policy scenario.  The table is empty with capacity 64
    (load factor 0.75, so the threshold is 48); 50 distinct names (of 4
    bytes or of any other length) are interned one after another, each new
    symbol being placed in the returned slot; the allocator grants the
    request for the array of 128 buckets.  Then after 48 names the capacity
    is still 64, after the 49th it is 128, and after the 50th it is still
    at least 128; the count is the number of names interned. *)
Theorem grow_policy_scenario (entries : list (addr * dy_object * list byte))
    s chains (al : alloc_state UD) :
  table_inv hashf s chains → concat chains = [] →
  capacity (symbols s) = 64 →
  length entries = 50%nat →
  NoDup (entry_name <$> entries) → NoDup (entry_addr <$> entries) →
  (∀ e, e ∈ entries → symheap s !! entry_addr e = None) →
  grants allocator 1024 →
  ∃ ids48 s48 al48 ids49 s49 al49 ids50 s50 al50,
    intern_all junk hashf allocator (take 48 entries) s al = Ok (ids48, s48, al48) ∧
    capacity (symbols s48) = 64 ∧ count (symbols s48) = 48 ∧
    intern_all junk hashf allocator (take 49 entries) s al = Ok (ids49, s49, al49) ∧
    capacity (symbols s49) = 128 ∧ count (symbols s49) = 49 ∧
    intern_all junk hashf allocator entries s al = Ok (ids50, s50, al50) ∧
    128 ≤ capacity (symbols s50) ∧ count (symbols s50) = 50.
Proof.
  intros Hinv Hempty Hcap Hlen Hndn Hnda Hfresh Hgrants.
  assert (∃ l48 e49 e50, entries = l48 ++ [e49; e50] ∧ length l48 = 48%nat)
    as (l48 & e49 & e50 & -> & Hl48).
  { exists (take 48 entries).
    pose proof (length_drop entries 48) as Hd. rewrite Hlen in Hd.
    destruct (drop 48 entries) as [|e49 [|e50 [|]]] eqn:E; try done.
    exists e49, e50. split; [by rewrite <- E, take_drop|].
    rewrite length_take. lia. }
  assert (take 48 (l48 ++ [e49; e50]) = l48) as -> by (by rewrite take_app_length').
  assert (take 49 (l48 ++ [e49; e50]) = l48 ++ [e49]) as ->.
  { rewrite take_app, take_ge by lia. rewrite Hl48. done. }
  assert (count (symbols s) = 0) as Hcnt0.
  { rewrite (inv_count _ _ _ Hinv), Hempty. done. }
  rewrite fmap_app in Hndn. rewrite fmap_app in Hnda.
  apply NoDup_app in Hndn as (Hndn48 & Hdn & Hndn2).
  apply NoDup_app in Hnda as (Hnda48 & Hda & Hnda2).
  (* the first 48 names *)
  destruct (intern_all_below_threshold junk hashf allocator l48 s chains al Hinv)
    as (ids48 & s48 & al48 & chains48 & Hrun48 & _ & Hinv48 & Hcap48 & Hcnt48
        & Hfr48 & Habs48).
  { rewrite Hcnt0, Hcap, Hl48. by vm_compute. }
  { rewrite Hcnt0, Hl48. by vm_compute. }
  { done. }
  { done. }
  { intros e He. apply Hfresh, elem_of_app. by left. }
  { intros e He. by apply absent_empty. }
  rewrite Hcap in Hcap48. rewrite Hcnt0, Hl48 in Hcnt48.
  change (0 + N.of_nat 48) with 48 in Hcnt48.
  (* the 49th name *)
  destruct e49 as [[a49 hd49] n49].
  destruct (intern_new_name junk hashf allocator s48 chains48 al48 a49 hd49 n49 Hinv48)
    as (sl49 & s49 & al49 & chains49 & Hrun49 & Hinv49 & Hcnt49 & Hfr49 & Habs49
        & Hgrow49).
  { rewrite Hcnt48. by vm_compute. }
  { apply Hfr48.
    - apply (Hfresh (a49, hd49, n49)), elem_of_app. right. left.
    - intros Hin. apply (Hda _ Hin). left. }
  { apply Habs48; [|by apply absent_empty].
    intros Hin. apply (Hdn _ Hin). left. }
  rewrite Hcnt48 in Hcnt49. change (48 + 1) with 49 in Hcnt49.
  assert (capacity (symbols s49) = 128) as Hcap49.
  { unfold dSymbols_should_grow in Hgrow49. rewrite Hcap48, Hcnt48 in Hgrow49.
    change (load_factor_threshold 64 <? 48 + 1) with true in Hgrow49.
    destruct Hgrow49 as (nc & Hloop & Hcase).
    assert (nc = 128) as -> by (vm_compute in Hloop; congruence).
    destruct Hcase as [?|[_ Hfail]]; [done|]. exfalso.
    change ((sizeof_ptr * 128) mod size_t_modulus) with 1024 in Hfail.
    by apply (grants_alloc allocator 1024 al48). }
  (* the 50th name *)
  destruct e50 as [[a50 hd50] n50].
  simpl in Hndn2, Hnda2.
  apply NoDup_cons in Hndn2 as [Hn49 _]. apply NoDup_cons in Hnda2 as [Ha49 _].
  destruct (intern_new_name junk hashf allocator s49 chains49 al49 a50 hd50 n50 Hinv49)
    as (sl50 & s50 & al50 & chains50 & Hrun50 & Hinv50 & Hcnt50 & _ & _ & Hgrow50).
  { rewrite Hcnt49. by vm_compute. }
  { apply Hfr49; [apply Hfr48|].
    - apply (Hfresh (a50, hd50, n50)), elem_of_app. right. right. left.
    - intros Hin. apply (Hda _ Hin). right. left.
    - intros ->. apply Ha49. left. }
  { apply Habs49; [|apply Habs48; [|by apply absent_empty]].
    - intros ->. apply Hn49. left.
    - intros Hin. apply (Hdn _ Hin). right. left. }
  rewrite Hcnt49 in Hcnt50. change (49 + 1) with 50 in Hcnt50.
  assert (capacity (symbols s50) = 128) as Hcap50.
  { unfold dSymbols_should_grow in Hgrow50. rewrite Hcap49, Hcnt49 in Hgrow50.
    change (load_factor_threshold 128 <? 49 + 1) with false in Hgrow50.
    congruence. }
  assert (intern_all junk hashf allocator (l48 ++ [(a49, hd49, n49)]) s al
          = Ok (ids48 ++ [a49], s49, al49)) as Hall49.
  { rewrite intern_all_app, Hrun48. cbn [mbind res_bind intern_all].
    rewrite Hrun49. done. }
  exists ids48, s48, al48, (ids48 ++ [a49]), s49, al49,
    ((ids48 ++ [a49]) ++ [a50]), s50, al50.
  split; [done|]. split; [done|]. split; [done|]. split; [done|].
  split; [done|]. split; [done|]. split.
  { change (l48 ++ [(a49, hd49, n49); (a50, hd50, n50)])
      with (l48 ++ [(a49, hd49, n49)] ++ [(a50, hd50, n50)]).
    rewrite app_assoc, intern_all_app, Hall49. cbn [mbind res_bind intern_all].
    rewrite Hrun50. done. }
  split; [rewrite Hcap50; lia | done].
Qed.
End GrowScenario.

(** ** Construction of the global state *)

Section Construction.
Context {UD : Type}.
Variable junk : nat → option addr.
Variable allocator : dysl_allocator UD.

Lemma dSymbols_init_success syms cap (al al1 : alloc_state UD) base :
  sizeof_ptr * cap < size_t_modulus →
  dAlloc_alloc allocator ((sizeof_ptr * cap) mod size_t_modulus) al = (Some base, al1) →
  dSymbols_init junk syms cap allocator al
  = Ok (symbols (empty_table base cap), al1).
Proof.
  intros Hb Halloc. unfold dSymbols_init. rewrite Halloc. simpl fmap.
  by rewrite null_fill_fresh.
Qed.

Lemma dSymbols_init_null syms cap (al al1 : alloc_state UD) :
  0 < cap →
  dAlloc_alloc allocator ((sizeof_ptr * cap) mod size_t_modulus) al = (None, al1) →
  dSymbols_init junk syms cap allocator al = Fault NullDeref.
Proof.
  intros Hcap Halloc. unfold dSymbols_init. rewrite Halloc. simpl fmap.
  destruct (N.to_nat cap) as [|n] eqn:E; [lia|]. done.
Qed.

Lemma dysl_new_first_refused junk_global (al al1 : alloc_state UD) :
  dAlloc_alloc allocator sizeof_dysl al = (None, al1) →
  dysl_new junk junk_global allocator al = Ok (None, al1).
Proof. intros H. unfold dysl_new. by rewrite H. Qed.

Lemma dysl_new_second_refused junk_global (al al1 al2 : alloc_state UD) d :
  dAlloc_alloc allocator sizeof_dysl al = (Some d, al1) →
  dAlloc_alloc allocator sizeof_dy_global al1 = (None, al2) →
  dysl_new junk junk_global allocator al
  = Ok (None, snd (dAlloc_free allocator (Some d) al2)).
Proof.
  intros H1 H2. unfold dysl_new. rewrite H1, H2.
  by destruct (dAlloc_free allocator (Some d) al2).
Qed.

(** The third allocation, the bucket array, is not checked: when it is
    refused the clearing loop of [dSymbols_init] writes through [NULL]. *)
Lemma dysl_new_third_refused junk_global (al al1 al2 al3 : alloc_state UD) d g :
  dAlloc_alloc allocator sizeof_dysl al = (Some d, al1) →
  dAlloc_alloc allocator sizeof_dy_global al1 = (Some g, al2) →
  dAlloc_alloc allocator 512 al2 = (None, al3) →
  dysl_new junk junk_global allocator al = Fault NullDeref.
Proof.
  intros H1 H2 H3. unfold dysl_new. rewrite H1, H2. unfold dGlobal_init.
  destruct (dGC_init_tracking allocator (GcStore (global_gc junk_global) ∅))
    as (s' & -> & _).
  cbn [mbind res_bind].
  rewrite (dSymbols_init_null _ DYSL_SYMBOLS_INITIAL_CAPACITY al2 al3); done.
Qed.

(** When [dysl_new] returns [NULL], every block it obtained has been handed
    back. *)
Lemma dysl_new_null_releases junk_global (al al' : alloc_state UD) :
  calls al = [] →
  dysl_new junk junk_global allocator al = Ok (None, al') →
  outstanding (calls al') [] = [].
Proof.
  intros Hc. unfold dysl_new.
  destruct (dAlloc_alloc allocator sizeof_dysl al) as [[d|] al1] eqn:H1.
  - destruct (dAlloc_alloc allocator sizeof_dy_global al1) as [[g|] al2] eqn:H2.
    + destruct (dGlobal_init junk junk_global allocator al2) as [[g1 al3]|]; done.
    + destruct (dAlloc_free allocator (Some d) al2) as [r al3] eqn:H3.
      intros [= <-].
      rewrite (alloc_call_log _ _ _ _ _ _ _ H3), (alloc_call_log _ _ _ _ _ _ _ H2),
        (alloc_call_log _ _ _ _ _ _ _ H1), Hc.
      cbn [app outstanding call_ptr call_new_size call_result].
      rewrite N.eqb_refl. by rewrite filter_cons_False by (by intros ?).
  - intros [= <-]. by rewrite (alloc_call_log _ _ _ _ _ _ _ H1), Hc.
Qed.
End Construction.

(** C3: construction is not all-or-nothing.  The allocator grants the
    blocks for [struct dysl] and [struct dy_global] and refuses the array
    of 64 buckets.  [dysl_new] does not return [NULL]: [dSymbols_init]
    stores through the null array pointer. *)
Theorem dysl_new_bucket_array_refused :
  dysl_new no_junk sample_global budget_allocator (budget_state 2 4096)
  = Fault NullDeref.
Proof. vm_compute. reflexivity. Qed.

Example dysl_new_granted :
  ∃ D al, dysl_new no_junk sample_global budget_allocator (budget_state 3 4096)
            = Ok (Some D, al) ∧
          global_symbols (instance_global D) = symbols (empty_table 4200 64) ∧
          main_state (instance_global D) = Some (instance_addr D) ∧
          outstanding (calls al) [] = [4200; 4104; 4096].
Proof. eexists _, _. split; [vm_compute; reflexivity|]. by vm_compute. Qed.

(** ** Scenarios, by evaluation *)

(** "foo", "bar", "foo" on a table of capacity 64: two symbols, the two
    "foo" are the same symbol, "bar" is another one. *)
Example intern_foo_bar_foo :
  ∃ s al,
    intern_all no_junk dHash_fnv1a bump_allocator
      [(100, blank_object, name_foo); (200, blank_object, name_bar);
       (300, blank_object, name_foo)]
      (empty_table 4096 64) (AllocState 8192 [])
    = Ok ([100; 200; 100], s, al) ∧
    count (symbols s) = 2 ∧ capacity (symbols s) = 64.
Proof. eexists _, _. split; [vm_compute; reflexivity|]. by vm_compute. Qed.

(** The grow test fires at the 49th name also when the allocator refuses
    the new array; the table then stays at capacity 64 and keeps all 49
    symbols. *)
Example grow_refused_keeps_capacity :
  ∃ ids s al,
    intern_all no_junk dHash_fnv1a budget_allocator (sample_entries 49)
      (empty_table 4096 64) (budget_state 0 8192)
    = Ok (ids, s, al) ∧
    count (symbols s) = 49 ∧ capacity (symbols s) = 64 ∧
    calls al = [AllocCall None 0 1024 None] ∧
    Forall (λ e, lookup_symbol s (entry_name e) 4 (dHash_fnv1a (entry_name e))
                 = Ok (Some (entry_addr e))) (sample_entries 49).
Proof.
  eexists _, _, _. split; [vm_compute; reflexivity|].
  split; [by vm_compute|]. split; [by vm_compute|]. split; [by vm_compute|].
  apply Forall_forall. intros e He. apply list_elem_of_In in He.
  vm_compute in He.
  repeat (destruct He as [<-|He]; [vm_compute; reflexivity|]). done.
Qed.

(** ** The theorems at concrete inputs *)

Lemma dGC_create_atomic_witness :
  (∃ s', dGC_create 32 7 sample_store (budget_state 1 4096)
           = Ok (Some 4096, s',
                 AllocState (0, 4128) [AllocCall None 0 32 (Some 4096)]) ∧
         get_tag s' (Some (HeapObj 4096)) = Ok 7 ∧
         tracking s' [] [4096]) ∧
  dGC_create 32 7 sample_store (budget_state 0 4096)
    = Ok (None, sample_store,
          AllocState (0, 4096) [AllocCall None 0 32 None]).
Proof.
  destruct (dGC_create_atomic sample_store (budget_state 1 4096) 32 7 [] []
              sample_store_tracking) as [Hok _].
  destruct (dGC_create_atomic sample_store (budget_state 0 4096) 32 7 [] []
              sample_store_tracking) as [_ Hfail].
  split.
  - destruct (Hok 4096 (AllocState (0, 4128) [AllocCall None 0 32 (Some 4096)]))
      as (s' & H1 & _ & H2 & H3).
    + reflexivity.
    + eexists. reflexivity.
    + apply not_elem_of_nil.
    + exists s'. split; [exact H1|]. split; [exact H2 | exact H3].
  - apply (Hfail (AllocState (0, 4096) [AllocCall None 0 32 None])). reflexivity.
Defined.

Lemma dSymbols_resize_fail_soft_witness :
  ∃ s', dSymbols_resize no_junk foo_table 128 budget_allocator (budget_state 0 4096)
          = Ok (s', AllocState (0, 4096) [AllocCall None 0 1024 None]) ∧
        s' = foo_table.
Proof.
  destruct (dSymbols_resize_fail_soft no_junk foo_table 128 budget_allocator
              (budget_state 0 4096)
              (AllocState (0, 4096) [AllocCall None 0 1024 None]))
    as (s' & H1 & H2 & _).
  - reflexivity.
  - exists s'. split; [exact H1 | exact H2].
Defined.

Lemma foo_table_inv :
  ∃ chains, table_inv dHash_fnv1a foo_table chains ∧
            lookup_symbol foo_table name_foo 3 2851307223 = Ok (Some 100).
Proof.
  destruct (intern_symbol_spec no_junk dHash_fnv1a bump_allocator
              (empty_table 4096 64) (replicate 64 []) (AllocState 8192 [])
              100 blank_object name_foo)
    as (id & sl & s' & al' & chains' & Hrun & Hinv & _).
  - apply (empty_table_inv dHash_fnv1a 4096 64); by vm_compute.
  - by vm_compute.
  - apply lookup_empty.
  - assert (intern_symbol no_junk dHash_fnv1a bump_allocator 100 blank_object
              name_foo (empty_table 4096 64) (AllocState 8192 [])
            = Ok (100, BucketSlot 23, foo_table, AllocState 8192 [])) as E
      by (vm_compute; reflexivity).
    rewrite E in Hrun. injection Hrun as <- <- <- <-.
    exists chains'. split; [done|]. vm_compute. reflexivity.
Qed.

Lemma bump_refuses_empty : refuses_empty_requests bump_allocator.
Proof. by intros ud old. Qed.

Lemma bump_grants bytes : 0 < bytes → grants bump_allocator bytes.
Proof.
  intros Hb ud. simpl. unfold bump_fn.
  destruct (N.ltb_spec 0 bytes) as [_|?]; [done | lia].
Qed.

Lemma dSymbols_resize_preserves_membership_witness :
  ∃ s' al',
    dSymbols_resize no_junk foo_table 128 bump_allocator (AllocState 8192 [])
      = Ok (s', al') ∧
    count (symbols s') = 1 ∧
    lookup_symbol s' name_foo 3 2851307223 = Ok (Some 100).
Proof.
  destruct foo_table_inv as (chains & Hinv & Hlk).
  destruct (dSymbols_resize_preserves_membership no_junk foo_table chains 128
              bump_allocator (AllocState 8192 []) (inv_wf _ _ _ Hinv))
    as (s' & al' & chains' & Hrun & _ & _ & Hcount & _ & Hkeep).
  - by vm_compute.
  - apply bump_refuses_empty.
  - exists s', al'. split; [exact Hrun|]. split; [exact Hcount|].
    exact (Hkeep name_foo 2851307223 (Some 100) Hlk).
Defined.

Lemma intern_deduplicates_witness :
  ∃ idA slA s1 al1,
    intern_symbol no_junk dHash_fnv1a bump_allocator 100 blank_object name_foo
      (empty_table 4096 64) (AllocState 8192 []) = Ok (idA, slA, s1, al1) ∧
    (∀ a hd,
       intern_symbol no_junk dHash_fnv1a bump_allocator a hd name_foo s1 al1
       = Ok (idA, slA, s1, al1)) ∧
    ∃ idB slB s2 al2,
      intern_symbol no_junk dHash_fnv1a bump_allocator 200 blank_object name_bar
        s1 al1 = Ok (idB, slB, s2, al2) ∧
      idA ≠ idB.
Proof.
  destruct (intern_deduplicates no_junk dHash_fnv1a bump_allocator
              (empty_table 4096 64) (replicate 64 []) (AllocState 8192 [])
              name_foo name_bar 100 blank_object 200 blank_object)
    as (idA & slA & s1 & al1 & HA & _ & Hagain & idB & slB & s2 & al2 & HB & _
        & Hiff & _ & _ & _).
  - apply (empty_table_inv dHash_fnv1a 4096 64); by vm_compute.
  - by vm_compute.
  - apply lookup_empty.
  - apply lookup_empty.
  - done.
  - exists idA, slA, s1, al1. split; [exact HA|]. split; [exact Hagain|].
    exists idB, slB, s2, al2. split; [exact HB|].
    intros E. apply Hiff in E. discriminate E.
Defined.

Lemma grow_policy_scenario_witness :
  ∃ ids48 s48 al48 ids49 s49 al49 ids50 s50 al50,
    intern_all no_junk dHash_fnv1a bump_allocator (take 48 (sample_entries 50))
      (empty_table 4096 64) (AllocState 8192 []) = Ok (ids48, s48, al48) ∧
    capacity (symbols s48) = 64 ∧ count (symbols s48) = 48 ∧
    intern_all no_junk dHash_fnv1a bump_allocator (take 49 (sample_entries 50))
      (empty_table 4096 64) (AllocState 8192 []) = Ok (ids49, s49, al49) ∧
    capacity (symbols s49) = 128 ∧ count (symbols s49) = 49 ∧
    intern_all no_junk dHash_fnv1a bump_allocator (sample_entries 50)
      (empty_table 4096 64) (AllocState 8192 []) = Ok (ids50, s50, al50) ∧
    128 ≤ capacity (symbols s50) ∧ count (symbols s50) = 50.
Proof.
  apply (grow_policy_scenario no_junk dHash_fnv1a bump_allocator
           (sample_entries 50) (empty_table 4096 64) (replicate 64 [])
           (AllocState 8192 [])).
  - apply (empty_table_inv dHash_fnv1a 4096 64); by vm_compute.
  - reflexivity.
  - reflexivity.
  - reflexivity.
  - apply (bool_decide_unpack _). vm_compute. exact I.
  - apply (bool_decide_unpack _). vm_compute. exact I.
  - intros e _. apply lookup_empty.
  - apply bump_grants. by vm_compute.
Defined.

(** * Further properties *)

(** ** The tracking lists *)

Section TrackingExtras.
Context {UD : Type}.
Implicit Types s : gc_store UD.

Lemma store_same s x o : load s (Some x) = Ok o → store s (Some x) o = Ok s.
Proof.
  destruct s as [[al r g] h]. destruct x as [| |a]; simpl.
  - by intros [= ->].
  - by intros [= ->].
  - destruct (h !! a) as [o'|] eqn:Ha; [|done]. intros [= ->].
    by rewrite insert_id.
Qed.

Lemma set_next_same s x v :
  get_next s (Some x) = Ok v → set_next (Some x) v s = Ok s.
Proof.
  unfold get_next, set_next. destruct (load s (Some x)) as [o|] eqn:Ho; [|done].
  simpl. intros [= <-]. destruct o. by apply store_same.
Qed.

Lemma set_previous_same s x v :
  get_previous s (Some x) = Ok v → set_previous (Some x) v s = Ok s.
Proof.
  unfold get_previous, set_previous.
  destruct (load s (Some x)) as [o|] eqn:Ho; [|done].
  simpl. intros [= <-]. destruct o. by apply store_same.
Qed.

(** [dGC_init] makes both sets empty whatever the sentinels held before:
    the structure is well formed with no object, walking either list from
    its sentinel meets no object, the object memory is not touched and the
    allocator given is the one recorded. *)
Theorem dGC_init_empties_both_sets (al : dysl_allocator UD) s :
  ∃ s', dGC_init al s = Ok s' ∧ tracking s' [] [] ∧
        traverse 1 s' RootSentinel = Ok [] ∧
        traverse 1 s' GenSentinel = Ok [] ∧
        heap s' = heap s ∧ allocator (gc s') = al.
Proof.
  destruct (dGC_init_tracking al s) as (s' & Hs' & Ht & Hh & Ha).
  exists s'. split; [done|]. split; [done|].
  destruct Ht as (Hr & Hg & Hnd).
  split; [|split; [|done]].
  - apply (dlist_traverse s' RootSentinel [] 1); [apply root_is_sentinel|done|simpl; lia].
  - apply (dlist_traverse s' GenSentinel [] 1); [apply gen_is_sentinel|done|simpl; lia].
Qed.

(** Unlinking an object that is closed (both links on itself) changes
    nothing: [dObj_unlink], and so [dGC_unroot], returns the store it was
    given. *)
Theorem dObj_unlink_closed_is_identity s x :
  closed s x →
  dObj_unlink (Some x) s = Ok s ∧ dGC_unroot (Some x) s = Ok s.
Proof.
  intros [Hn Hp]. assert (dObj_unlink (Some x) s = Ok s) as E; [|done].
  unfold dObj_unlink, dObj_close. rewrite Hp, Hn. simpl.
  rewrite (set_next_same _ _ _ Hn). simpl. rewrite Hn, Hp. simpl.
  rewrite (set_previous_same _ _ _ Hp). simpl.
  rewrite (set_next_same _ _ _ Hn). simpl.
  by rewrite (set_previous_same _ _ _ Hp).
Qed.

(** [dGC_unroot] does not look at the set: on an object of the generation
    set it takes the object out of the generation set. *)
Theorem dGC_unroot_on_generation_object s rs gs a :
  tracking s rs gs → a ∈ gs →
  ∃ s', dGC_unroot (Some (HeapObj a)) s = Ok s' ∧
        tracking s' rs (filter (λ b, b ≠ a) gs) ∧
        (a ∉ filter (λ b, b ≠ a) gs) ∧
        closed s' (HeapObj a) ∧ tags_kept s s'.
Proof.
  intros Ht Ha.
  destruct (tracking_unlink_gen s rs gs a Ht Ha) as (s' & Hs' & Ht' & Hc & Hk & _).
  exists s'. split; [done|]. split; [done|]. split; [|done].
  rewrite list_elem_of_filter. tauto.
Qed.

(** Pinning then unpinning: an untracked object is put in the root set by
    [dGC_root] and taken out again by [dGC_unroot]; both lists are then
    the lists they were, in the same order, the object is closed and no tag
    has changed. *)
Theorem root_unroot_round_trip s rs gs a :
  tracking s rs gs → a ∉ rs ++ gs → valid s (HeapObj a) →
  ∃ s1 s2,
    dGC_root (Some (HeapObj a)) s = Ok s1 ∧ tracking s1 (a :: rs) gs ∧
    dGC_unroot (Some (HeapObj a)) s1 = Ok s2 ∧ tracking s2 rs gs ∧
    closed s2 (HeapObj a) ∧ tags_kept s s2.
Proof.
  intros Ht Ha Hv.
  destruct (tracking_root s rs gs a Ht Ha Hv) as (s1 & Hs1 & Ht1 & Hk1 & _).
  destruct (tracking_unlink_root s1 (a :: rs) gs a Ht1) as (s2 & Hs2 & Ht2 & Hc & Hk2 & _).
  { apply list_elem_of_here. }
  exists s1, s2. split; [done|]. split; [done|]. split; [done|].
  split; [|split; [done|intros y; by rewrite Hk2, Hk1]].
  rewrite filter_cons_False in Ht2 by (intros H; by apply H).
  rewrite filter_all in Ht2; [done|].
  intros e He ->. apply Ha. rewrite elem_of_app. by left.
Qed.

End TrackingExtras.

(** ** Slices and hashes *)

Lemma dSlice_loop_take (pa pb : list byte) : ∀ todo i,
  (i + todo ≤ length pa)%nat → (i + todo ≤ length pb)%nat →
  dSlice_loop pa pb i todo
  = Ok (bool_decide (take todo (drop i pa) = take todo (drop i pb))).
Proof.
  induction todo as [|k IH]; intros i Ha Hb.
  - done.
  - cbn [dSlice_loop].
    destruct (lookup_lt_is_Some_2 pa i ltac:(lia)) as [x Hx].
    destruct (lookup_lt_is_Some_2 pb i ltac:(lia)) as [y Hy].
    rewrite Hx, Hy.
    rewrite (drop_S _ _ _ Hx), (drop_S _ _ _ Hy). cbn [take].
    destruct (Byte.eqb x y) eqn:E.
    + apply Byte.byte_dec_bl in E as ->.
      rewrite IH by lia. apply f_equal, bool_decide_ext. split; [by intros ->|].
      by intros [= ->].
    + symmetry. f_equal. apply bool_decide_eq_false. intros [= -> _].
      assert (Byte.eqb y y = true) as E' by (by apply Byte.byte_dec_lb).
      congruence.
Qed.

(** [dSlice_equals] compares the first [a_length] bytes at [a] with the
    first [b_length] bytes at [b]: it answers 1 exactly when the two
    lengths are equal and the two prefixes are byte for byte the same.
    Bytes past the lengths given play no role. *)
Theorem dSlice_equals_compares_prefixes (a b : list byte) (n m : N) :
  n ≤ N.of_nat (length a) → m ≤ N.of_nat (length b) →
  dSlice_equals a n b m
  = Ok (bool_decide (n = m ∧ take (N.to_nat n) a = take (N.to_nat m) b)).
Proof.
  intros Ha Hb. unfold dSlice_equals.
  destruct (N.eqb_spec n m) as [->|Hne]; cbn [negb].
  - rewrite dSlice_loop_take by lia. rewrite !drop_0.
    apply f_equal, bool_decide_ext. tauto.
  - symmetry. f_equal. apply bool_decide_eq_false. tauto.
Qed.

Lemma fnv_fold_app (k1 k2 : list byte) :
  dHash_fnv1a (k1 ++ k2)
  = fold_left (λ hash b, (N.lxor hash (Byte.to_N b) * 16777619) mod hash_modulus)
      k2 (dHash_fnv1a k1).
Proof. unfold dHash_fnv1a. apply fold_left_app. Qed.

Lemma fnv_fold_lt (k : list byte) h :
  h < hash_modulus →
  fold_left (λ hash b, (N.lxor hash (Byte.to_N b) * 16777619) mod hash_modulus) k h
  < hash_modulus.
Proof.
  revert h. induction k as [|b k IH]; intros h Hh; simpl; [done|].
  apply IH. apply N.mod_lt. by vm_compute.
Qed.

Lemma lxor_lt_pow2 (a b n : N) : a < 2 ^ n → b < 2 ^ n → N.lxor a b < 2 ^ n.
Proof.
  intros Ha Hb.
  destruct (N.eq_dec (N.lxor a b) 0) as [->|Hne].
  - apply N.neq_0_lt_0, N.pow_nonzero. lia.
  - apply N.log2_lt_pow2; [lia|].
    pose proof (N.log2_lxor a b) as Hl.
    destruct (N.eq_dec a 0) as [->|Ha0]; destruct (N.eq_dec b 0) as [->|Hb0].
    + by rewrite N.lxor_0_l in Hne.
    + rewrite N.lxor_0_l. apply N.log2_lt_pow2; lia.
    + rewrite N.lxor_0_r. apply N.log2_lt_pow2; lia.
    + apply N.log2_lt_pow2 in Ha; [|lia]. apply N.log2_lt_pow2 in Hb; [|lia]. lia.
Qed.

Lemma lxor_cancel_l (a b c : N) : N.lxor a b = N.lxor a c → b = c.
Proof.
  intros H. apply N.lxor_eq.
  assert (N.lxor (N.lxor a b) (N.lxor a c) = 0) as E by (rewrite H; apply N.lxor_nilpotent).
  rewrite N.lxor_assoc, <- (N.lxor_assoc b a c), (N.lxor_comm b a) in E.
  rewrite N.lxor_assoc, <- N.lxor_assoc, N.lxor_nilpotent, N.lxor_0_l in E. done.
Qed.

Lemma lxor_cancel_r (a b c : N) : N.lxor a c = N.lxor b c → a = b.
Proof. rewrite !(N.lxor_comm _ c). apply lxor_cancel_l. Qed.

(** The FNV prime is odd, so multiplying by it is invertible modulo
    [2 ^ 32]. *)
Lemma fnv_prime_cancel (x y : N) :
  x < hash_modulus → y < hash_modulus →
  (x * 16777619) mod hash_modulus = (y * 16777619) mod hash_modulus → x = y.
Proof.
  intros Hx Hy H.
  assert (∀ z, z < hash_modulus →
               ((z * 16777619) mod hash_modulus * 899433627) mod hash_modulus = z) as Hinv.
  { intros z Hz. rewrite N.Div0.mul_mod_idemp_l.
    replace (z * 16777619 * 899433627) with (z + z * 3513497 * hash_modulus).
    - rewrite N.Div0.mod_add. by apply N.mod_small.
    - unfold hash_modulus. change (2 ^ 32) with 4294967296. lia. }
  rewrite <- (Hinv x Hx), <- (Hinv y Hy). by rewrite H.
Qed.

Lemma byte_to_N_lt (b : byte) : Byte.to_N b < hash_modulus.
Proof. pose proof (Byte.to_N_bounded b). unfold hash_modulus. 
  assert (255 < 2 ^ 32) by (by vm_compute). lia. Qed.

Lemma byte_to_N_inj (b1 b2 : byte) : Byte.to_N b1 = Byte.to_N b2 → b1 = b2.
Proof.
  intros H. pose proof (Byte.of_to_N b1) as H1. pose proof (Byte.of_to_N b2) as H2.
  rewrite H in H1. congruence.
Qed.

Lemma fnv_fold_inj (k : list byte) : ∀ h1 h2,
  h1 < hash_modulus → h2 < hash_modulus →
  fold_left (λ hash b, (N.lxor hash (Byte.to_N b) * 16777619) mod hash_modulus) k h1
  = fold_left (λ hash b, (N.lxor hash (Byte.to_N b) * 16777619) mod hash_modulus) k h2 →
  h1 = h2.
Proof.
  induction k as [|b k IH]; intros h1 h2 H1 H2; simpl; [done|].
  intros E. apply IH in E; try (apply N.mod_lt; by vm_compute).
  apply fnv_prime_cancel in E;
    try (apply lxor_lt_pow2; [done | apply byte_to_N_lt]).
  by apply lxor_cancel_r in E.
Qed.

(** Two keys that differ in exactly one byte never have the same hash:
    each step of the loop of [dHash_fnv1a] is a bijection on the 32-bit
    values.  The hash fits in 32 bits. *)
Theorem dHash_fnv1a_one_byte_apart (pre suf : list byte) (b1 b2 : byte) :
  b1 ≠ b2 →
  dHash_fnv1a (pre ++ b1 :: suf) ≠ dHash_fnv1a (pre ++ b2 :: suf) ∧
  dHash_fnv1a (pre ++ b1 :: suf) < hash_modulus.
Proof.
  assert (∀ k, dHash_fnv1a k < hash_modulus) as Hlt.
  { intros k. apply fnv_fold_lt. by vm_compute. }
  intros Hne. split; [|apply Hlt]. intros E.
  rewrite !fnv_fold_app in E. simpl in E.
  apply fnv_fold_inj in E; try (apply N.mod_lt; by vm_compute).
  apply fnv_prime_cancel in E;
    try (apply lxor_lt_pow2; [apply Hlt | apply byte_to_N_lt]).
  apply lxor_cancel_l in E. by apply byte_to_N_inj in E.
Qed.

(** ** Lookup *)


Lemma outstanding_app (cs1 cs2 : list alloc_call) : ∀ live,
  outstanding (cs1 ++ cs2) live = outstanding cs2 (outstanding cs1 live).
Proof. induction cs1 as [|c cs1 IH]; intros live; simpl; [done|]. apply IH. Qed.

Lemma empty_buckets_wf syms base cap h :
  0 < cap →
  buckets syms = Some (BucketArray base (replicate (N.to_nat cap) None)) →
  capacity syms = cap →
  table_wf (SymStore syms h) (replicate (N.to_nat cap) []).
Proof.
  intros Hpos Hb Hc. split; simpl.
  - by rewrite Hc.
  - eexists. split; [done|]. apply empty_chains.
  - rewrite Hc. apply length_replicate.
  - rewrite concat_replicate_nil. constructor.
  - intros i l a [-> _]%lookup_replicate Ha. by apply elem_of_nil in Ha.
  - intros a b Ha. rewrite concat_replicate_nil in Ha. by apply elem_of_nil in Ha.
Qed.

(** Writing [todo] entries from index [n] on runs past the end of an array
    that has fewer than [n + todo] entries. *)
Lemma null_fill_past_end base : ∀ todo n slots,
  (n ≤ length slots)%nat → (length slots < n + todo)%nat →
  null_fill todo (N.of_nat n) (Some (BucketArray base slots)) = Fault OutOfBounds.
Proof.
  induction todo as [|k IH]; intros n slots Hn Hlen; [lia|].
  cbn [null_fill]. unfold write_array. cbn [array_slots array_base].
  rewrite Nat2N.id.
  destruct (Nat.ltb_spec n (length slots)) as [Hlt|Hge].
  - cbn [mbind res_bind].
    replace (N.of_nat n + 1) with (N.of_nat (S n)) by lia.
    apply IH; rewrite length_insert; lia.
  - done.
Qed.

Section TableLifeCycle.
Context {UD : Type}.
Variable junk : nat → option addr.
Variable allocator : dysl_allocator UD.

(** A successful [dSymbols_init] gives an empty table: the count is 0, the
    capacity is the one asked for, the table is well formed with no symbol
    whatever symbol objects exist, and every lookup answers "not found". *)
Theorem dSymbols_init_gives_empty_table syms cap (al al1 : alloc_state UD) base :
  0 < cap → sizeof_ptr * cap < size_t_modulus →
  dAlloc_alloc allocator ((sizeof_ptr * cap) mod size_t_modulus) al
    = (Some base, al1) →
  ∃ syms',
    dSymbols_init junk syms cap allocator al = Ok (syms', al1) ∧
    count syms' = 0 ∧ capacity syms' = cap ∧
    (∀ h, table_wf (SymStore syms' h) (replicate (N.to_nat cap) [])) ∧
    (∀ h name hash,
       lookup_symbol (SymStore syms' h) name (N.of_nat (length name)) hash
       = Ok None).
Proof.
  intros Hpos Hbytes Halloc.
  exists (symbols (empty_table base cap)).
  split; [by apply dSymbols_init_success|]. split; [done|]. split; [done|].
  assert (∀ h, table_wf (SymStore (symbols (empty_table base cap)) h)
                 (replicate (N.to_nat cap) [])) as Hwf.
  { intros h. by eapply empty_buckets_wf. }
  split; [done|]. intros h name hash.
  apply (lookup_symbol_None _ _ (Hwf h)).
  intros a Ha. rewrite concat_replicate_nil in Ha. by apply elem_of_nil in Ha.
Qed.

(** The byte size of the array is computed in [size_t]: when
    [sizeof(struct dy_symbol* ) * initial_capacity] wraps around, the block
    asked for has fewer entries than the clearing loop writes, and
    [dSymbols_init] stores past its end. *)
Theorem dSymbols_init_size_wraps syms cap (al al1 : alloc_state UD) base :
  cap < size_t_modulus → size_t_modulus ≤ sizeof_ptr * cap →
  dAlloc_alloc allocator ((sizeof_ptr * cap) mod size_t_modulus) al
    = (Some base, al1) →
  dSymbols_init junk syms cap allocator al = Fault OutOfBounds.
Proof.
  intros Hcap Hwrap Halloc. unfold dSymbols_init. rewrite Halloc.
  cbn [fmap option_fmap option_map]. unfold fresh_array.
  change 0 with (N.of_nat 0).
  rewrite null_fill_past_end; [done| lia |].
  rewrite length_fmap, length_seq.
  pose proof (N.mod_lt (sizeof_ptr * cap) size_t_modulus ltac:(done)) as Hm.
  assert ((sizeof_ptr * cap) mod size_t_modulus / sizeof_ptr < cap) as Hlt.
  { apply N.Div0.div_lt_upper_bound. unfold sizeof_ptr in *. lia. }
  lia.
Qed.

(** [dSymbols_init] followed by [dSymbols_destroy]: the allocator is
    called twice, for the array and to hand the array back; the table is
    left with no array, count 0 and capacity 0; nothing the two calls
    obtained is outstanding, and a lookup in the destroyed table divides
    by zero. *)
Theorem dSymbols_init_destroy_round_trip syms cap (al al1 : alloc_state UD) base :
  sizeof_ptr * cap < size_t_modulus →
  dAlloc_alloc allocator ((sizeof_ptr * cap) mod size_t_modulus) al
    = (Some base, al1) →
  ∃ syms' syms'' al2 r,
    dSymbols_init junk syms cap allocator al = Ok (syms', al1) ∧
    dSymbols_destroy syms' allocator al1 = (syms'', al2) ∧
    buckets syms'' = None ∧ count syms'' = 0 ∧ capacity syms'' = 0 ∧
    calls al2 = calls al ++ [AllocCall None 0 (sizeof_ptr * cap) (Some base);
                             AllocCall (Some base) 0 0 r] ∧
    (∀ live, outstanding (calls al2) live
             = filter (λ q, q ≠ base) (outstanding (calls al) live)) ∧
    (∀ h name length hash,
       dSymbols_lookup (SymStore syms'' h) name length hash = Fault DivByZero).
Proof.
  intros Hbytes Halloc.
  rewrite (N.mod_small _ _ Hbytes) in Halloc.
  pose proof Halloc as Hinit. rewrite <- (N.mod_small _ _ Hbytes) in Hinit.
  apply (dSymbols_init_success junk allocator syms cap al al1 base Hbytes) in Hinit.
  destruct (dAlloc_free allocator (Some base) al1) as [r al2] eqn:Hfree.
  exists (symbols (empty_table base cap)), (DySymbols None 0 0), al2, r.
  split; [done|].
  assert (calls al2 = calls al ++ [AllocCall None 0 (sizeof_ptr * cap) (Some base);
                                   AllocCall (Some base) 0 0 r]) as Hcalls.
  { apply alloc_call_log in Halloc, Hfree. rewrite Hfree, Halloc.
    by rewrite <- app_assoc. }
  split; [|split; [done|split; [done|split; [done|split; [done|split]]]]].
  - unfold dSymbols_destroy. cbn [buckets symbols empty_table fmap option_fmap option_map array_base].
    by rewrite Hfree.
  - intros live. rewrite Hcalls, outstanding_app. simpl.
    rewrite filter_cons_False by (intros H; by apply H). done.
  - done.
Qed.
End TableLifeCycle.

(** ** The capacity policy *)

Lemma grow_loop_doubles d : d ≤ 2 ^ 48 → ∀ fuel nc nc',
  grow_loop fuel nc d = Ok nc' → ∃ j, nc' = nc * 2 ^ j.
Proof.
  intros Hd. induction fuel as [|f IH]; intros nc nc'; [done|].
  cbn [grow_loop]. unfold below_load_factor.
  destruct (N.ltb_spec (3 * nc) (4 * d)) as [Hlt|Hge].
  - assert (nc * 2 < size_t_modulus) as Hsmall.
    { assert (2 ^ 48 * 4 < size_t_modulus) by (by vm_compute). lia. }
    rewrite (N.mod_small _ _ Hsmall). intros (j & ->)%IH.
    exists (N.succ j). rewrite N.pow_succ_r'. lia.
  - intros [= <-]. exists 0. simpl. lia.
Qed.

Lemma shrink_loop_spec d : ∀ k nc,
  nc ≤ 64 * 2 ^ N.of_nat k → 32 ≤ nc → 4 * d ≤ 3 * nc →
  ∃ nc', shrink_loop (S k) nc d = Ok nc' ∧ 32 ≤ nc' ∧ nc' ≤ nc ∧
         4 * d ≤ 3 * nc' ∧ (nc' ≤ 64 ∨ nc' / 4 ≤ d) ∧
         ((∃ j, nc = 64 * 2 ^ j) → ∃ j, nc' = 64 * 2 ^ j).
Proof.
  induction k as [|k IH]; intros nc Hk Hlo Hd; cbn [shrink_loop];
    unfold DYSL_SYMBOLS_INITIAL_CAPACITY.
  - change (64 * 2 ^ N.of_nat 0) with 64 in Hk.
    destruct (N.ltb_spec 64 nc) as [?|?]; [lia|]. cbn [andb].
    exists nc. split; [done|]. split; [done|]. split; [lia|]. split; [done|].
    split; [left; lia | done].
  - destruct (N.ltb_spec 64 nc) as [Hbig|Hsmall]; cbn [andb].
    + destruct (N.ltb_spec d (nc / 4)) as [Hlt|Hge].
      * pose proof (N.Div0.mul_div_le nc 4) as H4.
        pose proof (N.Div0.mul_div_le nc 2) as H2.
        pose proof (N.mul_succ_div_gt nc 2 ltac:(lia)) as H2'.
        destruct (IH (nc / 2)) as (nc' & Hrun & Hlo' & Hle & Hd' & Hstop & Hform).
        { rewrite Nat2N.inj_succ, N.pow_succ_r' in Hk.
          apply N.Div0.div_le_upper_bound. lia. }
        { lia. }
        { lia. }
        exists nc'. split; [done|]. split; [done|]. split; [lia|].
        split; [done|]. split; [done|].
        intros (j & ->). apply Hform.
        destruct (N.eq_dec j 0) as [->|Hj]; [simpl in Hbig; lia|].
        exists (N.pred j).
        replace j with (N.succ (N.pred j)) at 1 by lia.
        rewrite N.pow_succ_r'.
        replace (64 * (2 * 2 ^ N.pred j)) with ((64 * 2 ^ N.pred j) * 2) by lia.
        by rewrite N.div_mul.
      * exists nc. split; [done|]. split; [done|]. split; [lia|]. split; [done|].
        split; [right; lia | done].
    + exists nc. split; [done|]. split; [done|]. split; [lia|]. split; [done|].
      split; [left; lia | done].
Qed.

(** The capacity [dSymbols_ensure_capacity] asks [dSymbols_resize] for. *)
Lemma ensure_capacity_target (cap d : N) :
  0 < cap → cap < 2 ^ 51 → d ≤ 2 ^ 48 →
  ∃ nc,
    (if load_factor_threshold cap <? d then grow_loop 65 cap d
     else if (d <? cap / 4) && (DYSL_SYMBOLS_INITIAL_CAPACITY <? cap)
          then shrink_loop 65
                 (dU_max (cap / 2) DYSL_SYMBOLS_INITIAL_CAPACITY) d
          else Ok cap) = Ok nc ∧
    0 < nc ∧ nc < 2 ^ 51 ∧ 4 * d ≤ 3 * nc ∧
    ((∃ k, cap = 64 * 2 ^ k) → ∃ j, nc = 64 * 2 ^ j) ∧
    (if load_factor_threshold cap <? d then cap < nc ∧ 3 * nc < 8 * d
     else if (d <? cap / 4) && (DYSL_SYMBOLS_INITIAL_CAPACITY <? cap)
          then nc < cap ∧ 32 ≤ nc ∧ (nc ≤ 64 ∨ nc / 4 ≤ d)
          else nc = cap).
Proof.
  intros Hpos Hcap Hd. unfold load_factor_threshold, DYSL_SYMBOLS_INITIAL_CAPACITY.
  pose proof (N.Div0.mul_div_le (3 * cap) 4) as H34.
  pose proof (N.mul_succ_div_gt (3 * cap) 4 ltac:(lia)) as H34'.
  destruct (N.ltb_spec (3 * cap / 4) d) as [Hgrow|Hnogrow].
  - destruct (grow_loop_65 d cap Hd Hpos) as (nc & Hrun & Hle & Hok & Hcase).
    assert (8 * 2 ^ 48 < 3 * 2 ^ 51) by (by vm_compute).
    exists nc. split; [done|]. split; [lia|].
    split; [destruct Hcase as [->|?]; lia|]. split; [done|].
    split.
    + intros (k & Hk). destruct (grow_loop_doubles d Hd _ _ _ Hrun) as (j & ->).
      exists (k + j). rewrite Hk, N.pow_add_r. lia.
    + destruct Hcase as [->|?]; lia.
  - pose proof (N.Div0.mul_div_le cap 4) as H4.
    pose proof (N.Div0.mul_div_le cap 2) as H2.
    pose proof (N.mul_succ_div_gt cap 2 ltac:(lia)) as H2'.
    destruct (N.ltb_spec d (cap / 4)) as [Hlt|Hge]; cbn [andb].
    + destruct (N.ltb_spec 64 cap) as [Hbig|Hsmall].
      * assert (64 ≤ dU_max (cap / 2) 64 ∧ cap / 2 ≤ dU_max (cap / 2) 64
                ∧ dU_max (cap / 2) 64 < cap
                ∧ (dU_max (cap / 2) 64 = cap / 2 ∨ dU_max (cap / 2) 64 = 64))
          as (Hm1 & Hm2 & Hm3 & Hm4).
        { unfold dU_max. destruct (N.ltb_spec 64 (cap / 2)); lia. }
        destruct (shrink_loop_spec d 64 (dU_max (cap / 2) 64))
          as (nc & Hrun & Hlo & Hle & Hok & Hstop & Hform).
        { assert (2 ^ 51 ≤ 64 * 2 ^ N.of_nat 64) by (by vm_compute). lia. }
        { lia. }
        { lia. }
        exists nc. split; [done|]. split; [lia|]. split; [lia|]. split; [done|].
        split; [|split; [lia|split; [done|done]]].
        intros (k & Hk). apply Hform.
        destruct Hm4 as [->| ->]; [|by exists 0].
        destruct (N.eq_dec k 0) as [->|Hk0]; [simpl in Hk; lia|].
        exists (N.pred k). rewrite Hk.
        replace k with (N.succ (N.pred k)) at 1 by lia.
        rewrite N.pow_succ_r'.
        replace (64 * (2 * 2 ^ N.pred k)) with ((64 * 2 ^ N.pred k) * 2) by lia.
        by rewrite N.div_mul.
      * exists cap. split; [done|]. split; [done|]. split; [done|]. split; [lia|].
        split; done.
    + exists cap. split; [done|]. split; [done|]. split; [done|]. split; [lia|].
      split; done.
Qed.

Lemma lookup_symbol_same s chains s' chains' (name : list byte) (hash : dy_hash_t) :
  table_wf s chains → table_wf s' chains' →
  concat chains' ≡ₚ concat chains →
  (∀ a, key_of (symheap s') a = key_of (symheap s) a) →
  lookup_symbol s' name (N.of_nat (length name)) hash
  = lookup_symbol s name (N.of_nat (length name)) hash.
Proof.
  intros Hwf Hwf' Hperm Hkey.
  destruct (lookup_symbol_total s chains Hwf name hash) as [[a|] Hr]; rewrite Hr.
  - apply (lookup_symbol_iff s chains Hwf) in Hr as [Ha Hk].
    apply (lookup_symbol_iff s' chains' Hwf'). rewrite Hperm, Hkey. done.
  - apply (lookup_symbol_None s' chains' Hwf'). intros a Ha.
    rewrite Hkey. rewrite Hperm in Ha.
    by apply (lookup_symbol_None s chains Hwf name hash).
Qed.

Section CapacityPolicy.
Context {UD : Type}.
Variable junk : nat → option addr.
Variable allocator : dysl_allocator UD.

(** [dSymbols_ensure_capacity] on a well-formed table, whichever of its
    three branches is taken (grow, shrink, keep): it returns; the table is
    well formed and holds the same symbols with the same keys, each once;
    the count is unchanged and every lookup answers as before.  Afterwards
    the table does not need to grow for [desired_count], unless the
    allocator refused the new array, in which case nothing has changed.
    A capacity of the form [64 * 2 ^ k] stays of that form. *)
Theorem dSymbols_ensure_capacity_keeps_table s chains d (al : alloc_state UD) :
  table_wf s chains → capacity (symbols s) < 2 ^ 51 → d ≤ 2 ^ 48 →
  ∃ s' al' chains',
    dSymbols_ensure_capacity junk s d allocator al = Ok (s', al') ∧
    table_wf s' chains' ∧ concat chains' ≡ₚ concat chains ∧
    count (symbols s') = count (symbols s) ∧
    (∀ a, key_of (symheap s') a = key_of (symheap s) a) ∧
    (∀ name hash,
       lookup_symbol s' name (N.of_nat (length name)) hash
       = lookup_symbol s name (N.of_nat (length name)) hash) ∧
    (dSymbols_should_grow (symbols s') d = false ∨ s' = s) ∧
    ((∃ k, capacity (symbols s) = 64 * 2 ^ k) →
     ∃ j, capacity (symbols s') = 64 * 2 ^ j).
Proof.
  intros Hwf Hcap Hd.
  pose proof (wf_capacity _ _ Hwf) as Hpos.
  destruct (ensure_capacity_target (capacity (symbols s)) d Hpos Hcap Hd)
    as (nc & Hnc & Hncpos & Hnc51 & Hok & Hform & _).
  assert (dSymbols_ensure_capacity junk s d allocator al
          = dSymbols_resize junk s nc allocator al) as ->.
  { unfold dSymbols_ensure_capacity. cbv zeta. by rewrite Hnc. }
  assert (sizeof_ptr * nc < size_t_modulus) as Hbytes.
  { assert (sizeof_ptr * 2 ^ 51 < size_t_modulus) by (by vm_compute).
    unfold sizeof_ptr in *. lia. }
  destruct (dAlloc_alloc allocator ((sizeof_ptr * nc) mod size_t_modulus) al)
    as [[base|] al1] eqn:Halloc.
  - destruct (dSymbols_resize_success junk s chains Hwf allocator al nc base al1
                Hncpos Hbytes Halloc)
      as (s' & al2 & Hres & Hwf' & Hcount & Hcap' & Hkey & Hfr).
    assert (concat (rehashed (symheap s) nc chains) ≡ₚ concat chains) as Hperm
      by (by apply rehashed_concat).
    exists s', al2, (rehashed (symheap s) nc chains).
    split; [done|]. split; [done|]. split; [done|]. split; [done|].
    split; [done|].
    split; [intros name hash; by eapply lookup_symbol_same|].
    split.
    + left. unfold dSymbols_should_grow, load_factor_threshold. rewrite Hcap'.
      apply N.ltb_ge. apply N.div_le_lower_bound; lia.
    + rewrite Hcap'. done.
  - exists s, al1, chains. split; [by apply dSymbols_resize_fail|].
    split; [done|]. split; [done|]. split; [done|]. split; [done|].
    split; [done|]. split; [by right | done].
Qed.


(** [dSymbols_intern] counts a missing name before the caller has placed
    the symbol: the slot it returns is empty, the count is one more, the
    table holds the symbols it held and the name is still not found.  A
    second call for the same name, made before the symbol is placed,
    counts it again. *)
Theorem dSymbols_intern_counts_before_placing s chains (al : alloc_state UD)
    (name : list byte) (hash : dy_hash_t) :
  table_wf s chains → capacity (symbols s) < 2 ^ 51 →
  count (symbols s) + 1 < 2 ^ 48 →
  (∀ b, b ∈ concat chains →
        key_of (symheap s) b ≠ Some (hash, N.of_nat (length name), name)) →
  ∃ sl s1 al1 chains1,
    dSymbols_intern junk s name (N.of_nat (length name)) hash allocator al
      = Ok (sl, s1, al1) ∧
    read_slot s1 sl = Ok None ∧
    count (symbols s1) = count (symbols s) + 1 ∧
    table_wf s1 chains1 ∧ concat chains1 ≡ₚ concat chains ∧
    lookup_symbol s1 name (N.of_nat (length name)) hash = Ok None ∧
    ∃ sl2 s2 al2,
      dSymbols_intern junk s1 name (N.of_nat (length name)) hash allocator al1
        = Ok (sl2, s2, al2) ∧
      read_slot s2 sl2 = Ok None ∧
      count (symbols s2) = count (symbols s) + 2.
Proof.
  intros Hwf Hcap Hcount Hnew.
  destruct (dSymbols_intern_new junk allocator s chains al name hash Hwf Hcap
              ltac:(lia) Hnew)
    as (s1 & al1 & chains1 & l & Hrun & Hwf1 & Hl & Hperm & Hcap1 & Hkey & _).
  set (s1' := set_count s1 (count (symbols s) + 1)) in *.
  assert (table_wf s1' chains1) as Hwf1' by (by apply table_wf_set_count).
  assert (∀ b, b ∈ concat chains1 →
               key_of (symheap s1') b ≠ Some (hash, N.of_nat (length name), name))
    as Hnew1.
  { intros b Hb. change (symheap s1') with (symheap s1). rewrite Hkey.
    apply Hnew. by rewrite <- Hperm. }
  assert (∀ t chs l0 i, table_wf t chs → chs !! N.to_nat i = Some l0 →
            read_slot t (nth_slot (BucketSlot i) l0 (length l0)) = Ok None) as Hend.
  { intros t chs l0 i Ht Hl0.
    destruct (table_chain t chs Ht _ _ Hl0) as (p & Hp & Hc).
    rewrite (read_nth_slot t _ p l0 (length l0) Hp Hc) by lia.
    by rewrite lookup_ge_None_2. }
  destruct (dSymbols_intern_new junk allocator s1' chains1 al1 name hash Hwf1'
              Hcap1 ltac:(simpl; lia) Hnew1)
    as (s2 & al2 & chains2 & l2 & Hrun2 & Hwf2 & Hl2 & _).
  eexists _, s1', al1, chains1. split; [exact Hrun|].
  split; [unfold s1'; rewrite read_slot_set_count; by eapply Hend|].
  split; [done|]. split; [done|]. split; [done|].
  split; [by apply (lookup_symbol_None s1' chains1 Hwf1')|].
  eexists _, _, al2. split; [exact Hrun2|].
  split; [rewrite read_slot_set_count; by eapply Hend|].
  simpl. lia.
Qed.
End CapacityPolicy.

Section InternMany.
Context {UD : Type}.
Variable junk : nat → option addr.
Variable hashf : list byte → dy_hash_t.
Variable allocator : dysl_allocator UD.

Lemma intern_all_spec entries : ∀ s chains (al : alloc_state UD),
  table_inv hashf s chains →
  count (symbols s) + N.of_nat (length entries) ≤ 2 ^ 48 →
  NoDup (entry_addr <$> entries) →
  (∀ e, e ∈ entries → symheap s !! entry_addr e = None) →
  ∃ ids s' al' chains',
    intern_all junk hashf allocator entries s al = Ok (ids, s', al') ∧
    table_inv hashf s' chains' ∧
    length ids = length entries ∧
    (∀ k e id, entries !! k = Some e → ids !! k = Some id →
       id ∈ concat chains' ∧
       key_of (symheap s') id
       = Some (hashf (entry_name e), N.of_nat (length (entry_name e)),
               entry_name e)) ∧
    (∀ b, b ∈ concat chains →
          b ∈ concat chains' ∧ key_of (symheap s') b = key_of (symheap s) b) ∧
    (∀ b, symheap s !! b = None → b ∉ entry_addr <$> entries →
          symheap s' !! b = None).
Proof.
  induction entries as [|[[a hd] name] rest IH]; intros s chains al Hinv Hcnt Hnd Hfresh.
  - exists [], s, al, chains. split; [done|]. split; [done|]. split; [done|].
    split; [intros k e id Hk; by rewrite lookup_nil in Hk|]. split; done.
  - cbn [length] in Hcnt. rewrite Nat2N.inj_succ in Hcnt.
    rewrite fmap_cons in Hnd. apply NoDup_cons in Hnd as [Ha Hnd].
    change (entry_addr (a, hd, name)) with a in Ha.
    destruct (intern_symbol_spec junk hashf allocator s chains al a hd name Hinv)
      as (id & sl & s1 & al1 & chains1 & Hrun & Hinv1 & Hslot & Hkey & Hold
          & Hfr & Hcase).
    { lia. }
    { apply (Hfresh (a, hd, name)). apply list_elem_of_here. }
    assert (count (symbols s1) ≤ count (symbols s) + 1) as Hc1.
    { destruct Hcase as [(_ & -> & _)|(_ & _ & _ & -> & _)]; lia. }
    destruct (IH s1 chains1 al1 Hinv1) as (ids & s' & al' & chains' & Hrest & Hinv'
                                           & Hlen & Hids & Hold' & Hfr').
    { lia. }
    { done. }
    { intros e He. apply Hfr.
      - apply Hfresh. by apply list_elem_of_further.
      - intros E. apply Ha. rewrite <- E. apply list_elem_of_fmap. by exists e. }
    exists (id :: ids), s', al', chains'.
    split; [cbn [intern_all]; rewrite Hrun; cbn [mbind res_bind]; by rewrite Hrest|].
    split; [done|]. split; [by cbn [length]; rewrite Hlen|].
    split; [|split].
    + intros [|k] e i He Hi.
      * injection He as <-. injection Hi as <-.
        apply slot_of_elem in Hslot.
        destruct (Hold' id Hslot) as [Hin Hk]. split; [done|].
        by rewrite Hk.
      * by apply (Hids k).
    + intros b Hb. destruct (Hold b Hb) as [Hb1 Hk1].
      destruct (Hold' b Hb1) as [Hb' Hk']. split; [done|]. by rewrite Hk'.
    + intros b Hb Hnot. rewrite fmap_cons, not_elem_of_cons in Hnot.
      destruct Hnot as [Hne Hnot]. apply Hfr'; [|done]. by apply Hfr.
Qed.

(** Interning any list of names, duplicates included, each new symbol
    placed in the slot returned: every call succeeds, however many times
    the table grows; afterwards a lookup of each name finds the symbol that
    was returned for it, two names got the same symbol exactly when they
    are the same name, and every symbol the table held before is still in
    it with the key it had. *)
Theorem intern_all_then_lookup entries s chains (al : alloc_state UD) :
  table_inv hashf s chains →
  count (symbols s) + N.of_nat (length entries) ≤ 2 ^ 48 →
  NoDup (entry_addr <$> entries) →
  (∀ e, e ∈ entries → symheap s !! entry_addr e = None) →
  ∃ ids s' al' chains',
    intern_all junk hashf allocator entries s al = Ok (ids, s', al') ∧
    table_inv hashf s' chains' ∧
    length ids = length entries ∧
    (∀ k e id, entries !! k = Some e → ids !! k = Some id →
       lookup_symbol s' (entry_name e) (N.of_nat (length (entry_name e)))
         (hashf (entry_name e)) = Ok (Some id)) ∧
    (∀ k1 k2 e1 e2 id1 id2,
       entries !! k1 = Some e1 → ids !! k1 = Some id1 →
       entries !! k2 = Some e2 → ids !! k2 = Some id2 →
       id1 = id2 ↔ entry_name e1 = entry_name e2) ∧
    (∀ b, b ∈ concat chains →
          b ∈ concat chains' ∧ key_of (symheap s') b = key_of (symheap s) b).
Proof.
  intros Hinv Hcnt Hnd Hfresh.
  destruct (intern_all_spec entries s chains al Hinv Hcnt Hnd Hfresh)
    as (ids & s' & al' & chains' & Hrun & Hinv' & Hlen & Hids & Hold & _).
  exists ids, s', al', chains'. split; [done|]. split; [done|]. split; [done|].
  pose proof (inv_wf _ _ _ Hinv') as Hwf'.
  split; [|split; [|done]].
  - intros k e id He Hi. apply (lookup_symbol_iff s' chains' Hwf').
    by apply (Hids k).
  - intros k1 k2 e1 e2 id1 id2 He1 Hi1 He2 Hi2.
    destruct (Hids k1 e1 id1 He1 Hi1) as [Hin1 Hk1].
    destruct (Hids k2 e2 id2 He2 Hi2) as [Hin2 Hk2].
    split.
    + intros ->. rewrite Hk1 in Hk2. by injection Hk2.
    + intros E. apply (wf_unique _ _ Hwf'); [done|done|].
      by rewrite Hk1, Hk2, E.
Qed.
End InternMany.

(** ** The allocator calls of a resize *)

Lemma write_array_base b i v b' base :
  write_array b i v = Ok b' → array_base <$> b = Some base →
  array_base <$> b' = Some base.
Proof.
  destruct b as [arr|]; [|done]. simpl.
  destruct (N.to_nat i <? length (array_slots arr))%nat; [|done].
  by intros [= <-].
Qed.

Lemma rehash_chain_base nc base : ∀ fuel sym nb h nb' h',
  rehash_chain fuel nc sym nb h = Ok (nb', h') →
  array_base <$> nb = Some base → array_base <$> nb' = Some base.
Proof.
  induction fuel as [|f IH]; intros sym nb h nb' h'; [done|].
  cbn [rehash_chain]. destruct sym as [a|]; [|by intros [= <- <-]].
  intros H Hb.
  apply res_bind_Ok in H as (sy & Hsy & H).
  destruct (nc =? 0); [done|].
  apply res_bind_Ok in H as (first & Hfirst & H).
  apply res_bind_Ok in H as (nb1 & Hnb1 & H).
  eapply IH; [exact H|]. by eapply write_array_base.
Qed.

Lemma rehash_buckets_base ob nc base : ∀ todo i nb h nb' h',
  rehash_buckets todo i ob nc nb h = Ok (nb', h') →
  array_base <$> nb = Some base → array_base <$> nb' = Some base.
Proof.
  induction todo as [|k IH]; intros i nb h nb' h'; [by intros [= <- <-]|].
  cbn [rehash_buckets]. intros H Hb.
  apply res_bind_Ok in H as (sym & Hsym & H).
  apply res_bind_Ok in H as ([nb1 h1] & Hch & H).
  eapply IH; [exact H|]. by eapply rehash_chain_base.
Qed.

Section ResizeCalls.
Context {UD : Type}.
Variable junk : nat → option addr.
Variable allocator : dysl_allocator UD.

(** A resize that obtains its new array makes exactly two allocator calls:
    the request for the new array and the release of the old one.  The
    table then uses the new array, so one bucket array is outstanding
    before and one after. *)
Theorem dSymbols_resize_hands_back_old_array s chains nc
    (al al1 : alloc_state UD) base old :
  table_wf s chains → 0 < nc → sizeof_ptr * nc < size_t_modulus →
  dAlloc_alloc allocator (sizeof_ptr * nc) al = (Some base, al1) →
  array_base <$> buckets (symbols s) = Some old →
  ∃ s' al2 r,
    dSymbols_resize junk s nc allocator al = Ok (s', al2) ∧
    array_base <$> buckets (symbols s') = Some base ∧
    capacity (symbols s') = nc ∧
    calls al2 = calls al ++ [AllocCall None 0 (sizeof_ptr * nc) (Some base);
                             AllocCall (Some old) 0 0 r] ∧
    (∀ live, outstanding (calls al2) live
             = filter (λ q, q ≠ old) (base :: outstanding (calls al) live)).
Proof.
  intros Hwf Hpos Hbytes Halloc Hold.
  pose proof Halloc as Halloc'. rewrite <- (N.mod_small _ _ Hbytes) in Halloc'.
  destruct (dSymbols_resize_success junk s chains Hwf allocator al nc base al1
              Hpos Hbytes Halloc')
    as (s' & al2 & Hres & _ & _ & Hcap & _).
  pose proof Hres as Hrun. unfold dSymbols_resize in Hrun.
  rewrite Halloc' in Hrun.
  apply res_bind_Ok in Hrun as (nb & Hnb & Hrun).
  apply res_bind_Ok in Hrun as ([nb1 h1] & Hre & Hrun).
  rewrite Hold in Hrun.
  destruct (dAlloc_free allocator (Some old) al1) as [r al2'] eqn:Hfree.
  injection Hrun as <- <-.
  eexists _, al2', r. split; [exact Hres|].
  rewrite null_fill_fresh in Hnb by done. injection Hnb as <-.
  assert (calls al2' = calls al ++ [AllocCall None 0 (sizeof_ptr * nc) (Some base);
                                    AllocCall (Some old) 0 0 r]) as Hcalls.
  { apply alloc_call_log in Halloc, Hfree. rewrite Hfree, Halloc.
    by rewrite <- app_assoc. }
  split; [|split; [done|split; [done|]]].
  - cbn [symbols buckets]. by eapply rehash_buckets_base.
  - intros live. rewrite Hcalls, outstanding_app. done.
Qed.
End ResizeCalls.

(** ** Construction *)

Lemma tracking_empty_any_heap {UD} (g : dy_gc UD) (h h' : gmap addr dy_object) :
  tracking (GcStore g h) [] [] → tracking (GcStore g h') [] [].
Proof.
  intros (Hr & Hg & Hnd). split; [|split; [|done]].
  - destruct Hr as [[Hn Hp] _]. split; [|done]. split; done.
  - destruct Hg as [[Hn Hp] _]. split; [|done]. split; done.
Qed.

Section ConstructionExtras.
Context {UD : Type}.
Variable junk : nat → option addr.
Variable alloc : dysl_allocator UD.

(** When the allocator grants the three blocks [dysl_new] asks for, it
    returns the first one, holding the address of the second; the global
    state points back to the context, records the allocator, has both
    object sets empty and an empty symbol table of 64 buckets in the third
    block; these three requests are the only allocator calls. *)
Theorem dysl_new_builds_empty_context junk_global
    (al al1 al2 al3 : alloc_state UD) d g base :
  dAlloc_alloc alloc sizeof_dysl al = (Some d, al1) →
  dAlloc_alloc alloc sizeof_dy_global al1 = (Some g, al2) →
  dAlloc_alloc alloc 512 al2 = (Some base, al3) →
  ∃ D,
    dysl_new junk junk_global alloc al = Ok (Some D, al3) ∧
    instance_addr D = d ∧
    global (instance_state D) = Some g ∧
    main_state (instance_global D) = Some d ∧
    allocator (global_gc (instance_global D)) = alloc ∧
    (∀ h, tracking (GcStore (global_gc (instance_global D)) h) [] []) ∧
    global_symbols (instance_global D)
    = DySymbols (Some (BucketArray base (replicate 64 None))) 0 64 ∧
    calls al3 = calls al ++ [AllocCall None 0 sizeof_dysl (Some d);
                             AllocCall None 0 sizeof_dy_global (Some g);
                             AllocCall None 0 512 (Some base)].
Proof.
  intros H1 H2 H3.
  destruct (dGC_init_tracking alloc (GcStore (global_gc junk_global) ∅))
    as (gs & Hgs & Ht & _ & Ha).
  assert (dSymbols_init junk (global_symbols junk_global)
            DYSL_SYMBOLS_INITIAL_CAPACITY alloc al2
          = Ok (symbols (empty_table base 64), al3)) as Hinit.
  { apply dSymbols_init_success; [by vm_compute | exact H3]. }
  eexists. split.
  { unfold dysl_new. rewrite H1, H2. unfold dGlobal_init. rewrite Hgs.
    cbn [mbind res_bind]. rewrite Hinit. cbn [mbind res_bind]. reflexivity. }
  cbn [instance_addr instance_state instance_global global main_state
       global_gc global_symbols].
  split; [done|]. split; [done|]. split; [done|]. split; [done|].
  split; [|split; [done|]].
  - intros h. destruct gs as [gcs hp]. by apply (tracking_empty_any_heap gcs hp).
  - apply alloc_call_log in H1, H2, H3. rewrite H3, H2, H1.
    by rewrite <- !app_assoc.
Qed.

(** [dysl_new] returns [NULL] only when the block for [struct dysl] or the
    block for [struct dy_global] was refused, and then it has handed back
    what it obtained: no block is outstanding that was not before. *)
Theorem dysl_new_null_leaks_nothing junk_global (al al' : alloc_state UD) :
  dysl_new junk junk_global alloc al = Ok (None, al') →
  (fst (dAlloc_alloc alloc sizeof_dysl al) = None ∨
   ∃ d al1, dAlloc_alloc alloc sizeof_dysl al = (Some d, al1) ∧
            fst (dAlloc_alloc alloc sizeof_dy_global al1) = None) ∧
  ∀ live q, q ∈ outstanding (calls al') live → q ∈ outstanding (calls al) live.
Proof.
  unfold dysl_new.
  destruct (dAlloc_alloc alloc sizeof_dysl al) as [[d|] al1] eqn:H1.
  - destruct (dAlloc_alloc alloc sizeof_dy_global al1) as [[g|] al2] eqn:H2.
    + destruct (dGlobal_init junk junk_global alloc al2) as [[g1 al3]|]; done.
    + destruct (dAlloc_free alloc (Some d) al2) as [r al3] eqn:H3.
      intros [= <-]. split.
      * right. exists d, al1. split; [done|]. by rewrite H2.
      * intros live q.
        rewrite (alloc_call_log _ _ _ _ _ _ _ H3), (alloc_call_log _ _ _ _ _ _ _ H2),
          (alloc_call_log _ _ _ _ _ _ _ H1).
        rewrite <- !app_assoc, outstanding_app.
        cbn [app outstanding call_ptr call_new_size call_result].
        rewrite N.eqb_refl. rewrite filter_cons_False by (by intros ?).
        rewrite list_elem_of_filter. tauto.
  - intros [= <-]. split; [by left|]. intros live q.
    rewrite (alloc_call_log _ _ _ _ _ _ _ H1), outstanding_app. done.
Qed.
End ConstructionExtras.

(** ** Destruction *)

Section DestroyFacts.
Context {UD : Type}.




End DestroyFacts.

(** ** The command-line driver *)

Section CommandLineFacts.
Import Stdlib.Strings.Ascii Stdlib.Strings.String.
Local Open Scope string_scope.
Context {Lib : Type}.
Variable malloc : Lib → N → option addr * Lib.
Variable free : Lib → addr → Lib.
Variable realloc : Lib → addr → N → option addr * Lib.
Variable junk : nat → option addr.
Variable junk_global : dy_global Lib.

Lemma main_loop_body_some (program_name arg : string) :
  ∃ c, main_loop_body (Some program_name) arg = Ok c ∧ c ≠ Continue.
Proof.
  unfold main_loop_body.
  destruct ((arg =? "-h") || (arg =? "--help"))%bool; [simpl; eauto|].
  destruct ((arg =? "-v") || (arg =? "--version"))%bool; [eauto|].
  destruct (starts_with_dash arg); simpl; eauto.
Qed.

Lemma main_loop_first (program_name arg : string) (rest : list string) :
  main_loop (Some program_name) (arg :: rest) 1
  = main_loop (Some program_name) [arg] 1.
Proof.
  cbn [main_loop].
  destruct (main_loop_body_some program_name arg) as (c & -> & Hc).
  cbn [mbind res_bind]. by destruct c.
Qed.

(** Only the first argument after the program name is ever examined: each
    turn of the argument loop returns or leaves the loop, so whatever
    follows [argv[1]] has no effect on what [main] prints, returns or
    allocates. *)
Theorem main_examines_first_argument_only
    (program_name arg : string) (rest : list string) (h : Lib) :
  main malloc free realloc junk junk_global (program_name :: arg :: rest) h
  = main malloc free realloc junk junk_global [program_name; arg] h.
Proof.
  unfold main. cbn [lookup list_lookup drop].
  rewrite main_loop_first.
  destruct (main_loop (Some program_name) [arg] 1) as [[[out status]|i]|f] eqn:E;
    cbn [mbind res_bind]; [done| |done].
  assert (i = 1%nat) as ->.
  { cbn [main_loop] in E.
    destruct (main_loop_body_some program_name arg) as (c & Hc & Hne).
    rewrite Hc in E. cbn [mbind res_bind] in E. destruct c; congruence. }
  done.
Qed.


(** Without a script name [main] allocates nothing: the state of the C
    library's heap is returned as it was.  With no argument it prints
    "No script file provided." and the usage text and exits with status 1;
    with [-h] or [--help] as first argument it prints the usage text and
    exits with 0; with [-v] or [--version] it prints the version line and
    exits with 0; with any other first argument that starts with a dash it
    prints "Unknown option: " with the argument, then the usage text, and
    exits with 1. *)
Theorem main_without_script (program_name : string) (h : Lib) :
  ∃ text,
    usage (Some program_name) = Ok text ∧
    main malloc free realloc junk junk_global [program_name] h
    = Ok (("No script file provided." ++ newline) :: text, 1%N, h) ∧
    (∀ arg rest,
       arg = "-h" ∨ arg = "--help" →
       main malloc free realloc junk junk_global (program_name :: arg :: rest) h
       = Ok (text, 0%N, h)) ∧
    (∀ arg rest,
       arg = "-v" ∨ arg = "--version" →
       main malloc free realloc junk junk_global (program_name :: arg :: rest) h
       = Ok (version, 0%N, h)) ∧
    (∀ arg rest,
       starts_with_dash arg = true →
       arg ≠ "-h" → arg ≠ "--help" → arg ≠ "-v" → arg ≠ "--version" →
       main malloc free realloc junk junk_global (program_name :: arg :: rest) h
       = Ok (("Unknown option: " ++ arg ++ newline) :: text, 1%N, h)).
Proof.
  eexists. split; [reflexivity|]. split; [reflexivity|].
  split; [|split].
  - intros arg rest [-> | ->]; reflexivity.
  - intros arg rest [-> | ->]; reflexivity.
  - intros arg rest Hdash H1 H2 H3 H4.
    unfold main. cbn [lookup list_lookup drop main_loop]. unfold main_loop_body.
    apply String.eqb_neq in H1, H2, H3, H4. rewrite H1, H2, H3, H4, Hdash.
    reflexivity.
Qed.

End CommandLineFacts.

(** ** Clearing and copying bytes *)

Lemma dMem_clear_loop_spec (a size : N) (m0 : gmap addr byte) :
  accessible m0 a size →
  ∀ todo k m,
    k + N.of_nat todo = size →
    (∀ i, i < k → m !! (a + i) = Some x00) →
    (∀ q, q < a ∨ a + k ≤ q → m !! q = m0 !! q) →
    ∃ m', dMem_clear_loop todo k (Some a) m = Ok m' ∧
          (∀ i, i < size → m' !! (a + i) = Some x00) ∧
          (∀ q, q < a ∨ a + size ≤ q → m' !! q = m0 !! q).
Proof.
  intros Hacc. induction todo as [|t IH]; intros k m Hk Hdone Hrest.
  - exists m. split; [done|]. replace size with k by lia. done.
  - cbn [dMem_clear_loop]. unfold store_byte.
    destruct (Hacc k ltac:(lia)) as [b Hb].
    rewrite (Hrest (a + k)) by lia. rewrite Hb. cbn [mbind res_bind].
    apply IH.
    + lia.
    + intros i Hi. destruct (N.eq_dec i k) as [->|Hne].
      * by rewrite lookup_insert_eq.
      * rewrite lookup_insert_ne by lia. apply Hdone. lia.
    + intros q Hq. rewrite lookup_insert_ne by lia. apply Hrest. lia.
Qed.

Lemma dMem_clear_loop_fault (a : N) : ∀ todo k m j,
  k ≤ j → j < k + N.of_nat todo → m !! (a + j) = None →
  dMem_clear_loop todo k (Some a) m = Fault InvalidPtr.
Proof.
  induction todo as [|t IH]; intros k m j Hkj Hj Hnone; [lia|].
  cbn [dMem_clear_loop]. unfold store_byte.
  destruct (m !! (a + k)) as [b|] eqn:Hb; [|done]. cbn [mbind res_bind].
  assert (j ≠ k) as Hne by (intros ->; congruence).
  apply (IH _ _ j); [lia | lia |]. by rewrite lookup_insert_ne by lia.
Qed.

(** [dMem_clear] on a block whose [size] bytes can all be accessed sets
    each of them to zero and changes no byte outside the block. *)
Theorem dMem_clear_zeroes_the_block (a size : N) (m : gmap addr byte) :
  accessible m a size →
  ∃ m', dMem_clear (Some a) size m = Ok m' ∧
        (∀ i, i < size → m' !! (a + i) = Some x00) ∧
        (∀ q, q < a ∨ a + size ≤ q → m' !! q = m !! q).
Proof.
  intros Hacc. unfold dMem_clear.
  apply (dMem_clear_loop_spec a size m Hacc); [lia | intros i; lia | done].
Qed.

(** [dMem_clear] checks nothing: when one of the [size] bytes cannot be
    accessed, the loop runs into it. *)
Theorem dMem_clear_runs_past_the_block (a size j : N) (m : gmap addr byte) :
  j < size → m !! (a + j) = None →
  dMem_clear (Some a) size m = Fault InvalidPtr.
Proof.
  intros Hj Hnone. unfold dMem_clear.
  apply (dMem_clear_loop_fault a _ 0 m j); [lia | lia | done].
Qed.

(** The loop of [dMem_copy]; [f i] is the index of the source byte that
    ends up in [dest[i]]. *)
Lemma dMem_copy_loop_spec (d s size : N) (m0 : gmap addr byte) (f : N → N) :
  accessible m0 d size → accessible m0 s size →
  (∀ k, k < size → f k ≤ k) →
  (∀ k, k < size → d ≤ s + k → s + k < d + k →
        ∃ i, i < k ∧ s + k = d + i ∧ f i = f k) →
  (∀ k, k < size → s + k < d ∨ d + k ≤ s + k → f k = k) →
  ∀ todo k m,
    k + N.of_nat todo = size →
    (∀ i, i < k → m !! (d + i) = m0 !! (s + f i)) →
    (∀ q, q < d ∨ d + k ≤ q → m !! q = m0 !! q) →
    ∃ m', dMem_copy_loop todo k (Some d) (Some s) m = Ok m' ∧
          (∀ i, i < size → m' !! (d + i) = m0 !! (s + f i)) ∧
          (∀ q, q < d ∨ d + size ≤ q → m' !! q = m0 !! q).
Proof.
  intros Hd Hs Hle Hback Hfwd.
  induction todo as [|t IH]; intros k m Hk Hdone Hrest.
  - exists m. split; [done|]. replace size with k by lia. done.
  - cbn [dMem_copy_loop]. unfold load_byte, store_byte.
    assert (k < size) as Hksz by lia.
    assert (m !! (s + k) = m0 !! (s + f k)) as Hread.
    { destruct (N.lt_ge_cases (s + k) d) as [Hlow|Hhigh].
      - rewrite Hrest by lia. by rewrite Hfwd by lia.
      - destruct (N.lt_ge_cases (s + k) (d + k)) as [Hin|Hout].
        + destruct (Hback k Hksz Hhigh Hin) as (i & Hi & -> & <-).
          by apply Hdone.
        + rewrite Hrest by lia. by rewrite Hfwd by lia. }
    destruct (Hs (f k)) as [b Hb]; [specialize (Hle k Hksz); lia|].
    rewrite Hread, Hb. cbn [mbind res_bind].
    destruct (Hd k Hksz) as [b' Hb'].
    rewrite (Hrest (d + k)) by lia. rewrite Hb'. cbn [mbind res_bind].
    apply IH.
    + lia.
    + intros i Hi. destruct (N.eq_dec i k) as [->|Hne].
      * by rewrite lookup_insert_eq.
      * rewrite lookup_insert_ne by lia. apply Hdone. lia.
    + intros q Hq. rewrite lookup_insert_ne by lia. apply Hrest. lia.
Qed.

(** [dMem_copy] copies [size] bytes when the destination does not start
    inside the source after its first byte (it is at or below the source,
    or at least [size] above it): each destination byte receives the
    source byte of the same index as it was before the call, and nothing
    outside the destination changes. *)
Theorem dMem_copy_copies (d s size : N) (m : gmap addr byte) :
  accessible m d size → accessible m s size →
  d ≤ s ∨ s + size ≤ d →
  ∃ m', dMem_copy (Some d) (Some s) size m = Ok m' ∧
        (∀ i, i < size → m' !! (d + i) = m !! (s + i)) ∧
        (∀ q, q < d ∨ d + size ≤ q → m' !! q = m !! q).
Proof.
  intros Hd Hs Hpos. unfold dMem_copy.
  apply (dMem_copy_loop_spec d s size m (λ i, i) Hd Hs);
    [intros; lia | intros; lia | done | lia | intros i; lia | done].
Qed.

(** [dMem_copy] is not [memmove]: when the destination starts [p] bytes
    above the source, with [0 < p], the loop reads bytes it has already
    written, and the destination receives the first [p] bytes of the source
    over and over. *)
Theorem dMem_copy_overlap_repeats (s p size : N) (m : gmap addr byte) :
  0 < p → accessible m (s + p) size → accessible m s size →
  ∃ m', dMem_copy (Some (s + p)) (Some s) size m = Ok m' ∧
        (∀ i, i < size → m' !! (s + p + i) = m !! (s + i mod p)) ∧
        (∀ q, q < s + p ∨ s + p + size ≤ q → m' !! q = m !! q).
Proof.
  intros Hp Hd Hs. unfold dMem_copy.
  apply (dMem_copy_loop_spec (s + p) s size m (λ i, i mod p) Hd Hs).
  - intros k _. apply N.Div0.mod_le.
  - intros k Hk Hge Hlt. exists (k - p). split; [lia|]. split; [lia|].
    replace k with ((k - p) + 1 * p) at 2 by lia.
    by rewrite N.Div0.mod_add.
  - intros k Hk Hcase. apply N.mod_small. lia.
  - lia.
  - intros i; lia.
  - done.
Qed.

(** ** The properties above on concrete inputs *)

Lemma dObj_unlink_closed_is_identity_witness :
  dObj_unlink (Some (HeapObj 4096)) one_closed = Ok one_closed ∧
  dGC_unroot (Some (HeapObj 4096)) one_closed = Ok one_closed.
Proof.
  apply (dObj_unlink_closed_is_identity one_closed (HeapObj 4096)).
  split; reflexivity.
Defined.

Lemma dGC_unroot_on_generation_object_witness :
  ∃ s', dGC_unroot (Some (HeapObj 4096)) one_rooted = Ok s' ∧
        tracking s' [4128] [].
Proof.
  destruct (dGC_unroot_on_generation_object one_rooted [4128] [4096] 4096
              one_rooted_tracking ltac:(left))
    as (s' & H1 & H2 & _).
  exists s'. split; [exact H1 | exact H2].
Defined.

Lemma root_unroot_round_trip_witness :
  ∃ s1 s2,
    dGC_root (Some (HeapObj 4096)) sample_store = Ok s1 ∧
    tracking s1 [4096] [] ∧
    dGC_unroot (Some (HeapObj 4096)) s1 = Ok s2 ∧ tracking s2 [] [].
Proof.
  destruct (root_unroot_round_trip sample_store [] [] 4096 sample_store_tracking)
    as (s1 & s2 & H1 & H2 & H3 & H4 & _).
  - apply not_elem_of_nil.
  - eexists. reflexivity.
  - exists s1, s2. split; [exact H1|]. split; [exact H2|]. split; [exact H3|].
    exact H4.
Defined.


Lemma dSlice_equals_compares_prefixes_witness :
  dSlice_equals [x66; x6f; x6f; x21] 3 name_foo 3
  = Ok (bool_decide (3 = 3 ∧ take (N.to_nat 3) [x66; x6f; x6f; x21]
                              = take (N.to_nat 3) name_foo)).
Proof.
  apply (dSlice_equals_compares_prefixes [x66; x6f; x6f; x21] name_foo 3 3);
    simpl; lia.
Defined.

Lemma dHash_fnv1a_one_byte_apart_witness :
  dHash_fnv1a ([x66; x6f] ++ [x6f]) ≠ dHash_fnv1a ([x66; x6f] ++ [x78]) ∧
  dHash_fnv1a ([x66; x6f] ++ [x6f]) < hash_modulus.
Proof.
  apply (dHash_fnv1a_one_byte_apart [x66; x6f] [] x6f x78). discriminate.
Defined.


Lemma dSymbols_init_gives_empty_table_witness :
  ∃ syms',
    dSymbols_init no_junk (DySymbols None 7 9) 64 bump_allocator
      (AllocState 8192 [])
    = Ok (syms', AllocState 8704 [AllocCall None 0 512 (Some 8192)]) ∧
    count syms' = 0 ∧ capacity syms' = 64.
Proof.
  destruct (dSymbols_init_gives_empty_table no_junk bump_allocator
              (DySymbols None 7 9) 64 (AllocState 8192 [])
              (AllocState 8704 [AllocCall None 0 512 (Some 8192)]) 8192)
    as (syms' & H1 & H2 & H3 & _).
  - reflexivity.
  - reflexivity.
  - reflexivity.
  - exists syms'. split; [exact H1|]. split; [exact H2 | exact H3].
Defined.

Lemma dSymbols_init_size_wraps_witness :
  dSymbols_init no_junk (DySymbols None 0 0) (2 ^ 61 + 1) bump_allocator
    (AllocState 8192 [])
  = Fault OutOfBounds.
Proof.
  apply (dSymbols_init_size_wraps no_junk bump_allocator (DySymbols None 0 0)
           (2 ^ 61 + 1) (AllocState 8192 [])
           (AllocState 8200 [AllocCall None 0 8 (Some 8192)]) 8192).
  - reflexivity.
  - intros H. discriminate H.
  - reflexivity.
Defined.

Lemma dSymbols_init_destroy_round_trip_witness :
  ∃ syms' syms'' al2,
    dSymbols_init no_junk (DySymbols None 7 9) 64 bump_allocator
      (AllocState 8192 [])
    = Ok (syms', AllocState 8704 [AllocCall None 0 512 (Some 8192)]) ∧
    dSymbols_destroy syms' bump_allocator
      (AllocState 8704 [AllocCall None 0 512 (Some 8192)])
    = (syms'', al2) ∧
    outstanding (calls al2) [] = [].
Proof.
  destruct (dSymbols_init_destroy_round_trip no_junk bump_allocator
              (DySymbols None 7 9) 64 (AllocState 8192 [])
              (AllocState 8704 [AllocCall None 0 512 (Some 8192)]) 8192)
    as (syms' & syms'' & al2 & r & H1 & H2 & _ & _ & _ & _ & H3 & _).
  - reflexivity.
  - reflexivity.
  - exists syms', syms'', al2. split; [exact H1|]. split; [exact H2|].
    exact (H3 []).
Defined.

Lemma dSymbols_ensure_capacity_keeps_table_witness :
  ∃ s' al',
    dSymbols_ensure_capacity no_junk foo_table 2 bump_allocator
      (AllocState 8192 []) = Ok (s', al') ∧
    count (symbols s') = 1 ∧
    lookup_symbol s' name_foo (N.of_nat (length name_foo)) 2851307223
    = lookup_symbol foo_table name_foo (N.of_nat (length name_foo)) 2851307223.
Proof.
  destruct foo_table_inv as (chains & Hinv & _).
  destruct (dSymbols_ensure_capacity_keeps_table no_junk bump_allocator
              foo_table chains 2 (AllocState 8192 []) (inv_wf _ _ _ Hinv))
    as (s' & al' & chains' & H1 & _ & _ & H2 & _ & H3 & _).
  - reflexivity.
  - intros H. discriminate H.
  - exists s', al'. split; [exact H1|]. split; [exact H2|]. apply H3.
Defined.


Lemma dSymbols_intern_counts_before_placing_witness :
  ∃ sl s1 al1,
    dSymbols_intern no_junk (empty_table 4096 64) name_foo
      (N.of_nat (length name_foo)) 2851307223 bump_allocator (AllocState 8192 [])
    = Ok (sl, s1, al1) ∧
    read_slot s1 sl = Ok None ∧ count (symbols s1) = 1.
Proof.
  destruct (dSymbols_intern_counts_before_placing no_junk bump_allocator
              (empty_table 4096 64) (replicate (N.to_nat 64) [])
              (AllocState 8192 []) name_foo 2851307223)
    as (sl & s1 & al1 & chains1 & H1 & H2 & H3 & _).
  - apply (inv_wf dHash_fnv1a). apply empty_table_inv; reflexivity.
  - reflexivity.
  - reflexivity.
  - intros b Hb. rewrite concat_replicate_nil in Hb. by apply elem_of_nil in Hb.
  - exists sl, s1, al1. split; [exact H1|]. split; [exact H2 | exact H3].
Defined.

Lemma intern_all_then_lookup_witness :
  ∃ ids s' al',
    intern_all no_junk dHash_fnv1a bump_allocator
      [(100, blank_object, name_foo); (200, blank_object, name_bar);
       (300, blank_object, name_foo)]
      (empty_table 4096 64) (AllocState 8192 [])
    = Ok (ids, s', al') ∧
    length ids = 3%nat.
Proof.
  destruct (intern_all_then_lookup no_junk dHash_fnv1a bump_allocator
              [(100, blank_object, name_foo); (200, blank_object, name_bar);
               (300, blank_object, name_foo)]
              (empty_table 4096 64) (replicate (N.to_nat 64) [])
              (AllocState 8192 []))
    as (ids & s' & al' & chains' & H1 & _ & H2 & _).
  - apply empty_table_inv; reflexivity.
  - intros H. discriminate H.
  - apply (bool_decide_unpack _). vm_compute. exact I.
  - intros e He. reflexivity.
  - exists ids, s', al'. split; [exact H1 | exact H2].
Defined.

Lemma dSymbols_resize_hands_back_old_array_witness :
  ∃ s' al2 r,
    dSymbols_resize no_junk foo_table 128 bump_allocator (AllocState 8192 [])
    = Ok (s', al2) ∧
    array_base <$> buckets (symbols s') = Some 8192 ∧
    calls al2 = [AllocCall None 0 1024 (Some 8192);
                 AllocCall (Some 4096) 0 0 r].
Proof.
  destruct foo_table_inv as (chains & Hinv & _).
  destruct (dSymbols_resize_hands_back_old_array no_junk bump_allocator
              foo_table chains 128 (AllocState 8192 [])
              (AllocState 9216 [AllocCall None 0 1024 (Some 8192)]) 8192 4096
              (inv_wf _ _ _ Hinv))
    as (s' & al2 & r & H1 & H2 & _ & H3 & _).
  - reflexivity.
  - reflexivity.
  - reflexivity.
  - reflexivity.
  - exists s', al2, r. split; [exact H1|]. split; [exact H2 | exact H3].
Defined.

Lemma dysl_new_builds_empty_context_witness :
  ∃ D al,
    dysl_new no_junk sample_global budget_allocator (budget_state 3 4096)
    = Ok (Some D, al) ∧
    instance_addr D = 4096 ∧ global (instance_state D) = Some 4104 ∧
    main_state (instance_global D) = Some 4096.
Proof.
  destruct (dysl_new_builds_empty_context no_junk budget_allocator sample_global
              (budget_state 3 4096)
              (AllocState (2, 4104) [AllocCall None 0 8 (Some 4096)])
              (AllocState (1, 4200) [AllocCall None 0 8 (Some 4096);
                                     AllocCall None 0 96 (Some 4104)])
              (AllocState (0, 4712) [AllocCall None 0 8 (Some 4096);
                                     AllocCall None 0 96 (Some 4104);
                                     AllocCall None 0 512 (Some 4200)])
              4096 4104 4200)
    as (D & H1 & H2 & H3 & H4 & _).
  - reflexivity.
  - reflexivity.
  - reflexivity.
  - exists D. eexists. split; [exact H1|]. split; [exact H2|].
    split; [exact H3 | exact H4].
Defined.

Lemma dysl_new_null_leaks_nothing_witness :
  dysl_new no_junk sample_global budget_allocator (budget_state 1 4096)
  = Ok (None, AllocState (0, 4104)
                [AllocCall None 0 8 (Some 4096); AllocCall None 0 96 None;
                 AllocCall (Some 4096) 0 0 None]) ∧
  outstanding
    [AllocCall None 0 8 (Some 4096); AllocCall None 0 96 None;
     AllocCall (Some 4096) 0 0 None] [] = [].
Proof.
  split; [reflexivity|].
  destruct (dysl_new_null_leaks_nothing no_junk budget_allocator sample_global
              (budget_state 1 4096)
              (AllocState (0, 4104)
                 [AllocCall None 0 8 (Some 4096); AllocCall None 0 96 None;
                  AllocCall (Some 4096) 0 0 None]))
    as [_ H].
  - reflexivity.
  - apply elem_of_nil_inv. intros q Hq.
    apply (H [] q) in Hq. by apply elem_of_nil in Hq.
Defined.


Section CommandLineWitnesses.
Import Stdlib.Strings.Ascii Stdlib.Strings.String.
Local Open Scope string_scope.

Lemma main_without_script_witness :
  ∃ text,
    main no_malloc no_free no_realloc no_junk unit_global ["dysl"; "--help"] tt
    = Ok (text, 0%N, tt) ∧
    main no_malloc no_free no_realloc no_junk unit_global ["dysl"; "-x"] tt
    = Ok (("Unknown option: -x" ++ newline) :: text, 1%N, tt).
Proof.
  destruct (main_without_script no_malloc no_free no_realloc no_junk unit_global
              "dysl" tt) as (text & _ & _ & H1 & _ & H2).
  exists text. split.
  - apply (H1 "--help" []). by right.
  - apply (H2 "-x" []); [reflexivity | discriminate..].
Defined.

End CommandLineWitnesses.

Lemma sample_bytes_accessible (a size : N) :
  100 ≤ a → a + size ≤ 108 → accessible sample_bytes a size.
Proof.
  intros Ha Hs i Hi.
  assert (a + i = 100 ∨ a + i = 101 ∨ a + i = 102 ∨ a + i = 103 ∨
          a + i = 104 ∨ a + i = 105 ∨ a + i = 106 ∨ a + i = 107) as Hc by lia.
  destruct Hc as [->|[->|[->|[->|[->|[->|[->| ->]]]]]]]; eexists; reflexivity.
Qed.

Lemma dMem_clear_zeroes_the_block_witness :
  ∃ m', dMem_clear (Some 102) 4 sample_bytes = Ok m' ∧
        m' !! (102 + 3) = Some x00 ∧ m' !! 106 = Some x07.
Proof.
  destruct (dMem_clear_zeroes_the_block 102 4 sample_bytes)
    as (m' & H1 & H2 & H3).
  - apply sample_bytes_accessible; lia.
  - exists m'. split; [exact H1|]. split.
    + apply H2. lia.
    + rewrite H3 by lia. reflexivity.
Defined.

Lemma dMem_clear_runs_past_the_block_witness :
  dMem_clear (Some 104) 8 sample_bytes = Fault InvalidPtr.
Proof.
  apply (dMem_clear_runs_past_the_block 104 8 4 sample_bytes);
    [lia | reflexivity].
Defined.

Lemma dMem_copy_copies_witness :
  ∃ m', dMem_copy (Some 100) (Some 102) 4 sample_bytes = Ok m' ∧
        m' !! (100 + 3) = Some x06.
Proof.
  destruct (dMem_copy_copies 100 102 4 sample_bytes) as (m' & H1 & H2 & _).
  - apply sample_bytes_accessible; lia.
  - apply sample_bytes_accessible; lia.
  - left. lia.
  - exists m'. split; [exact H1|]. rewrite H2 by lia. reflexivity.
Defined.

Lemma dMem_copy_overlap_repeats_witness :
  ∃ m', dMem_copy (Some (100 + 2)) (Some 100) 6 sample_bytes = Ok m' ∧
        m' !! (100 + 2 + 4) = Some x01 ∧ m' !! (100 + 2 + 5) = Some x02.
Proof.
  destruct (dMem_copy_overlap_repeats 100 2 6 sample_bytes) as (m' & H1 & H2 & _).
  - lia.
  - apply sample_bytes_accessible; lia.
  - apply sample_bytes_accessible; lia.
  - exists m'. split; [exact H1|]. split; rewrite H2 by lia; reflexivity.
Defined.
